(** * websockets: frame codec, close payload, message assembler, handshake glue

    A shallow embedding of the parts of the [websockets] package that the
    specification talks about:

    - [legacy/framing.py]: [Frame.read], [parse_close], [serialize_close];
    - [sync/messages.py]: the [Assembler] with its two-event latch, in
      buffering mode ([get]) and in streaming mode ([get_iter]), and
      [close];
    - [legacy/server.py]: [handler] and the opening handshake that it
      awaits ([read_http_request], [process_request], [process_origin],
      [process_extensions], [process_subprotocol], [select_subprotocol],
      [handshake]), and the connections that [WebSocketServer] tracks;
    - [sync/client.py]: [ClientProtocol.handshake] and [process_event].

    Python values are modelled as follows.  [bytes] is a list of
    [Byte.byte]; [str] is a list of Unicode code points; [int] is [Z].
    Exceptions are values of [exn] carried by the [res] monad.  Code that
    runs under [threading] primitives is cut at its blocking calls into
    atomic sections, and the threads are interleaved by a step relation. *)

From Stdlib Require Import ZArith Lia List Bool String Strings.Byte.
From stdpp Require Import base decidable list gmap strings.
Import ListNotations.
Local Open Scope Z_scope.

(** ** Python values *)

Definition bytes := list Byte.byte.

(** A [str] is a sequence of code points. *)
Definition str := list Z.

(** [b[i]] for a [bytes] object: an integer in [0, 256). *)
Definition byte_val (b : Byte.byte) : Z := Z.of_N (Byte.to_N b).

(** [bytes([z])] for [z] in [0, 256). *)
Definition byte_of_Z (z : Z) : Byte.byte :=
  match Byte.of_N (Z.to_N (z mod 256)) with
  | Some b => b
  | None => Byte.x00
  end.

(** ** Exceptions and the error monad *)

Inductive exn : Type :=
  | ProtocolError (msg : string)
  | PayloadTooBig (length max_size : Z)
  | EOFError
  | RuntimeError (msg : string)
  | AssertionError
  | TypeError
  | ValueError
  | UnicodeDecodeError
  | UnicodeEncodeError
  | IndexError
  | TimeoutError (msg : string)
  | StructError
  | IncompleteReadError
  | OtherException (name : string).

Inductive res (A : Type) : Type :=
  | Ok (a : A)
  | Raise (e : exn).
Arguments Ok {A} a.
Arguments Raise {A} e.

Definition bind {A B} (r : res A) (k : A -> res B) : res B :=
  match r with
  | Ok a => k a
  | Raise e => Raise e
  end.

#[global] Instance res_bind : MBind res := fun A B k r => bind r k.
#[global] Instance res_ret : MRet res := fun A a => Ok a.

Definition is_ok {A} (r : res A) : bool :=
  match r with Ok _ => true | Raise _ => false end.

(** ** UTF-8

    The codec of the Python runtime, with [errors="strict"].
    [utf_8_decode final data] is [codecs.utf_8_decode(data, "strict", final)]:
    it returns the decoded text and the bytes it did not consume.  When
    [final] is false an incomplete trailing sequence is left unconsumed;
    otherwise it is an error.  A sequence that can no longer become valid
    is rejected at once, whatever [final] says. *)

Definition is_cont (c : Z) : bool := (0x80 <=? c) && (c <=? 0xBF).

(** Second byte of a three-byte sequence: no overlong forms, no surrogates. *)
Definition second3 (c0 c1 : Z) : bool :=
  if c0 =? 0xE0 then (0xA0 <=? c1) && (c1 <=? 0xBF)
  else if c0 =? 0xED then (0x80 <=? c1) && (c1 <=? 0x9F)
  else is_cont c1.

(** Second byte of a four-byte sequence: no overlong forms, at most U+10FFFF. *)
Definition second4 (c0 c1 : Z) : bool :=
  if c0 =? 0xF0 then (0x90 <=? c1) && (c1 <=? 0xBF)
  else if c0 =? 0xF4 then (0x80 <=? c1) && (c1 <=? 0x8F)
  else is_cont c1.

Definition emit (c : Z) (r : res (str * bytes)) : res (str * bytes) :=
  '(s, rest) ← r; Ok (c :: s, rest).

Definition incomplete (final : bool) (l : bytes) : res (str * bytes) :=
  if final then Raise UnicodeDecodeError else Ok ([], l).

Fixpoint utf_8_decode (final : bool) (l : bytes) {struct l} : res (str * bytes) :=
  match l with
  | [] => Ok ([], [])
  | b0 :: t =>
    let c0 := byte_val b0 in
    if c0 <? 0x80 then emit c0 (utf_8_decode final t)
    else if c0 <? 0xC2 then Raise UnicodeDecodeError
    else if c0 <? 0xE0 then
      match t with
      | [] => incomplete final l
      | b1 :: t1 =>
        let c1 := byte_val b1 in
        if is_cont c1
        then emit ((c0 - 0xC0) * 64 + (c1 - 0x80)) (utf_8_decode final t1)
        else Raise UnicodeDecodeError
      end
    else if c0 <? 0xF0 then
      match t with
      | [] => incomplete final l
      | b1 :: t1 =>
        let c1 := byte_val b1 in
        if second3 c0 c1 then
          match t1 with
          | [] => incomplete final l
          | b2 :: t2 =>
            let c2 := byte_val b2 in
            if is_cont c2
            then emit ((c0 - 0xE0) * 4096 + (c1 - 0x80) * 64 + (c2 - 0x80))
                      (utf_8_decode final t2)
            else Raise UnicodeDecodeError
          end
        else Raise UnicodeDecodeError
      end
    else if c0 <? 0xF5 then
      match t with
      | [] => incomplete final l
      | b1 :: t1 =>
        let c1 := byte_val b1 in
        if second4 c0 c1 then
          match t1 with
          | [] => incomplete final l
          | b2 :: t2 =>
            let c2 := byte_val b2 in
            if is_cont c2 then
              match t2 with
              | [] => incomplete final l
              | b3 :: t3 =>
                let c3 := byte_val b3 in
                if is_cont c3
                then emit ((c0 - 0xF0) * 262144 + (c1 - 0x80) * 4096
                           + (c2 - 0x80) * 64 + (c3 - 0x80))
                          (utf_8_decode final t3)
                else Raise UnicodeDecodeError
              end
            else Raise UnicodeDecodeError
          end
        else Raise UnicodeDecodeError
      end
    else Raise UnicodeDecodeError
  end.

(** [data.decode("utf-8")]: the whole input must be consumed. *)
Definition bytes_decode (data : bytes) : res str :=
  '(s, _) ← utf_8_decode true data; Ok s.

(** The bytes of one code point; a surrogate or a value outside the
    Unicode range has no encoding. *)
Definition encode_cp (c : Z) : res bytes :=
  if c <? 0 then Raise ValueError
  else if c <? 0x80 then Ok [byte_of_Z c]
  else if c <? 0x800 then
    Ok [byte_of_Z (0xC0 + c / 64); byte_of_Z (0x80 + c mod 64)]
  else if (0xD800 <=? c) && (c <=? 0xDFFF) then Raise UnicodeEncodeError
  else if c <? 0x10000 then
    Ok [byte_of_Z (0xE0 + c / 4096); byte_of_Z (0x80 + (c / 64) mod 64);
        byte_of_Z (0x80 + c mod 64)]
  else if c <? 0x110000 then
    Ok [byte_of_Z (0xF0 + c / 262144); byte_of_Z (0x80 + (c / 4096) mod 64);
        byte_of_Z (0x80 + (c / 64) mod 64); byte_of_Z (0x80 + c mod 64)]
  else Raise ValueError.

(** [s.encode("utf-8")]. *)
Fixpoint str_encode (s : str) : res bytes :=
  match s with
  | [] => Ok []
  | c :: s' =>
    b ← encode_cp c;
    bs ← str_encode s';
    Ok (b ++ bs)
  end.

(** ** [struct] *)

(** Big-endian unsigned integer held by [data]. *)
Definition be_uint (data : bytes) : Z :=
  fold_left (fun acc b => acc * 256 + byte_val b) data 0.

(** [struct.unpack(fmt, data)] for a format of [n] bytes fails unless
    [data] has exactly [n] bytes. *)
Definition sized (n : nat) (data : bytes) : res bytes :=
  if Nat.eqb (length data) n then Ok data else Raise StructError.

(** [struct.unpack("!BB", data)]. *)
Definition unpack_BB (data : bytes) : res (Z * Z) :=
  match data with
  | [b0; b1] => Ok (byte_val b0, byte_val b1)
  | _ => Raise StructError
  end.

(** [struct.unpack("!H", data)]. *)
Definition unpack_H (data : bytes) : res Z :=
  d ← sized 2 data; Ok (be_uint d).

(** [struct.unpack("!Q", data)]. *)
Definition unpack_Q (data : bytes) : res Z :=
  d ← sized 8 data; Ok (be_uint d).

(** [struct.pack("!H", n)]. *)
Definition pack_H (n : Z) : res bytes :=
  if (0 <=? n) && (n <? 65536)
  then Ok [byte_of_Z (n / 256); byte_of_Z (n mod 256)]
  else Raise StructError.

(** ** [websockets.frames] *)

Module frames.

Inductive Opcode : Type := CONT | TEXT | BINARY | CLOSE | PING | PONG.

#[global] Instance Opcode_eq_dec : EqDecision Opcode.
Proof. solve_decision. Defined.

Definition Opcode_value (o : Opcode) : Z :=
  match o with
  | CONT => 0x0 | TEXT => 0x1 | BINARY => 0x2
  | CLOSE => 0x8 | PING => 0x9 | PONG => 0xA
  end.

(** [Opcode(z)]: the enumeration lookup, [ValueError] for other values. *)
Definition Opcode_of (z : Z) : res Opcode :=
  if z =? 0x0 then Ok CONT
  else if z =? 0x1 then Ok TEXT
  else if z =? 0x2 then Ok BINARY
  else if z =? 0x8 then Ok CLOSE
  else if z =? 0x9 then Ok PING
  else if z =? 0xA then Ok PONG
  else Raise ValueError.

Definition is_ctrl (o : Opcode) : bool :=
  match o with
  | CLOSE | PING | PONG => true
  | _ => false
  end.

Record Frame : Type := mkFrame {
  opcode : Opcode;
  data : bytes;
  fin : bool;
  rsv1 : bool;
  rsv2 : bool;
  rsv3 : bool
}.

(** Modelled from the spec: [frames.py] is missing; [Frame.check]
    enforces the frame invariants of the data model: reserved bits are
    zero, and a control frame is final and carries at most 125 bytes. *)
Definition check (f : Frame) : res unit :=
  if rsv1 f || rsv2 f || rsv3 f
  then Raise (ProtocolError "reserved bits must be 0")
  else if is_ctrl (opcode f) then
    if (125 <? Z.of_nat (length (data f)))
    then Raise (ProtocolError "control frame too long")
    else if negb (fin f)
    then Raise (ProtocolError "fragmented control frame")
    else Ok ()
  else Ok ().

(** ** Close payload *)

Record Close : Type := mkClose { code : Z; reason : str }.

(** Modelled from the spec: [frames.py] is missing; a close code is
    valid on the wire when it lies in 1000..=4999 and is none of 1005,
    1006, 1015. *)
Definition Close_check (c : Close) : res unit :=
  if (1000 <=? code c) && (code c <=? 4999)
     && negb ((code c =? 1005) || (code c =? 1006) || (code c =? 1015))
  then Ok ()
  else Raise (ProtocolError "invalid status code").

(** Modelled from the spec: [frames.py] is missing; [Close.parse]
    accepts an empty payload, which stands for [(1005, "")], or at
    least two bytes: a big-endian code followed by the UTF-8 reason. *)
Definition Close_parse (data : bytes) : res Close :=
  match data with
  | [] => Ok (mkClose 1005 [])
  | [_] => Raise (ProtocolError "close frame too short")
  | b0 :: b1 :: rest =>
    code ← unpack_H [b0; b1];
    reason ← bytes_decode rest;
    let close := mkClose code reason in
    _ ← Close_check close;
    Ok close
  end.

(** Modelled from the spec: [frames.py] is missing; [Close.serialize]
    rejects invalid codes and reasons whose UTF-8 encoding exceeds 123
    bytes. *)
Definition Close_serialize (c : Close) : res bytes :=
  _ ← Close_check c;
  r ← str_encode (reason c);
  if 123 <? Z.of_nat (length r)
  then Raise (ProtocolError "close reason too long")
  else
    h ← pack_H (code c);
    Ok (h ++ r).

End frames.

(** ** [websockets.legacy.framing]: close payload *)

(** [dataclasses.astuple(Close.parse(data))]. *)
Definition parse_close (data : bytes) : res (Z * str) :=
  c ← frames.Close_parse data;
  Ok (frames.code c, frames.reason c).

Definition serialize_close (code : Z) (reason : str) : res bytes :=
  frames.Close_serialize (frames.mkClose code reason).

(** ** Extensions and masking *)

(** The interface of [extensions.Extension] that reading a frame uses:
    [decode(frame, max_size=...)] returns a frame or raises. *)
Record Extension : Type := mkExtension {
  ext_name : string;
  decode : frames.Frame -> option Z -> res frames.Frame
}.

(** Modelled from the spec: [utils.apply_mask] is missing;
    [out[i] = in[i] XOR key[i mod 4]], and the key must have four bytes. *)
Fixpoint mask_from (i : nat) (data key : bytes) : bytes :=
  match data with
  | [] => []
  | b :: t =>
    byte_of_Z (Z.lxor (byte_val b) (byte_val (nth (i mod 4)%nat key Byte.x00)))
      :: mask_from (S i) t key
  end.

Definition apply_mask (data mask : bytes) : res bytes :=
  if Nat.eqb (length mask) 4 then Ok (mask_from 0 data mask)
  else Raise ValueError.

(** ** [websockets.legacy.framing.Frame] *)

(** The [reader] coroutine: it returns exactly [n] bytes of the stream and
    the rest of the stream, or fails when the stream ends first. *)
Definition reader (n : Z) (stream : bytes) : res (bytes * bytes) :=
  if (0 <=? n) && (n <=? Z.of_nat (length stream))
  then Ok (take (Z.to_nat n) stream, drop (Z.to_nat n) stream)
  else Raise IncompleteReadError.

(** Truth value of an integer. *)
Definition truthy (z : Z) : bool := negb (z =? 0).

Module Frame.

Record t : Type := mk {
  fin : bool;
  opcode : frames.Opcode;
  data : bytes;
  rsv1 : bool;
  rsv2 : bool;
  rsv3 : bool
}.

Definition new_frame (f : t) : frames.Frame :=
  frames.mkFrame (opcode f) (data f) (fin f) (rsv1 f) (rsv2 f) (rsv3 f).

Definition check (f : t) : res unit := frames.check (new_frame f).

(** The length of the payload: the 7-bit field, or the 16-bit or 64-bit
    extended length that follows it. *)
Definition read_length (head2 : Z) (stream : bytes) : res (Z * bytes) :=
  let length := Z.land head2 0x7F in
  if length =? 126 then
    '(data, stream) ← reader 2 stream;
    length ← unpack_H data;
    Ok (length, stream)
  else if length =? 127 then
    '(data, stream) ← reader 8 stream;
    length ← unpack_Q data;
    Ok (length, stream)
  else Ok (length, stream).

(** [for extension in reversed(extensions): new_frame = extension.decode(...)] *)
Fixpoint decode_loop (exts : list Extension) (max_size : option Z)
    (new_frame : frames.Frame) : res frames.Frame :=
  match exts with
  | [] => Ok new_frame
  | extension :: exts' =>
    new_frame ← decode extension new_frame max_size;
    decode_loop exts' max_size new_frame
  end.

(** The frame as it is on the wire, before the extensions see it. *)
Definition read_wire (mask : bool) (max_size : option Z) (stream : bytes)
    : res (frames.Frame * bytes) :=
  (* Read the header. *)
  '(data, stream) ← reader 2 stream;
  '(head1, head2) ← unpack_BB data;
  let fin := truthy (Z.land head1 0x80) in
  let rsv1 := truthy (Z.land head1 0x40) in
  let rsv2 := truthy (Z.land head1 0x20) in
  let rsv3 := truthy (Z.land head1 0x10) in
  opcode ← match frames.Opcode_of (Z.land head1 0x0F) with
           | Ok o => Ok o
           | Raise _ => Raise (ProtocolError "invalid opcode")
           end;
  if negb (eqb (truthy (Z.land head2 0x80)) mask)
  then Raise (ProtocolError "incorrect masking")
  else
    '(length, stream) ← read_length head2 stream;
    if match max_size with Some m => m <? length | None => false end
    then Raise (PayloadTooBig length (default 0 max_size))
    else
      '(mask_bits, stream) ← (if mask then reader 4 stream else Ok ([], stream));
      (* Read the data. *)
      '(data, stream) ← reader length stream;
      data ← (if mask then apply_mask data mask_bits else Ok data);
      Ok (frames.mkFrame opcode data fin rsv1 rsv2 rsv3, stream).

Definition read (mask : bool) (max_size : option Z)
    (extensions : option (list Extension)) (stream : bytes)
    : res (t * bytes) :=
  '(new_frame, stream) ← read_wire mask max_size stream;
  let extensions := default [] extensions in
  new_frame ← decode_loop (rev extensions) max_size new_frame;
  _ ← frames.check new_frame;
  Ok (mk (frames.fin new_frame) (frames.opcode new_frame)
         (frames.data new_frame) (frames.rsv1 new_frame)
         (frames.rsv2 new_frame) (frames.rsv3 new_frame), stream).

End Frame.

(** ** [codecs]: the incremental UTF-8 decoder

    [codecs.getincrementaldecoder("utf-8")] is a
    [BufferedIncrementalDecoder] over [utf_8_decode]: it keeps the bytes
    that the last call did not consume and decodes them again, followed by
    the new input, at the next call.  Its state is that buffer; a call
    that raises leaves it alone. *)
Definition UTF8Decoder_new : bytes := [].

Definition UTF8Decoder_decode (buffer input : bytes) (final : bool)
    : res (str * bytes) :=
  utf_8_decode final (buffer ++ input).
Arguments UTF8Decoder_decode : simpl never.

(** ** [websockets.typing.Data] *)

Inductive Data : Type :=
  | Str (s : str)
  | Bytes (b : bytes).

(** [b"".join(chunks)]: every chunk must be [bytes]. *)
Fixpoint join_bytes (chunks : list Data) : res bytes :=
  match chunks with
  | [] => Ok []
  | Bytes b :: chunks' => r ← join_bytes chunks'; Ok (b ++ r)
  | Str _ :: _ => Raise TypeError
  end.

(** ["".join(chunks)]: every chunk must be [str]. *)
Fixpoint join_str (chunks : list Data) : res str :=
  match chunks with
  | [] => Ok []
  | Str s :: chunks' => r ← join_str chunks'; Ok (s ++ r)
  | Bytes _ :: _ => Raise TypeError
  end.

(** ** [websockets.sync.messages.Assembler]

    The fields of the object, [mutex] apart: every function below is one
    [with self.mutex] block and runs atomically.  An [Event] is its flag;
    the [SimpleQueue] is the list of its items, oldest first.  A function
    returns the object as it leaves it, also when it raises. *)

Module Assembler.

Record t : Type := mk {
  message_complete : bool;
  message_fetched : bool;
  get_in_progress : bool;
  put_in_progress : bool;
  decoder : option bytes;
  chunks : list Data;
  chunks_queue : option (list (option Data));
  closed : bool
}.

(** [__init__] *)
Definition init : t := {|
  message_complete := false;
  message_fetched := false;
  get_in_progress := false;
  put_in_progress := false;
  decoder := None;
  chunks := [];
  chunks_queue := None;
  closed := false
|}.

Definition set_message_complete (v : bool) (self : t) : t :=
  mk v (message_fetched self) (get_in_progress self) (put_in_progress self)
     (decoder self) (chunks self) (chunks_queue self) (closed self).
Definition set_message_fetched (v : bool) (self : t) : t :=
  mk (message_complete self) v (get_in_progress self) (put_in_progress self)
     (decoder self) (chunks self) (chunks_queue self) (closed self).
Definition set_get_in_progress (v : bool) (self : t) : t :=
  mk (message_complete self) (message_fetched self) v (put_in_progress self)
     (decoder self) (chunks self) (chunks_queue self) (closed self).
Definition set_put_in_progress (v : bool) (self : t) : t :=
  mk (message_complete self) (message_fetched self) (get_in_progress self) v
     (decoder self) (chunks self) (chunks_queue self) (closed self).
Definition set_decoder (v : option bytes) (self : t) : t :=
  mk (message_complete self) (message_fetched self) (get_in_progress self)
     (put_in_progress self) v (chunks self) (chunks_queue self) (closed self).
Definition set_chunks (v : list Data) (self : t) : t :=
  mk (message_complete self) (message_fetched self) (get_in_progress self)
     (put_in_progress self) (decoder self) v (chunks_queue self) (closed self).
Definition set_chunks_queue (v : option (list (option Data))) (self : t) : t :=
  mk (message_complete self) (message_fetched self) (get_in_progress self)
     (put_in_progress self) (decoder self) (chunks self) v (closed self).
Definition set_closed (v : bool) (self : t) : t :=
  mk (message_complete self) (message_fetched self) (get_in_progress self)
     (put_in_progress self) (decoder self) (chunks self) (chunks_queue self) v.

(** *** [get]

    [get] is a first block, the wait on [message_complete] (which
    returns whether the event was set before the timeout), and a second
    block. *)

(** Lines 75-82. *)
Definition get_begin (self : t) : t * res unit :=
  if closed self then (self, Raise EOFError)
  else if get_in_progress self
  then (self, Raise (RuntimeError "get or get_iter is already running"))
  else (set_get_in_progress true self, Ok ()).

(** Lines 89-112; [completed] is what [message_complete.wait(timeout)]
    returned. *)
Definition get_end (completed : bool) (self : t) : t * res (option Data) :=
  let self := set_get_in_progress false self in
  (* Waiting for a complete message timed out. *)
  if negb completed then (self, Ok None)
  else if closed self then (self, Raise EOFError)
  else if negb (message_complete self) then (self, Raise AssertionError)
  else
    let self := set_message_complete false self in
    match
      match decoder self with
      | None => b ← join_bytes (chunks self); Ok (Bytes b)
      | Some _ => s ← join_str (chunks self); Ok (Str s)
      end
    with
    | Raise e => (self, Raise e)
    | Ok message =>
      if message_fetched self then (self, Raise AssertionError)
      else
        let self := set_message_fetched true self in
        let self := set_chunks [] self in
        match chunks_queue self with
        | Some _ => (self, Raise AssertionError)
        | None => (self, Ok (Some message))
        end
    end.

(** *** [put]

    [put] is a first block which, for the final frame of a message,
    ends in the wait on [message_fetched], and a second block after
    that wait. *)

Inductive put_status : Type :=
  | PutReturned   (* [return] inside the first block *)
  | PutWaiting.   (* the first block is left for [message_fetched.wait()] *)

(** Lines 207-225: store the chunk; complete the message if [fin]. *)
Definition put_chunk (frame : frames.Frame) (data : Data) (self : t)
    : t * res put_status :=
  let self :=
    match chunks_queue self with
    | None => set_chunks (chunks self ++ [data]) self
    | Some q => set_chunks_queue (Some (q ++ [Some data])) self
    end in
  if negb (frames.fin frame) then (self, Ok PutReturned)
  else
    (* Message is complete. Wait until it's fetched to return. *)
    if message_complete self then (self, Raise AssertionError)
    else
      let self := set_message_complete true self in
      let self :=
        match chunks_queue self with
        | Some q => set_chunks_queue (Some (q ++ [None])) self
        | None => self
        end in
      if message_fetched self then (self, Raise AssertionError)
      else (set_put_in_progress true self, Ok PutWaiting).

(** Lines 201-205: decode the payload if there is a decoder. *)
Definition put_data (frame : frames.Frame) (self : t) : t * res put_status :=
  match decoder self with
  | Some buffer =>
    match UTF8Decoder_decode buffer (frames.data frame) (frames.fin frame) with
    | Ok (s, buffer') => put_chunk frame (Str s) (set_decoder (Some buffer') self)
    | Raise e => (self, Raise e)
    end
  | None => put_chunk frame (Bytes (frames.data frame)) self
  end.

(** Lines 184-225. *)
Definition put_begin (frame : frames.Frame) (self : t) : t * res put_status :=
  if closed self then (self, Raise EOFError)
  else if put_in_progress self
  then (self, Raise (RuntimeError "put is already running"))
  else
    match frames.opcode frame with
    | frames.TEXT => put_data frame (set_decoder (Some UTF8Decoder_new) self)
    | frames.BINARY => put_data frame (set_decoder None self)
    | frames.CONT => put_data frame self
    | _ =>
      (* Ignore control frames. *)
      (self, Ok PutReturned)
    end.

(** Lines 230-239. *)
Definition put_end (self : t) : t * res unit :=
  let self := set_put_in_progress false self in
  if negb (message_fetched self) then (self, Raise AssertionError)
  else
    let self := set_message_fetched false self in
    if closed self then (self, Raise EOFError)
    else (set_decoder None self, Ok ()).

(** *** [close] *)

(** Lines 249-263. *)
Definition close (self : t) : t :=
  if closed self then self
  else
    let self := set_closed true self in
    (* Unblock get() or get_iter() *)
    let self :=
      if get_in_progress self then
        let self := set_message_complete true self in
        match chunks_queue self with
        | Some q => set_chunks_queue (Some (q ++ [None])) self
        | None => self
        end
      else self in
    (* Unblock put() *)
    if put_in_progress self then set_message_fetched true self else self.

(** *** [get_iter]

    The generator is a first block, which hands over the chunks buffered
    so far and switches to streaming; a loop that takes items from the
    queue until it meets [None]; and a last block.  The items it yields
    are the chunks handed over, then the items taken from the queue. *)

(** Lines 125-144; the result is the list [chunks] that is yielded first. *)
Definition get_iter_begin (self : t) : t * res (list Data) :=
  if closed self then (self, Raise EOFError)
  else if get_in_progress self
  then (self, Raise (RuntimeError "get or get_iter is already running"))
  else
    let chunks := chunks self in
    let self := set_chunks [] self in
    let self := set_chunks_queue (Some []) self in
    (* Sending None in chunk_queue supersedes setting message_complete
       when switching to "streaming". *)
    let self :=
      if message_complete self
      then set_chunks_queue (Some [None]) self
      else self in
    (set_get_in_progress true self, Ok chunks).

(** Line 149, [self.chunks_queue.get()]: the oldest item of the queue.
    The call blocks while the queue is empty, which is the result [None]
    here. *)
Definition queue_get (self : t) : option (t * res (option Data)) :=
  match chunks_queue self with
  | Some (item :: q) => Some (set_chunks_queue (Some q) self, Ok item)
  | Some [] => None
  | None => Some (self, Raise (OtherException "AttributeError"))
  end.

(** Lines 154-167. *)
Definition get_iter_end (self : t) : t * res unit :=
  let self := set_get_in_progress false self in
  if negb (message_complete self) then (self, Raise AssertionError)
  else
    let self := set_message_complete false self in
    if closed self then (self, Raise EOFError)
    else if message_fetched self then (self, Raise AssertionError)
    else
      let self := set_message_fetched true self in
      match chunks self with
      | _ :: _ => (self, Raise AssertionError)
      | [] => (set_chunks_queue None self, Ok ())
      end.

End Assembler.

(** ** One producer and one consumer around an assembler

    The library thread calls [put] for each frame in turn; the user thread
    calls [get] until it has received [need] messages.  Each thread is
    either between two calls, blocked in the wait of its call, or past the
    wait and about to take the mutex again.  At most [timeouts] waits of
    [get] time out; with [timeouts = 0] every call is [get()], which waits
    without limit. *)

Inductive producer : Type :=
  | PIdle (todo : list frames.Frame)
  | PWaiting (todo : list frames.Frame)
  | PWoken (todo : list frames.Frame)
  | PRaised (e : exn).

Inductive consumer : Type :=
  | CIdle
  | CWaiting
  | CWoken (completed : bool)
  | CRaised (e : exn).

Record system : Type := mkSystem {
  asm : Assembler.t;
  prod : producer;
  cons : consumer;
  need : nat;
  timeouts : nat;
  results : list (option Data)
}.

Definition start (todo : list frames.Frame) (need timeouts : nat) : system :=
  mkSystem Assembler.init (PIdle todo) CIdle need timeouts [].

(** What the scheduler may do next: let the producer or the consumer run
    up to its next blocking point, or let the consumer's wait time out. *)
Inductive action : Type := Produce | Consume | Timeout.

Definition exec (a : action) (s : system) : option system :=
  match a with
  | Produce =>
    match prod s with
    | PIdle (frame :: todo) =>
      let '(asm', r) := Assembler.put_begin frame (asm s) in
      let prod' :=
        match r with
        | Ok Assembler.PutReturned => PIdle todo
        | Ok Assembler.PutWaiting => PWaiting todo
        | Raise e => PRaised e
        end in
      Some (mkSystem asm' prod' (cons s) (need s) (timeouts s) (results s))
    | PWaiting todo =>
      (* [message_fetched.wait()] returns once the event is set. *)
      if Assembler.message_fetched (asm s)
      then Some (mkSystem (asm s) (PWoken todo) (cons s) (need s) (timeouts s)
                          (results s))
      else None
    | PWoken todo =>
      let '(asm', r) := Assembler.put_end (asm s) in
      let prod' := match r with Ok _ => PIdle todo | Raise e => PRaised e end in
      Some (mkSystem asm' prod' (cons s) (need s) (timeouts s) (results s))
    | PIdle [] | PRaised _ => None
    end
  | Consume =>
    match cons s with
    | CIdle =>
      match need s with
      | O => None
      | S _ =>
        let '(asm', r) := Assembler.get_begin (asm s) in
        let cons' := match r with Ok _ => CWaiting | Raise e => CRaised e end in
        Some (mkSystem asm' (prod s) cons' (need s) (timeouts s) (results s))
      end
    | CWaiting =>
      (* [message_complete.wait(timeout)] returns [True] once the event is set. *)
      if Assembler.message_complete (asm s)
      then Some (mkSystem (asm s) (prod s) (CWoken true) (need s) (timeouts s)
                          (results s))
      else None
    | CWoken completed =>
      let '(asm', r) := Assembler.get_end completed (asm s) in
      match r with
      | Ok (Some message) =>
        Some (mkSystem asm' (prod s) CIdle (Nat.pred (need s)) (timeouts s)
                       (results s ++ [Some message]))
      | Ok None =>
        Some (mkSystem asm' (prod s) CIdle (need s) (timeouts s)
                       (results s ++ [None]))
      | Raise e =>
        Some (mkSystem asm' (prod s) (CRaised e) (need s) (timeouts s) (results s))
      end
    | CRaised _ => None
    end
  | Timeout =>
    match cons s, timeouts s with
    | CWaiting, S n =>
      (* [message_complete.wait(timeout)] returns [False]. *)
      Some (mkSystem (asm s) (prod s) (CWoken false) (need s) n (results s))
    | _, _ => None
    end
  end.

Fixpoint run (sched : list action) (s : system) : option system :=
  match sched with
  | [] => Some s
  | a :: sched' =>
    match exec a s with
    | Some s' => run sched' s'
    | None => None
    end
  end.

(** No action is possible: both threads have finished or are blocked. *)
Definition stuck (s : system) : Prop := forall a, exec a s = None.

Definition raised (s : system) : bool :=
  match prod s, cons s with
  | PRaised _, _ | _, CRaised _ => true
  | _, _ => false
  end.

(** ** Messages as sequences of frames *)

(** After a frame whose [fin] bit is [prev_fin]: only continuation frames
    follow, and the message ends at the first frame that has [fin] set. *)
Fixpoint conts_then_fin (prev_fin : bool) (rest : list frames.Frame) : bool :=
  match rest with
  | [] => prev_fin
  | f :: rest' =>
    negb prev_fin
    && bool_decide (frames.opcode f = frames.CONT)
    && conts_then_fin (frames.fin f) rest'
  end.

(** A complete message: a text or binary frame, then continuation frames,
    of which the last one, and only the last one, has [fin] set. *)
Definition complete_message (m : list frames.Frame) : bool :=
  match m with
  | [] => false
  | first :: rest =>
    (bool_decide (frames.opcode first = frames.TEXT)
     || bool_decide (frames.opcode first = frames.BINARY))
    && conts_then_fin (frames.fin first) rest
  end.

Definition payload (m : list frames.Frame) : bytes :=
  concat (map frames.data m).

(** The message that the frames carry: the concatenation of the payloads,
    decoded for a text message. *)
Definition message_data (m : list frames.Frame) : res Data :=
  match m with
  | [] => Raise ValueError
  | first :: _ =>
    match frames.opcode first with
    | frames.TEXT => s ← bytes_decode (payload m); Ok (Str s)
    | frames.BINARY => Ok (Bytes (payload m))
    | _ => Raise ValueError
    end
  end.

(** The steps that a system can still take, see [exec_measure]. *)
Definition measure (s : system) : nat :=
  (match prod s with
   | PIdle todo => 3 * length todo
   | PWaiting todo => 3 * length todo + 2
   | PWoken todo => 3 * length todo + 1
   | PRaised _ => 0
   end
   + 3 * need s + 3 * timeouts s
   + match cons s with
     | CIdle => 3
     | CWaiting => 2
     | CWoken true => 1
     | CWoken false => 4
     | CRaised _ => 0
     end)%nat.

(** ** [websockets.legacy.server.WebSocketServerProtocol] *)

Definition Subprotocol := string.

(** [l.index(p)]: the first position of [p], [ValueError] when absent. *)
Fixpoint list_index (l : list Subprotocol) (p : Subprotocol) : res nat :=
  match l with
  | [] => Raise ValueError
  | x :: l' =>
    if decide (x = p) then Ok O
    else i ← list_index l' p; Ok (S i)
  end.

(** [sorted(iterable, key=key)]: the keys are computed first, in iteration
    order, and the sort is stable. *)
Fixpoint keyed (key : Subprotocol -> res nat) (l : list Subprotocol)
    : res (list (nat * Subprotocol)) :=
  match l with
  | [] => Ok []
  | x :: l' =>
    k ← key x;
    r ← keyed key l';
    Ok ((k, x) :: r)
  end.

Fixpoint insert_keyed (x : nat * Subprotocol) (l : list (nat * Subprotocol))
    : list (nat * Subprotocol) :=
  match l with
  | [] => [x]
  | y :: l' =>
    if (fst x <=? fst y)%nat then x :: y :: l'
    else y :: insert_keyed x l'
  end.

Definition sort_keyed (l : list (nat * Subprotocol)) : list (nat * Subprotocol) :=
  fold_right insert_keyed [] l.

Definition sorted (key : Subprotocol -> res nat) (l : list Subprotocol)
    : res (list Subprotocol) :=
  kl ← keyed key l;
  Ok (map snd (sort_keyed kl)).

(** A [set] is iterated in an order that the program does not control.
    [iteration iter] says that [iter s] is one way of iterating over [s]:
    every element once. *)
Definition iteration (iter : gset Subprotocol -> list Subprotocol) : Prop :=
  forall s, NoDup (iter s) /\ forall x, x ∈ iter s <-> x ∈ s.

(** Classes of the exceptions that the opening handshake can raise.

    Modelled from the spec: [exceptions.py] is missing; [InvalidHeader],
    [InvalidUpgrade], [InvalidOrigin], [NegotiationError], [InvalidMessage]
    and [AbortHandshake] specialize [InvalidHandshake].  [ConnectionError]
    and [CancelledError] are the classes of the Python runtime;
    [CancelledError] derives from [Exception] before Python 3.8 and from
    [BaseException] since. *)
Inductive exc_class : Type :=
  | ClsBaseException
  | ClsException
  | ClsCancelledError
  | ClsConnectionError
  | ClsInvalidHandshake
  | ClsInvalidHeader
  | ClsInvalidUpgrade
  | ClsInvalidOrigin
  | ClsNegotiationError
  | ClsInvalidMessage
  | ClsAbortHandshake
  | ClsOther (name : string).

#[global] Instance exc_class_eq_dec : EqDecision exc_class.
Proof. solve_decision. Defined.

(** The class and its base classes, nearest first. *)
Definition mro (py_lt_38 : bool) (c : exc_class) : list exc_class :=
  match c with
  | ClsBaseException => [ClsBaseException]
  | ClsException => [ClsException; ClsBaseException]
  | ClsCancelledError =>
    if py_lt_38 then [ClsCancelledError; ClsException; ClsBaseException]
    else [ClsCancelledError; ClsBaseException]
  | ClsInvalidHandshake => [ClsInvalidHandshake; ClsException; ClsBaseException]
  | ClsInvalidHeader | ClsInvalidUpgrade | ClsInvalidOrigin
  | ClsNegotiationError | ClsInvalidMessage | ClsAbortHandshake =>
    [c; ClsInvalidHandshake; ClsException; ClsBaseException]
  | ClsConnectionError | ClsOther _ => [c; ClsException; ClsBaseException]
  end.

Definition Headers := list (string * string).

(** The line feed. *)
Definition LF : string := String (Ascii.ascii_of_nat 10) EmptyString.

(** An exception object: its class, its text [str(exc)], and the response
    that an [AbortHandshake] carries. *)
Record exc : Type := mkExc {
  exc_cls : exc_class;
  exc_str : string;
  exc_status : Z;
  exc_headers : Headers;
  exc_body : string
}.

(** Modelled from the spec: [Headers] belongs to [datastructures.py],
    which is not under [src/], and the specification refers to HTTP
    headers through their contract only.  The contract taken here is the
    one that [server.py] relies on.  A [Headers] object holds pairs of a
    name and a value, in the order in which they were set; setting an
    item adds a pair at the end; names are compared without regard to
    case; a name may have several values, and looking up a name that has
    several raises [MultipleValuesError] (lines 458-461).  [setdefault]
    is the one that the Python library defines for every
    [MutableMapping]: it looks the name up, and sets the item when the
    lookup raises [KeyError]; any other exception of the lookup leaves
    [setdefault]. *)

(** [c.lower()] for the letters of header names, which are ASCII. *)
Definition lower_ascii (c : Ascii.ascii) : Ascii.ascii :=
  let n := Ascii.nat_of_ascii c in
  if ((65 <=? n) && (n <=? 90))%nat then Ascii.ascii_of_nat (n + 32) else c.

Fixpoint lower (s : string) : string :=
  match s with
  | EmptyString => EmptyString
  | String c s' => String (lower_ascii c) (lower s')
  end.

(** The values that [headers] holds for [key], in order. *)
Definition values_of (key : string) (headers : Headers) : list string :=
  map snd (filter (fun kv => lower (fst kv) = lower key) headers).

(** [MultipleValuesError(key)], a [LookupError]. *)
Definition MultipleValuesError (key : string) : exc :=
  mkExc (ClsOther "MultipleValuesError") key 0 [] "".

(** [headers.setdefault(key, value)]: the headers as the call leaves
    them, or the exception that it raises. *)
Definition setdefault (key value : string) (headers : Headers)
    : exc + Headers :=
  match values_of key headers with
  | [] => inr (headers ++ [(key, value)])
  | [_] => inr headers
  | _ :: _ :: _ => inl (MultipleValuesError key)
  end.

(** What the handler does to the outside world. *)
Inductive effect : Type :=
  | WriteHttpResponse (status : Z) (headers : Headers) (body : string)
  | CloseTransport            (* [await self.close_transport()] *)
  | RunWsHandler (path : string)
  | FailConnection (code : Z) (* [self.fail_connection(1011)] *)
  | ClosingHandshake          (* [await self.close()] *)
  | TransportClose            (* [self.transport.close()] *)
  | Unregister.

(** The effects that put a WebSocket close frame on the wire. *)
Definition sends_close_frame (e : effect) : bool :=
  match e with
  | FailConnection _ | ClosingHandshake => true
  | _ => false
  end.

Definition is_http_response (e : effect) : bool :=
  match e with
  | WriteHttpResponse _ _ _ => true
  | _ => false
  end.

Module WebSocketServerProtocol.

(** What [handler] reads from its surroundings: the clock, the library
    version, the Python version, and whether the connection is closed
    by the time the connection handler fails. *)
Record env : Type := mkEnv {
  date : string;
  USER_AGENT : string;
  str_of_len : string -> string;   (* [str(len(body))] *)
  py_lt_38 : bool;
  closed : bool
}.

Definition isinstance (v : env) (e : exc) (c : exc_class) : bool :=
  bool_decide (c ∈ mro (py_lt_38 v) (exc_cls e)).

(** Lines 582-618.  [iter] is the iteration order of sets. *)
Definition select_subprotocol
    (iter : gset Subprotocol -> list Subprotocol)
    (_select_subprotocol :
       option (list Subprotocol -> list Subprotocol -> res (option Subprotocol)))
    (client_subprotocols server_subprotocols : list Subprotocol)
    : res (option Subprotocol) :=
  match _select_subprotocol with
  | Some select => select client_subprotocols server_subprotocols
  | None =>
    let subprotocols : gset Subprotocol :=
      list_to_set client_subprotocols ∩ list_to_set server_subprotocols in
    if decide (subprotocols = ∅) then Ok None
    else
      let priority p :=
        i ← list_index client_subprotocols p;
        j ← list_index server_subprotocols p;
        Ok (i + j)%nat in
      l ← sorted priority (iter subprotocols);
      match l with
      | p :: _ => Ok (Some p)
      | [] => Raise IndexError
      end
  end.

(** Lines 249-289: the response for an exception of the handshake. *)
Definition error_response (v : env) (exc : exc) : Z * Headers * string :=
  if isinstance v exc ClsAbortHandshake
  then (exc_status exc, exc_headers exc, exc_body exc)
  else if isinstance v exc ClsInvalidOrigin
  then (403, [],
        "Failed to open a WebSocket connection: " ++ exc_str exc ++ "." ++ LF)%string
  else if isinstance v exc ClsInvalidUpgrade
  then (426, [("Upgrade", "websocket")],
        "Failed to open a WebSocket connection: " ++ exc_str exc
        ++ "." ++ LF ++ LF
        ++ "You cannot access a WebSocket server directly with a browser. You need a WebSocket client."
        ++ LF)%string
  else if isinstance v exc ClsInvalidHandshake
  then (400, [],
        "Failed to open a WebSocket connection: " ++ exc_str exc ++ "." ++ LF)%string
  else (500, [],
        "Failed to open a WebSocket connection." ++ LF
        ++ "See server log for more information." ++ LF)%string.

(** The names of the headers that lines 291-295 set when they are
    missing. *)
Definition default_header_names : list string :=
  ["Date"; "Server"; "Content-Length"; "Content-Type"; "Connection"]%string.

(** Lines 291-295: the five calls of [setdefault], of which each one
    may raise. *)
Definition set_default_headers (v : env) (body : string) (headers : Headers)
    : exc + Headers :=
  match setdefault "Date" (date v) headers with
  | inl e => inl e
  | inr headers =>
  match setdefault "Server" (USER_AGENT v) headers with
  | inl e => inl e
  | inr headers =>
  match setdefault "Content-Length" (str_of_len v body) headers with
  | inl e => inl e
  | inr headers =>
  match setdefault "Content-Type" "text/plain" headers with
  | inl e => inl e
  | inr headers => setdefault "Connection" "close" headers
  end end end end.

(** Lines 233-318: the [try] block of [handler].  The result is what it
    did and the exception that leaves it, if any.  An exception raised
    inside the [except Exception as exc] block (lines 249-302) leaves
    that block before anything is written. *)
Definition handler_try (v : env)
    (handshake : exc + string) (ws_handler close : option exc)
    : list effect * option exc :=
  match handshake with
  | inl exc =>
    if isinstance v exc ClsCancelledError then ([], Some exc)
    else if isinstance v exc ClsConnectionError then ([], Some exc)
    else if isinstance v exc ClsException then
      let '(status, headers, body) := error_response v exc in
      match set_default_headers v body headers with
      | inl raised => ([], Some raised)
      | inr headers =>
        ([WriteHttpResponse status headers body; CloseTransport], None)
      end
    else ([], Some exc)
  | inr path =>
    match ws_handler with
    | Some exc =>
      if isinstance v exc ClsException
      then (RunWsHandler path
              :: (if closed v then [] else [FailConnection 1011]), Some exc)
      else ([RunWsHandler path], Some exc)
    | None =>
      ([RunWsHandler path; ClosingHandshake], close)
    end
  end.

(** Lines 224-333: [handler], with its last-ditch [except] and its
    [finally]. *)
Definition handler (v : env)
    (handshake : exc + string) (ws_handler close : option exc)
    : list effect * option exc :=
  let '(effects, raised) := handler_try v handshake ws_handler close in
  match raised with
  | Some exc =>
    if isinstance v exc ClsException
    then (effects ++ [TransportClose; Unregister], None)
    else (effects ++ [Unregister], Some exc)
  | None => (effects ++ [Unregister], None)
  end.

(** *** The steps of the opening handshake

    An exception raised by the handshake is a value [inl exc]; a result
    is [inr v]. *)

(** The request headers.  [Headers] belongs to a module that is not
    modelled, and the handshake reads the request through [get] and
    [get_all] only, which are the fields here: [get key] is [None] when
    it raises [MultipleValuesError] and [Some None] when it returns
    [None]. *)
Record RequestHeaders : Type := mkRequestHeaders {
  get : string -> option (option string);
  get_all : string -> list string
}.

(** [str(exc)] for the exceptions that the handshake builds;
    [exceptions.py] is not modelled. *)
Record exception_texts : Type := mkTexts {
  InvalidMessage_str : string -> string;
  InvalidHeader_str : string -> string -> string;
  InvalidOrigin_str : option string -> string;
  AbortHandshake_str : Z -> Headers -> string -> string
}.

(** Lines 198-201 of [__init__], for backwards compatibility: the empty
    string in [origins] stands for [None]. *)
Definition init_origins (origins : option (list (option string)))
    : option (list (option string)) :=
  match origins with
  | Some l =>
    if bool_decide (Some ""%string ∈ l)
    then Some (map (fun origin =>
                      if bool_decide (origin = Some ""%string)
                      then None else origin) l)
    else Some l
  | None => None
  end.

(** Lines 335-361.  [read_request] belongs to a module that is not
    modelled: what it returns or raises is the parameter.  The result is
    the path and the headers of the request. *)
Definition read_http_request (v : env) (texts : exception_texts)
    (read_request : exc + (string * RequestHeaders))
    : exc + (string * RequestHeaders) :=
  match read_request with
  | inl exc =>
    if isinstance v exc ClsCancelledError then inl exc
    else if isinstance v exc ClsException
    then inl (mkExc ClsInvalidMessage
                (InvalidMessage_str texts "did not receive a valid HTTP request")
                0 [] "")
    else inl exc
  | inr request => inr request
  end.

(** Lines 444-465.  An origin is [None] or a string. *)
Definition process_origin (texts : exception_texts) (headers : RequestHeaders)
    (origins : option (list (option string))) : exc + option string :=
  match get headers "Origin" with
  | None =>
    inl (mkExc ClsInvalidHeader
           (InvalidHeader_str texts "Origin" "more than one Origin header found")
           0 [] "")
  | Some origin =>
    match origins with
    | Some allowed =>
      if bool_decide (origin ∈ allowed) then inr origin
      else inl (mkExc ClsInvalidOrigin (InvalidOrigin_str texts origin) 0 [] "")
    | None => inr origin
    end
  end.

(** An extension offered or accepted: its name and its parameters. *)
Definition ExtensionHeader : Type := string * list (string * option string).

(** What [process_request_params] does with an offer: it accepts it with
    response parameters and an extension, or it raises
    [NegotiationError], or it raises something else. *)
Inductive negotiation : Type :=
  | Accepted (response_params : list (string * option string))
             (extension : Extension)
  | Declined
  | Failed (e : exc).

(** The interface of [ServerExtensionFactory]. *)
Record ServerExtensionFactory : Type := mkFactory {
  factory_name : string;
  process_request_params :
    list (string * option string) -> list Extension -> negotiation
}.

(** Lines 520-539: the factories are tried in order for one offer. *)
Fixpoint negotiate_one (name : string)
    (request_params : list (string * option string))
    (factories : list ServerExtensionFactory)
    (accepted_extensions : list Extension)
    : exc + option (ExtensionHeader * Extension) :=
  match factories with
  | [] => inr None
  | ext_factory :: factories' =>
    (* Skip non-matching extensions based on their name. *)
    if negb (String.eqb (factory_name ext_factory) name)
    then negotiate_one name request_params factories' accepted_extensions
    else
      match process_request_params ext_factory request_params
              accepted_extensions with
      | Declined =>
        negotiate_one name request_params factories' accepted_extensions
      | Failed e => inl e
      | Accepted response_params extension =>
        inr (Some ((name, response_params), extension))
      end
  end.

(** Lines 518-542: the loop over the offers of the client. *)
Fixpoint negotiate (offers : list ExtensionHeader)
    (factories : list ServerExtensionFactory)
    (extension_headers : list ExtensionHeader)
    (accepted_extensions : list Extension)
    : exc + (list ExtensionHeader * list Extension) :=
  match offers with
  | [] => inr (extension_headers, accepted_extensions)
  | (name, request_params) :: offers' =>
    match negotiate_one name request_params factories accepted_extensions with
    | inl e => inl e
    | inr None =>
      negotiate offers' factories extension_headers accepted_extensions
    | inr (Some (header, extension)) =>
      negotiate offers' factories (extension_headers ++ [header])
                (accepted_extensions ++ [extension])
    end
  end.

(** [sum([parse(v) for v in header_values], [])] for a parser that may
    raise. *)
Fixpoint parse_all {A} (parse : string -> exc + list A)
    (header_values : list string) : exc + list A :=
  match header_values with
  | [] => inr []
  | v :: header_values' =>
    match parse v with
    | inl e => inl e
    | inr l =>
      match parse_all parse header_values' with
      | inl e => inl e
      | inr r => inr (l ++ r)
      end
    end
  end.

(** Lines 467-548.  [parse_extension] and [build_extension] belong to a
    module that is not modelled and are parameters. *)
Definition process_extensions
    (parse_extension : string -> exc + list ExtensionHeader)
    (build_extension : list ExtensionHeader -> string)
    (headers : RequestHeaders)
    (available_extensions : option (list ServerExtensionFactory))
    : exc + (option string * list Extension) :=
  let header_values := get_all headers "Sec-WebSocket-Extensions" in
  match
    match header_values, available_extensions with
    | _ :: _, Some ((_ :: _) as factories) =>
      match parse_all parse_extension header_values with
      | inl e => inl e
      | inr parsed_header_values => negotiate parsed_header_values factories [] []
      end
    | _, _ => inr ([], [])
    end
  with
  | inl e => inl e
  | inr (extension_headers, accepted_extensions) =>
    (* Serialize extension header. *)
    let response_header_value :=
      match extension_headers with
      | [] => None
      | _ :: _ => Some (build_extension extension_headers)
      end in
    inr (response_header_value, accepted_extensions)
  end.

(** An exception of the Python runtime, as the handler sees it: an
    [Exception] that is none of the classes of the handshake. *)
Definition runtime_error (e : exn) : exc :=
  let name :=
    match e with
    | ValueError => "ValueError"
    | IndexError => "IndexError"
    | TypeError => "TypeError"
    | OtherException name => name
    | _ => "Exception"
    end%string in
  mkExc (ClsOther name) name 0 [] "".

(** Lines 551-580.  [parse_subprotocol] belongs to a module that is not
    modelled and is a parameter; [iter] and [_select_subprotocol] are
    those of [select_subprotocol]. *)
Definition process_subprotocol
    (parse_subprotocol : string -> exc + list Subprotocol)
    (iter : gset Subprotocol -> list Subprotocol)
    (_select_subprotocol :
       option (list Subprotocol -> list Subprotocol -> res (option Subprotocol)))
    (headers : RequestHeaders)
    (available_subprotocols : option (list Subprotocol))
    : exc + option Subprotocol :=
  let header_values := get_all headers "Sec-WebSocket-Protocol" in
  match header_values, available_subprotocols with
  | _ :: _, Some ((_ :: _) as available) =>
    match parse_all parse_subprotocol header_values with
    | inl e => inl e
    | inr parsed_header_values =>
      match select_subprotocol iter _select_subprotocol
              parsed_header_values available with
      | Ok subprotocol => inr subprotocol
      | Raise e => inl (runtime_error e)
      end
    end
  | _, _ => inr None
  end.

(** An HTTP response: status, headers and body. *)
Definition HTTPResponse : Type := Z * Headers * string.

(** Lines 391-441. *)
Definition process_request
    (_process_request :
       option (string -> RequestHeaders -> exc + option HTTPResponse))
    (path : string) (request_headers : RequestHeaders)
    : exc + option HTTPResponse :=
  match _process_request with
  | Some f => f path request_headers
  | None => inr None
  end.

(** *** [handshake] and the life of a connection *)

(** What [handshake] calls in modules that are not modelled, and what it
    reads from the connection and the server. *)
Record collaborators : Type := mkCollaborators {
  (* [read_request(self.reader)]: the path and the headers, or what it
     raises *)
  read_request : exc + (string * RequestHeaders);
  (* [self.state is State.CLOSED] after [process_request] *)
  state_closed : bool;
  connection_closed_exc : exc;
  (* [self.ws_server.is_serving()] *)
  is_serving : bool;
  (* [check_request(request_headers)]: the key, or an exception *)
  check_request : RequestHeaders -> exc + string;
  parse_extension : string -> exc + list ExtensionHeader;
  build_extension : list ExtensionHeader -> string;
  parse_subprotocol : string -> exc + list Subprotocol;
  (* the headers that [build_response(response_headers, key)] adds *)
  build_response : string -> Headers;
  texts : exception_texts;
  (* the order in which a set is iterated *)
  iter : gset Subprotocol -> list Subprotocol
}.

(** [extra_headers]: headers, or a callable that returns headers. *)
Inductive HeadersLikeOrCallable : Type :=
  | HeadersLike (headers : Headers)
  | Callable (f : string -> RequestHeaders -> exc + option Headers).

(** The configuration of the protocol object, as [__init__] stores it. *)
Record config : Type := mkConfig {
  origins : option (list (option string));
  available_extensions : option (list ServerExtensionFactory);
  available_subprotocols : option (list Subprotocol);
  extra_headers : option HeadersLikeOrCallable;
  _process_request :
    option (string -> RequestHeaders -> exc + option HTTPResponse);
  _select_subprotocol :
    option (list Subprotocol -> list Subprotocol -> res (option Subprotocol))
}.

(** What a successful handshake has set on the protocol object. *)
Record opened : Type := mkOpened {
  path : string;
  origin : option string;
  extensions : list Extension;
  subprotocol : option Subprotocol;
  response_headers : Headers
}.

(** Lines 620-710.  The result is what was written to the transport and
    the exception or the negotiated connection.  The response headers are
    a [Headers] object as in [handler]: [headers[key] = value] and
    [update] add at the end, and [setdefault] may raise.  The response of
    a successful handshake has no body, which is the empty string here. *)
Definition handshake (v : env) (c : collaborators) (cfg : config)
    : list effect * (exc + opened) :=
  match read_http_request v (texts c) (read_request c) with
  | inl e => ([], inl e)
  | inr (path, request_headers) =>
    match process_request (_process_request cfg) path request_headers with
    | inl e => ([], inl e)
    | inr early_response =>
    (* The connection may drop while process_request is running. *)
    if state_closed c then ([], inl (connection_closed_exc c))
    else
      (* Change the response to a 503 error if the server is shutting down. *)
      let early_response :=
        if negb (is_serving c)
        then Some (503, [], ("Server is shutting down." ++ LF)%string)
        else early_response in
      match early_response with
      | Some (status, headers, body) =>
        ([], inl (mkExc ClsAbortHandshake
                    (AbortHandshake_str (texts c) status headers body)
                    status headers body))
      | None =>
        match check_request c request_headers with
        | inl e => ([], inl e)
        | inr key =>
          match process_origin (texts c) request_headers (origins cfg) with
          | inl e => ([], inl e)
          | inr origin =>
            match process_extensions (parse_extension c) (build_extension c)
                    request_headers (available_extensions cfg) with
            | inl e => ([], inl e)
            | inr (extensions_header, extensions) =>
              match process_subprotocol (parse_subprotocol c) (iter c)
                      (_select_subprotocol cfg) request_headers
                      (available_subprotocols cfg) with
              | inl e => ([], inl e)
              | inr protocol_header =>
                let response_headers := build_response c key in
                let response_headers :=
                  match extensions_header with
                  | Some h => response_headers ++ [("Sec-WebSocket-Extensions", h)]
                  | None => response_headers
                  end in
                let response_headers :=
                  match protocol_header with
                  | Some p => response_headers ++ [("Sec-WebSocket-Protocol", p)]
                  | None => response_headers
                  end in
                match
                  match extra_headers cfg with
                  | Some (Callable f) => f path request_headers
                  | Some (HeadersLike h) => inr (Some h)
                  | None => inr None
                  end
                with
                | inl e => ([], inl e)
                | inr extra =>
                  let response_headers :=
                    match extra with
                    | Some extra => response_headers ++ extra
                    | None => response_headers
                    end in
                  match setdefault "Date" (date v) response_headers with
                  | inl e => ([], inl e)
                  | inr response_headers =>
                    match setdefault "Server" (USER_AGENT v)
                            response_headers with
                    | inl e => ([], inl e)
                    | inr response_headers =>
                      ([WriteHttpResponse 101 response_headers ""],
                       inr (mkOpened path origin extensions protocol_header
                                     response_headers))
                    end
                  end
                end
              end
            end
          end
        end
      end
    end
  end.

(** [handler] with the handshake that it awaits: everything that happens
    to a connection from the request to the end of the handler task. *)
Definition connection (v : env) (c : collaborators) (cfg : config)
    (ws_handler close : option exc) : list effect * option exc :=
  let '(written, outcome) := handshake v c cfg in
  let '(effects, raised) :=
    handler v (match outcome with
               | inl e => inl e
               | inr o => inr (path o)
               end) ws_handler close in
  (written ++ effects, raised).

End WebSocketServerProtocol.

(** ** [websockets.legacy.server.WebSocketServer]

    The set [websockets] of the connections that the server tracks; a
    connection is identified by a number. *)

Module WebSocketServer.

(** Lines 781-786, [self.websockets.add(protocol)]. *)
Definition register (protocol : nat) (websockets : gset nat) : gset nat :=
  {[protocol]} ∪ websockets.

(** Lines 788-793, [self.websockets.remove(protocol)]: [KeyError] when
    the connection is not in the set. *)
Definition unregister (protocol : nat) (websockets : gset nat)
    : res (gset nat) :=
  if decide (protocol ∈ websockets)
  then Ok (websockets ∖ {[protocol]})
  else Raise (OtherException "KeyError").

End WebSocketServer.

(** ** [websockets.sync.client.ClientProtocol] *)

Inductive State : Type := CONNECTING | OPEN | CLOSING | CLOSED.

#[global] Instance State_eq_dec : EqDecision State.
Proof. solve_decision. Defined.

(** The handshake response event: [exception] is what the connection
    stored when it rejected the response. *)
Record Response : Type := mkResponse {
  status_code : Z;
  exception : option exn
}.

(** The methods of the connection and of the base protocol that
    [handshake] calls.  They live in modules that are not modelled; the
    protocol object records the calls in the order they are made. *)
Inductive call : Type :=
  | call_connect        (* [self.connection.connect()] *)
  | call_send_request   (* [self.connection.send_request(self.request)] *)
  | call_send_data      (* [self.send_data()] *)
  | call_tcp_close.     (* [self.tcp_close()] *)

Module ClientProtocol.

(** The protocol object: the calls made so far and the [response] field. *)
Record t : Type := mk {
  calls : list call;
  response : option Response
}.

Definition do (c : call) (self : t) : t :=
  mk (calls self ++ [c]) (response self).

(** What the receiving thread does during [response_rcvd.wait(timeout)]:
    through [process_event] it stores the response and sets the event, if
    a response arrives in time, and it leaves the connection in [state]. *)
Record arrival : Type := mkArrival {
  received : option Response;
  state : State
}.

(** Lines 42-62.  Returns the protocol object as [handshake] leaves it,
    also when it raises. *)
Definition handshake (self : t) (net : arrival) : t * res unit :=
  (* with self.conn_mutex: *)
  let self := do call_connect self in
  let self := do call_send_request self in
  let self := do call_send_data self in
  match received net with
  | None =>
    (* response_rcvd.wait(timeout) returned False *)
    (self, Raise (TimeoutError "timed out waiting for handshake response"))
  | Some r =>
    let self := mk (calls self) (Some r) in
    match response self with
    | None => (self, Raise AssertionError)
    | Some response =>
      let self :=
        if decide (state net = OPEN) then self else do call_tcp_close self in
      match exception response with
      | Some exc => (self, Raise exc)
      | None => (self, Ok ())
      end
    end
  end.

(** An incoming event: the handshake response or a frame. *)
Inductive Event : Type :=
  | EventResponse (r : Response)
  | EventFrame (f : frames.Frame).

(** Lines 64-76.  The first event sets [response] (and the event
    [response_rcvd], for which [handshake] waits); a later event is handed
    to [super().process_event], which belongs to a module that is not
    modelled: the result says which event was handed on, if any. *)
Definition process_event (event : Event) (self : t)
    : t * res (option Event) :=
  match response self with
  | None =>
    (* First event - handshake response. *)
    match event with
    | EventResponse r => (mk (calls self) (Some r), Ok None)
    | EventFrame _ => (self, Raise AssertionError)
    end
  | Some _ =>
    (* Later events - frames. *)
    (self, Ok (Some event))
  end.

End ClientProtocol.

(** ** One step of the UTF-8 decoder

    What the decoder finds at the head of its input.  [utf_8_decode] is a
    loop over these steps, see [utf_8_decode_next]. *)

Inductive utf8_step : Type :=
  | StepEnd
  | StepChar (c : Z) (rest : bytes)
  | StepIncomplete
  | StepInvalid.

Definition utf8_next (l : bytes) : utf8_step :=
  match l with
  | [] => StepEnd
  | b0 :: t =>
    let c0 := byte_val b0 in
    if c0 <? 0x80 then StepChar c0 t
    else if c0 <? 0xC2 then StepInvalid
    else if c0 <? 0xE0 then
      match t with
      | [] => StepIncomplete
      | b1 :: t1 =>
        let c1 := byte_val b1 in
        if is_cont c1
        then StepChar ((c0 - 0xC0) * 64 + (c1 - 0x80)) t1
        else StepInvalid
      end
    else if c0 <? 0xF0 then
      match t with
      | [] => StepIncomplete
      | b1 :: t1 =>
        let c1 := byte_val b1 in
        if second3 c0 c1 then
          match t1 with
          | [] => StepIncomplete
          | b2 :: t2 =>
            let c2 := byte_val b2 in
            if is_cont c2
            then StepChar ((c0 - 0xE0) * 4096 + (c1 - 0x80) * 64 + (c2 - 0x80)) t2
            else StepInvalid
          end
        else StepInvalid
      end
    else if c0 <? 0xF5 then
      match t with
      | [] => StepIncomplete
      | b1 :: t1 =>
        let c1 := byte_val b1 in
        if second4 c0 c1 then
          match t1 with
          | [] => StepIncomplete
          | b2 :: t2 =>
            let c2 := byte_val b2 in
            if is_cont c2 then
              match t2 with
              | [] => StepIncomplete
              | b3 :: t3 =>
                let c3 := byte_val b3 in
                if is_cont c3
                then StepChar ((c0 - 0xF0) * 262144 + (c1 - 0x80) * 4096
                               + (c2 - 0x80) * 64 + (c3 - 0x80)) t3
                else StepInvalid
              end
            else StepInvalid
          end
        else StepInvalid
      end
    else StepInvalid
  end.

(** ** Extensions applied from the last negotiated to the first

    [decode_nested [e1; ...; en] max_size f] is
    [e1.decode(... en.decode(f) ...)], stopping at the first decode that
    raises. *)
Definition decode_nested (exts : list Extension) (max_size : option Z)
    (wire : frames.Frame) : res frames.Frame :=
  fold_right (fun ext acc => f ← acc; decode ext f max_size) (Ok wire) exts.

(** The frame that [Frame.read] returns for a checked [frames.Frame]. *)
Definition of_new_frame (f : frames.Frame) : Frame.t :=
  Frame.mk (frames.fin f) (frames.opcode f) (frames.data f)
           (frames.rsv1 f) (frames.rsv2 f) (frames.rsv3 f).

(** An extension that owns [rsv1]: decoding clears the bit. *)
Definition clear_rsv1 : Extension :=
  mkExtension "clear-rsv1" (fun f _ =>
    Ok (frames.mkFrame (frames.opcode f) (frames.data f) (frames.fin f)
                       false (frames.rsv2 f) (frames.rsv3 f))).

(** An extension that prepends a byte to the payload. *)
Definition prepend_byte (b : Byte.byte) : Extension :=
  mkExtension "prepend" (fun f _ =>
    Ok (frames.mkFrame (frames.opcode f) (b :: frames.data f) (frames.fin f)
                       (frames.rsv1 f) (frames.rsv2 f) (frames.rsv3 f))).

(** ** The invariant of the latch

    [R] are the messages that the consumer has not fetched yet, the one
    in progress included, and [E] the values that [get] is to return for
    them. *)

Definition msg_ok (m : list frames.Frame) (d : Data) : Prop :=
  complete_message m = true /\ message_data m = Ok d.

(** The decoder and the chunks after the frames [pre] of a message. *)
Definition buffered (pre : list frames.Frame)
    (dec : option bytes) (chunks : list Data) : Prop :=
  match pre with
  | [] => dec = None /\ chunks = []
  | first :: _ =>
    match frames.opcode first with
    | frames.TEXT =>
      exists ss buffer,
        dec = Some buffer /\ chunks = map Str ss
        /\ utf_8_decode false (payload pre) = Ok (concat ss, buffer)
    | frames.BINARY =>
      dec = None /\ chunks = map (fun f => Bytes (frames.data f)) pre
    | _ => False
    end
  end.

(** The message that [get] builds from the decoder and the chunks. *)
Definition joined (dec : option bytes) (chunks : list Data) : res Data :=
  match dec with
  | None => b ← join_bytes chunks; Ok (Bytes b)
  | Some _ => s ← join_str chunks; Ok (Str s)
  end.

Definition latch (a : Assembler.t) (complete fetched putting : bool) : Prop :=
  Assembler.message_complete a = complete
  /\ Assembler.message_fetched a = fetched
  /\ Assembler.put_in_progress a = putting
  /\ Assembler.chunks_queue a = None
  /\ Assembler.closed a = false.

Inductive phase (a : Assembler.t)
    : producer -> list (list frames.Frame) -> list Data -> Prop :=
  | phase_done :
      latch a false false false ->
      buffered [] (Assembler.decoder a) (Assembler.chunks a) ->
      phase a (PIdle []) [] []
  | phase_buffering pre post R E :
      latch a false false false ->
      post <> [] ->
      buffered pre (Assembler.decoder a) (Assembler.chunks a) ->
      phase a (PIdle (post ++ concat R)) ((pre ++ post) :: R) E
  | phase_complete m R d E :
      latch a true false true ->
      joined (Assembler.decoder a) (Assembler.chunks a) = Ok d ->
      phase a (PWaiting (concat R)) (m :: R) (d :: E)
  | phase_fetched R E :
      latch a false true true ->
      Assembler.chunks a = [] ->
      phase a (PWaiting (concat R)) R E
  | phase_woken R E :
      latch a false true true ->
      Assembler.chunks a = [] ->
      phase a (PWoken (concat R)) R E.

Definition cons_ok (a : Assembler.t) (c : consumer) (need : nat) : Prop :=
  match c with
  | CIdle => Assembler.get_in_progress a = false
  | CWaiting => Assembler.get_in_progress a = true /\ (0 < need)%nat
  | CWoken true =>
    Assembler.get_in_progress a = true /\ Assembler.message_complete a = true
  | CWoken false => Assembler.get_in_progress a = true
  | CRaised _ => False
  end.

(** The calls of [get] that returned [None], and the one about to. *)
Definition count_none (results : list (option Data)) : nat :=
  length (filter (fun r => r = None) results).

Definition pending_none (c : consumer) : nat :=
  match c with CWoken false => 1 | _ => 0 end.

Definition inv (T : nat) (expected : list Data) (s : system) : Prop :=
  exists R E,
    Forall2 msg_ok R E
    /\ omap id (results s) ++ E = expected
    /\ need s = length E
    /\ phase (asm s) (prod s) R E
    /\ cons_ok (asm s) (cons s) (need s)
    /\ (count_none (results s) + timeouts s + pending_none (cons s) = T)%nat.

(** ** Sample frames *)

Definition data_frame (op : frames.Opcode) (fin : bool) (data : bytes)
    : frames.Frame :=
  frames.mkFrame op data fin false false false.

(** Scenario "fragmented binary": 01 02 | 03 | 04 05. *)
Definition fragmented_binary : list frames.Frame :=
  [data_frame frames.BINARY false [x01; x02];
   data_frame frames.CONT false [x03];
   data_frame frames.CONT true [x04; x05]].

(** The text "hél", cut inside the two bytes of "é". *)
Definition fragmented_text : list frames.Frame :=
  [data_frame frames.TEXT false [x68; xc3];
   data_frame frames.CONT true [xa9; x6c]].

(** One interleaving of the two messages: the consumer is ahead of the
    producer at first, and each [put] of a last frame waits for [get]. *)
Definition two_messages_schedule : list action :=
  [Consume; Produce; Produce; Produce; Consume; Consume; Produce;
   Produce; Produce; Produce; Consume; Consume; Consume; Produce; Produce].

(** The state at the end of that interleaving. *)
Definition two_messages_end : system :=
  mkSystem Assembler.init (PIdle []) CIdle 0 0
    [Some (Bytes [x01; x02; x03; x04; x05]); Some (Str [104; 233; 108])].

(** The assembler while [put] waits for the text "a" to be fetched. *)
Definition waiting_for_fetch : Assembler.t :=
  fst (Assembler.put_begin (data_frame frames.TEXT true [x61]) Assembler.init).

(** ** Sample handshake failures *)

Definition sample_env : WebSocketServerProtocol.env :=
  WebSocketServerProtocol.mkEnv "Thu, 01 Jan 1970 00:00:00 GMT"
    "Python/3.9 websockets/10.0" (fun _ => "25") false false.

(** What [handshake] raises while the server is shutting down. *)
Definition shutting_down : exc :=
  mkExc ClsAbortHandshake "HTTP 503" 503 [] ("Server is shutting down." ++ LF).

Definition connection_reset : exc :=
  mkExc ClsConnectionError "Connection reset by peer" 0 [] "".

(** The headers that [handler] sends with an error response when the
    exception brings none. *)
Definition error_headers (v : WebSocketServerProtocol.env) (body : string)
    : Headers :=
  [("Date", WebSocketServerProtocol.date v);
   ("Server", WebSocketServerProtocol.USER_AGENT v);
   ("Content-Length", WebSocketServerProtocol.str_of_len v body);
   ("Content-Type", "text/plain");
   ("Connection", "close")]%string.

(** Calls of [setdefault] one after the other, until one raises. *)
Fixpoint setdefaults (kvs : list (string * string)) (headers : Headers)
    : exc + Headers :=
  match kvs with
  | [] => inr headers
  | (key, value) :: kvs' =>
    match setdefault key value headers with
    | inl e => inl e
    | inr headers' => setdefaults kvs' headers'
    end
  end.

(** An [AbortHandshake] whose headers have two values for Connection. *)
Definition abort_two_connections : exc :=
  mkExc ClsAbortHandshake "HTTP 200" 200
    [("Connection", "close"); ("connection", "keep-alive")]%string "OK".

(** The status that goes with a class of exceptions, when [handler]
    answers them with an HTTP response. *)
Definition status_of (e : exc) : Z :=
  match exc_cls e with
  | ClsAbortHandshake => exc_status e
  | ClsInvalidOrigin => 403
  | ClsInvalidUpgrade => 426
  | ClsInvalidHandshake | ClsInvalidHeader | ClsNegotiationError
  | ClsInvalidMessage => 400
  | _ => 500
  end.

(** ** The producer alone

    [put_all frames a] calls [put] for each frame in turn, as long as the
    call returns in its first block; it stops at the first call that
    raises or that waits for its message to be fetched. *)
Fixpoint put_all (frames : list frames.Frame) (a : Assembler.t)
    : Assembler.t * res Assembler.put_status :=
  match frames with
  | [] => (a, Ok Assembler.PutReturned)
  | f :: frames' =>
    match Assembler.put_begin f a with
    | (a', Ok Assembler.PutReturned) => put_all frames' a'
    | r => r
    end
  end.

(** Text cut between two bytes of a character, the second of which is
    missing: 68 c3 | 6c. *)
Definition broken_text : list frames.Frame :=
  [data_frame frames.TEXT false [x68; xc3];
   data_frame frames.CONT true [x6c]].

(** ** Frames on the wire *)

(** The first byte of a frame without reserved bits: [fin] in bit 7, the
    opcode in bits 3..0. *)
Definition first_byte (fin : bool) (op : frames.Opcode) : Byte.byte :=
  byte_of_Z ((if fin then 0x80 else 0) + frames.Opcode_value op).

(** What [Frame.check] demands of a frame without reserved bits. *)
Definition ctrl_ok (fin : bool) (op : frames.Opcode) (data : bytes) : Prop :=
  frames.is_ctrl op = true -> fin = true /\ (length data <= 125)%nat.

(** The length of the payload that the second byte of a frame and the
    bytes [ext] of the extended length announce; [None] when [ext] is not
    what that byte calls for. *)
Definition announced_length (b1 : Byte.byte) (ext : bytes) : option Z :=
  let len7 := Z.land (byte_val b1) 0x7F in
  if len7 =? 126
  then (if Nat.eqb (length ext) 2 then Some (be_uint ext) else None)
  else if len7 =? 127
  then (if Nat.eqb (length ext) 8 then Some (be_uint ext) else None)
  else (if Nat.eqb (length ext) 0 then Some len7 else None).

(** The text "hi" as a client sends it, masked with the key 01 02 03 04,
    followed by the first bytes of another frame. *)
Definition masked_hi : bytes :=
  [x81; x82; x01; x02; x03; x04; x69; x6b; x88; x00].

(** ** Sample handshakes *)

(** Request headers given as a list of pairs, with names compared as they
    are written. *)
Definition request_of (l : list (string * string))
    : WebSocketServerProtocol.RequestHeaders :=
  let values key := map snd (filter (fun kv => fst kv = key) l) in
  WebSocketServerProtocol.mkRequestHeaders
    (fun key =>
       match values key with
       | [] => Some None
       | [v] => Some (Some v)
       | _ => None
       end)
    values.

(** A factory that accepts every offer of its name. *)
Definition accept_all (name : string)
    : WebSocketServerProtocol.ServerExtensionFactory :=
  WebSocketServerProtocol.mkFactory name
    (fun params _ => WebSocketServerProtocol.Accepted params clear_rsv1).

(** A factory that declines every offer. *)
Definition decline_all (name : string)
    : WebSocketServerProtocol.ServerExtensionFactory :=
  WebSocketServerProtocol.mkFactory name
    (fun _ _ => WebSocketServerProtocol.Declined).

(** A parser for header values that are one bare name. *)
Definition parse_name (v : string)
    : exc + list WebSocketServerProtocol.ExtensionHeader :=
  inr [(v, [])].

(** The names of the extensions, separated by commas. *)
Definition build_names (hs : list WebSocketServerProtocol.ExtensionHeader)
    : string :=
  String.concat ", " (map fst hs).

Definition parse_token (v : string) : exc + list Subprotocol := inr [v].

Definition sample_texts : WebSocketServerProtocol.exception_texts :=
  WebSocketServerProtocol.mkTexts
    (fun message => message)
    (fun name value => ("invalid " ++ name ++ " header: " ++ value)%string)
    (fun origin => ("invalid Origin header: " ++ default "" origin)%string)
    (fun _ _ _ => "HTTP response"%string).

(** Collaborators of a handshake for the request [GET /chat] with the
    given headers. *)
Definition sample_collaborators (request_headers : list (string * string))
    (serving : bool) : WebSocketServerProtocol.collaborators :=
  WebSocketServerProtocol.mkCollaborators
    (inr ("/chat"%string, request_of request_headers))
    false
    (mkExc (ClsOther "ConnectionClosedError") "" 0 [] "")
    serving
    (fun _ => inr "dGhlIHNhbXBsZSBub25jZQ=="%string)
    parse_name
    build_names
    parse_token
    (fun key => [("Upgrade", "websocket"); ("Connection", "Upgrade");
                 ("Sec-WebSocket-Accept", key)]%string)
    sample_texts
    elements.

Definition sample_factories
    : list WebSocketServerProtocol.ServerExtensionFactory :=
  [decline_all "permessage-deflate"; accept_all "permessage-deflate"].

Definition sample_config (origins : option (list (option string)))
    : WebSocketServerProtocol.config :=
  WebSocketServerProtocol.mkConfig origins
    (Some sample_factories)
    (Some ["mqtt"; "chat"]%string)
    None None None.

Definition sample_request : list (string * string) :=
  [("Origin", "https://example.com");
   ("Sec-WebSocket-Extensions", "x-unknown");
   ("Sec-WebSocket-Extensions", "permessage-deflate");
   ("Sec-WebSocket-Protocol", "chat")]%string.

(** A [process_request] that answers every request of a health check. *)
Definition health_check
    : string -> WebSocketServerProtocol.RequestHeaders
      -> exc + option WebSocketServerProtocol.HTTPResponse :=
  fun _ _ => inr (Some (200, [("content-type", "text/html")], "OK"))%string.

Definition health_check_config : WebSocketServerProtocol.config :=
  WebSocketServerProtocol.mkConfig None None None None (Some health_check) None.

(** The body of the response to a handshake that failed for the
    reason [text]. *)
Definition failure_body (text : string) : string :=
  ("Failed to open a WebSocket connection: " ++ text ++ "." ++ LF)%string.

(** Two requests that a server for [https://example.com] refuses. *)
Definition foreign_request : list (string * string) :=
  [("Origin", "https://example.org")]%string.

Definition two_origins_request : list (string * string) :=
  [("Origin", "https://example.com"); ("Origin", "https://example.org")]%string.

(** What the handshake of [sample_request] sets on the protocol object
    of a server for [https://example.com]. *)
Definition sample_opened : WebSocketServerProtocol.opened :=
  WebSocketServerProtocol.mkOpened "/chat" (Some "https://example.com"%string)
    [clear_rsv1] (Some "chat"%string)
    [("Upgrade", "websocket"); ("Connection", "Upgrade");
     ("Sec-WebSocket-Accept", "dGhlIHNhbXBsZSBub25jZQ==");
     ("Sec-WebSocket-Extensions", "permessage-deflate");
     ("Sec-WebSocket-Protocol", "chat");
     ("Date", "Thu, 01 Jan 1970 00:00:00 GMT");
     ("Server", "Python/3.9 websockets/10.0")]%string.

(** Neither an HTTP response nor a run of the connection handler. *)
Definition after_handler (e : effect) : Prop :=
  is_http_response e = false /\ forall path, e <> RunWsHandler path.

(** ** Events of the client *)

(** The events of a connection, processed one after the other as long as
    none raises: the protocol object at the end and the events that were
    handed on to the base class, in order. *)
Fixpoint process_events (events : list ClientProtocol.Event)
    (self : ClientProtocol.t)
    : ClientProtocol.t * res (list ClientProtocol.Event) :=
  match events with
  | [] => (self, Ok [])
  | event :: events' =>
    match ClientProtocol.process_event event self with
    | (self', Ok handed) =>
      match process_events events' self' with
      | (self'', Ok l) =>
        (self'', Ok (match handed with Some e => e :: l | None => l end))
      | r => r
      end
    | (self', Raise e) => (self', Raise e)
    end
  end.

(** ** One producer and one consumer that streams

    The library thread calls [put] for each frame in turn; the user thread
    iterates over [get_iter()], once per message, until it has received
    [need] messages.  The consumer is between two messages, in the loop
    of the generator with the chunks it has been given so far, or past
    the end marker and about to run the last block. *)

Inductive streamer : Type :=
  | SIdle
  | SReading (yielded : list Data)
  | SFinishing (yielded : list Data)
  | SRaised (e : exn).

Record streaming : Type := mkStreaming {
  s_asm : Assembler.t;
  s_prod : producer;
  s_cons : streamer;
  s_need : nat;
  (* the chunks of each message that was streamed to its end *)
  s_results : list (list Data)
}.

Definition stream_start (todo : list frames.Frame) (need : nat) : streaming :=
  mkStreaming Assembler.init (PIdle todo) SIdle need [].

(** The producer runs up to its next blocking point, as in [exec]. *)
Definition produce (a : Assembler.t) (p : producer)
    : option (Assembler.t * producer) :=
  match p with
  | PIdle (frame :: todo) =>
    let '(a', r) := Assembler.put_begin frame a in
    Some (a', match r with
              | Ok Assembler.PutReturned => PIdle todo
              | Ok Assembler.PutWaiting => PWaiting todo
              | Raise e => PRaised e
              end)
  | PWaiting todo =>
    (* [message_fetched.wait()] returns once the event is set. *)
    if Assembler.message_fetched a then Some (a, PWoken todo) else None
  | PWoken todo =>
    let '(a', r) := Assembler.put_end a in
    Some (a', match r with Ok _ => PIdle todo | Raise e => PRaised e end)
  | PIdle [] | PRaised _ => None
  end.

(** The queue has no timeout: the scheduler lets the producer or the
    consumer run, and [Timeout] is never possible. *)
Definition stream_exec (a : action) (s : streaming) : option streaming :=
  match a with
  | Produce =>
    match produce (s_asm s) (s_prod s) with
    | Some (asm', prod') =>
      Some (mkStreaming asm' prod' (s_cons s) (s_need s) (s_results s))
    | None => None
    end
  | Consume =>
    match s_cons s with
    | SIdle =>
      match s_need s with
      | O => None
      | S _ =>
        let '(asm', r) := Assembler.get_iter_begin (s_asm s) in
        let cons' :=
          match r with Ok chunks => SReading chunks | Raise e => SRaised e end in
        Some (mkStreaming asm' (s_prod s) cons' (s_need s) (s_results s))
      end
    | SReading yielded =>
      match Assembler.queue_get (s_asm s) with
      | None => None
      | Some (asm', r) =>
        let cons' :=
          match r with
          | Ok (Some chunk) => SReading (yielded ++ [chunk])
          | Ok None => SFinishing yielded
          | Raise e => SRaised e
          end in
        Some (mkStreaming asm' (s_prod s) cons' (s_need s) (s_results s))
      end
    | SFinishing yielded =>
      let '(asm', r) := Assembler.get_iter_end (s_asm s) in
      match r with
      | Ok _ =>
        Some (mkStreaming asm' (s_prod s) SIdle (Nat.pred (s_need s))
                          (s_results s ++ [yielded]))
      | Raise e =>
        Some (mkStreaming asm' (s_prod s) (SRaised e) (s_need s) (s_results s))
      end
    | SRaised _ => None
    end
  | Timeout => None
  end.

Fixpoint stream_run (sched : list action) (s : streaming) : option streaming :=
  match sched with
  | [] => Some s
  | a :: sched' =>
    match stream_exec a s with
    | Some s' => stream_run sched' s'
    | None => None
    end
  end.

Definition stream_stuck (s : streaming) : Prop :=
  forall a, stream_exec a s = None.

Definition stream_raised (s : streaming) : bool :=
  match s_prod s, s_cons s with
  | PRaised _, _ | _, SRaised _ => true
  | _, _ => false
  end.

(** The chunks [ys] are the message [d] in pieces. *)
Definition chunks_of (d : Data) (ys : list Data) : Prop :=
  match d with
  | Str s => join_str ys = Ok s
  | Bytes b => join_bytes ys = Ok b
  end.

Definition queue_length (a : Assembler.t) : nat :=
  match Assembler.chunks_queue a with
  | Some q => length q
  | None => 0%nat
  end.

(** A bound on the number of steps that remain. *)
Definition stream_measure (s : streaming) : nat :=
  (match s_prod s with
   | PIdle todo => 5 * length todo
   | PWaiting todo => 5 * length todo + 2
   | PWoken todo => 5 * length todo + 1
   | PRaised _ => 0
   end
   + 4 * s_need s + queue_length (s_asm s)
   + match s_cons s with
     | SIdle => 3
     | SReading _ | SFinishing _ => 1
     | SRaised _ => 0
     end)%nat.
Arguments stream_measure : simpl never.

(** *** The invariant of the streaming system *)

(** The assembler as it would be if the chunks that went through the
    queue, those already given to the consumer included, had been
    buffered. *)
Definition unstream (yielded : list Data) (a : Assembler.t) : Assembler.t :=
  match Assembler.chunks_queue a with
  | Some q =>
    Assembler.set_chunks_queue None
      (Assembler.set_chunks (yielded ++ omap id q) a)
  | None => a
  end.

(** The queue holds chunks, followed by the end marker once the message
    is complete. *)
Definition queue_ok (a : Assembler.t) (q : list (option Data)) : Prop :=
  q = map Some (omap id q)
        ++ (if Assembler.message_complete a then [None] else []).

Definition yielded_by (c : streamer) : list Data :=
  match c with
  | SReading ys | SFinishing ys => ys
  | _ => []
  end.

Definition streamer_ok (a : Assembler.t) (c : streamer) (need : nat) : Prop :=
  match c with
  | SIdle =>
    Assembler.get_in_progress a = false /\ Assembler.chunks_queue a = None
  | SReading _ =>
    Assembler.get_in_progress a = true /\ Assembler.chunks a = []
    /\ (0 < need)%nat
    /\ exists q, Assembler.chunks_queue a = Some q /\ queue_ok a q
  | SFinishing _ =>
    Assembler.get_in_progress a = true /\ Assembler.chunks a = []
    /\ (0 < need)%nat
    /\ Assembler.chunks_queue a = Some []
    /\ Assembler.message_complete a = true
  | SRaised _ => False
  end.

Definition stream_inv (expected : list Data) (s : streaming) : Prop :=
  exists R E done,
    Forall2 msg_ok R E
    /\ done ++ E = expected
    /\ Forall2 chunks_of done (s_results s)
    /\ s_need s = length E
    /\ phase (unstream (yielded_by (s_cons s)) (s_asm s)) (s_prod s) R E
    /\ streamer_ok (s_asm s) (s_cons s) (s_need s).

(** One interleaving of the two sample messages: the consumer asks for
    the first message before any frame has arrived, and for the second
    when its first frame is buffered. *)
Definition two_messages_stream : list action :=
  [Consume; Produce; Consume; Produce; Produce; Consume; Consume; Consume;
   Consume; Produce; Produce; Produce; Consume; Produce; Consume; Consume;
   Consume; Produce; Produce].

(** The state at the end of that interleaving: the text "hél", cut
    inside "é", arrives as "h" and "él". *)
Definition two_messages_streamed : streaming :=
  mkStreaming Assembler.init (PIdle []) SIdle 0%nat
    [[Bytes [x01; x02]; Bytes [x03]; Bytes [x04; x05]];
     [Str [104]; Str [233; 108]]].

(** * Properties *)

(** ** Bytes *)

Lemma byte_val_range (b : Byte.byte) : 0 <= byte_val b < 256.
Proof.
  unfold byte_val. pose proof (Byte.to_N_bounded b). lia.
Qed.

Lemma byte_val_of_Z (z : Z) : 0 <= z < 256 -> byte_val (byte_of_Z z) = z.
Proof.
  intros Hz. unfold byte_val, byte_of_Z.
  rewrite Z.mod_small by lia.
  destruct (Byte.of_N (Z.to_N z)) as [b|] eqn:E.
  - apply Byte.to_of_N in E. rewrite E. lia.
  - apply Byte.of_N_None_iff in E. lia.
Qed.

Lemma byte_of_Z_val (b : Byte.byte) : byte_of_Z (byte_val b) = b.
Proof.
  unfold byte_of_Z. pose proof (byte_val_range b) as Hr.
  rewrite Z.mod_small by lia. unfold byte_val.
  rewrite N2Z.id, Byte.of_to_N. reflexivity.
Qed.

(** ** UTF-8: encoding then decoding *)

Ltac bool_to_prop :=
  repeat match goal with
  | H : (_ <? _) = true |- _ => apply Z.ltb_lt in H
  | H : (_ <? _) = false |- _ => apply Z.ltb_ge in H
  | H : (_ <=? _) = true |- _ => apply Z.leb_le in H
  | H : (_ <=? _) = false |- _ => apply Z.leb_gt in H
  | H : (_ =? _) = true |- _ => apply Z.eqb_eq in H
  | H : (_ =? _) = false |- _ => apply Z.eqb_neq in H
  | H : (_ && _) = true |- _ => apply andb_true_iff in H; destruct H
  | H : (_ && _) = false |- _ => apply andb_false_iff in H
  | H : (_ || _) = false |- _ => apply orb_false_iff in H; destruct H
  | H : negb _ = true |- _ => apply negb_true_iff in H
  | H : negb _ = false |- _ => apply negb_false_iff in H
  end.

Ltac ztest_true := 
  first [ apply Z.ltb_lt | apply Z.leb_le | apply Z.eqb_eq ].

(** Rewrites a test on integers to the value that [lia] gives it. *)
Ltac decide_tests :=
  repeat match goal with
  | |- context [?a <? ?b] =>
    first [ replace (a <? b) with true by (symmetry; apply Z.ltb_lt; lia)
          | replace (a <? b) with false by (symmetry; apply Z.ltb_ge; lia) ]
  | |- context [?a <=? ?b] =>
    first [ replace (a <=? b) with true by (symmetry; apply Z.leb_le; lia)
          | replace (a <=? b) with false by (symmetry; apply Z.leb_gt; lia) ]
  | |- context [?a =? ?b] =>
    first [ replace (a =? b) with true by (symmetry; apply Z.eqb_eq; lia)
          | replace (a =? b) with false by (symmetry; apply Z.eqb_neq; lia) ]
  end.

Lemma emit_ok c r s rest :
  r = Ok (s, rest) -> emit c r = Ok (c :: s, rest).
Proof. intros ->. reflexivity. Qed.

(** Decoding the encoding of one code point yields it and goes on. *)
Lemma decode_encode_cp (c : Z) (b rest : bytes) (final : bool) :
  encode_cp c = Ok b ->
  utf_8_decode final (b ++ rest) = emit c (utf_8_decode final rest).
Proof.
  unfold encode_cp.
  destruct (c <? 0) eqn:H0; [discriminate|].
  destruct (c <? 128) eqn:H1.
  { intros [= <-]. bool_to_prop. cbn [app utf_8_decode].
    rewrite byte_val_of_Z by lia. decide_tests. reflexivity. }
  destruct (c <? 2048) eqn:H2.
  { intros [= <-]. bool_to_prop. cbn [app utf_8_decode].
    rewrite !byte_val_of_Z by (Z.div_mod_to_equations; lia).
    unfold is_cont.
    assert (Hd : 2 <= c / 64 < 32) by (Z.div_mod_to_equations; lia).
    assert (Hm : 0 <= c mod 64 < 64) by (Z.div_mod_to_equations; lia).
    decide_tests. cbn [andb]. f_equal. Z.div_mod_to_equations; lia. }
  destruct ((55296 <=? c) && (c <=? 57343)) eqn:H3; [discriminate|].
  destruct (c <? 65536) eqn:H4.
  { intros [= <-]. bool_to_prop. cbn [app utf_8_decode].
    assert (Hd : 0 <= c / 4096 < 16) by (Z.div_mod_to_equations; lia).
    assert (Hm1 : 0 <= (c / 64) mod 64 < 64) by (Z.div_mod_to_equations; lia).
    assert (Hm : 0 <= c mod 64 < 64) by (Z.div_mod_to_equations; lia).
    rewrite !byte_val_of_Z by lia.
    assert (Hs : second3 (224 + c / 4096) (128 + (c / 64) mod 64) = true).
    { unfold second3, is_cont.
      destruct (224 + c / 4096 =? 224) eqn:Ha; bool_to_prop.
      - apply andb_true_iff; split; ztest_true;
          Z.div_mod_to_equations; lia.
      - destruct (224 + c / 4096 =? 237) eqn:Hb; bool_to_prop;
          apply andb_true_iff; split; ztest_true;
          Z.div_mod_to_equations; lia. }
    rewrite Hs. unfold is_cont. decide_tests. cbn [andb].
    f_equal. Z.div_mod_to_equations; lia. }
  destruct (c <? 1114112) eqn:H5; [|discriminate].
  intros [= <-]. bool_to_prop. cbn [app utf_8_decode].
  assert (Hd : 0 <= c / 262144 < 5) by (Z.div_mod_to_equations; lia).
  assert (Hm2 : 0 <= (c / 4096) mod 64 < 64) by (Z.div_mod_to_equations; lia).
  assert (Hm1 : 0 <= (c / 64) mod 64 < 64) by (Z.div_mod_to_equations; lia).
  assert (Hm : 0 <= c mod 64 < 64) by (Z.div_mod_to_equations; lia).
  rewrite !byte_val_of_Z by lia.
  assert (Hs : second4 (240 + c / 262144) (128 + (c / 4096) mod 64) = true).
  { unfold second4, is_cont.
    destruct (240 + c / 262144 =? 240) eqn:Ha; bool_to_prop.
    - apply andb_true_iff; split; ztest_true;
        Z.div_mod_to_equations; lia.
    - destruct (240 + c / 262144 =? 244) eqn:Hb; bool_to_prop;
        apply andb_true_iff; split; ztest_true;
        Z.div_mod_to_equations; lia. }
  rewrite Hs. unfold is_cont. decide_tests. cbn [andb].
  f_equal. Z.div_mod_to_equations; lia.
Qed.

Lemma str_encode_decode (s : str) (bs : bytes) :
  str_encode s = Ok bs -> utf_8_decode true bs = Ok (s, []).
Proof.
  revert bs. induction s as [|c s IH]; intros bs.
  - intros [= <-]. reflexivity.
  - cbn [str_encode]. destruct (encode_cp c) as [b|] eqn:Ec; [|discriminate].
    destruct (str_encode s) as [bs'|] eqn:Es; [|discriminate].
    intros [= <-]. rewrite (decode_encode_cp c b bs' true Ec).
    rewrite (IH bs' eq_refl). reflexivity.
Qed.

(** ** UTF-8: decoding in pieces *)

Ltac case_if :=
  match goal with
  | |- context [if ?c then _ else _] => destruct c eqn:?; cbv match
  | |- context [match ?t with [] => _ | _ :: _ => _ end] =>
    is_var t; destruct t; cbn [app]; cbv match
  end.

Lemma utf_8_decode_next (final : bool) (l : bytes) :
  utf_8_decode final l =
  match utf8_next l with
  | StepEnd => Ok ([], [])
  | StepChar c rest => emit c (utf_8_decode final rest)
  | StepIncomplete => incomplete final l
  | StepInvalid => Raise UnicodeDecodeError
  end.
Proof.
  destruct l as [|b0 t]; [reflexivity|]; cbn [utf_8_decode utf8_next];
    repeat case_if; reflexivity.
Qed.

Lemma utf8_next_char_length l c rest :
  utf8_next l = StepChar c rest -> (length rest < length l)%nat.
Proof.
  destruct l as [|b0 t]; cbn [utf8_next];
    repeat case_if; intros [= <- <-] || discriminate; cbn [length]; lia.
Qed.

Lemma utf8_next_char_app l c rest b :
  utf8_next l = StepChar c rest -> utf8_next (l ++ b) = StepChar c (rest ++ b).
Proof.
  destruct l as [|b0 t]; cbn [utf8_next app];
    repeat case_if; intros [= <- <-] || discriminate; reflexivity.
Qed.

Lemma utf8_next_invalid_app l b :
  utf8_next l = StepInvalid -> utf8_next (l ++ b) = StepInvalid.
Proof.
  destruct l as [|b0 t]; cbn [utf8_next app];
    repeat case_if; (reflexivity || discriminate).
Qed.

Lemma utf8_next_end l : utf8_next l = StepEnd -> l = [].
Proof.
  destruct l as [|b0 t]; cbn [utf8_next];
    repeat case_if; (reflexivity || discriminate).
Qed.

(** Decoding [a ++ b] is decoding [a] as a non-final piece and then the
    bytes it left over followed by [b]. *)
Lemma utf_8_decode_app (final : bool) (a b : bytes) :
  utf_8_decode final (a ++ b) =
  '(s, r) ← utf_8_decode false a;
  '(s', r') ← utf_8_decode final (r ++ b);
  Ok (s ++ s', r').
Proof.
  remember (length a) as n eqn:Hn.
  revert a Hn. induction (lt_wf n) as [n _ IH]. intros a ->.
  rewrite (utf_8_decode_next false a).
  destruct (utf8_next a) as [|c rest| |] eqn:Hs.
  - apply utf8_next_end in Hs. subst a. cbn.
    destruct (utf_8_decode final b) as [[s' r']|]; reflexivity.
  - rewrite (utf_8_decode_next final (a ++ b)),
      (utf8_next_char_app _ _ _ b Hs).
    rewrite (IH (length rest) (utf8_next_char_length _ _ _ Hs) rest eq_refl).
    destruct (utf_8_decode false rest) as [[s r]|]; cbn; [|reflexivity].
    destruct (utf_8_decode final (r ++ b)) as [[s' r']|]; reflexivity.
  - cbn. destruct (utf_8_decode final (a ++ b)) as [[s' r']|]; reflexivity.
  - rewrite (utf_8_decode_next final (a ++ b)),
      (utf8_next_invalid_app _ b Hs). reflexivity.
Qed.

(** A final decode consumes everything. *)
Lemma utf_8_decode_final_rest (l : bytes) s r :
  utf_8_decode true l = Ok (s, r) -> r = [].
Proof.
  remember (length l) as n eqn:Hn.
  revert l s r Hn. induction (lt_wf n) as [n _ IH]. intros l s r ->.
  rewrite utf_8_decode_next.
  destruct (utf8_next l) as [|c rest| |] eqn:Hs; cbn; try discriminate.
  - intros [= <- <-]. reflexivity.
  - destruct (utf_8_decode true rest) as [[s' r']|] eqn:Hd; cbn; [|discriminate].
    intros [= <- <-].
    exact (IH _ (utf8_next_char_length _ _ _ Hs) rest s' r' eq_refl Hd).
Qed.

(** ** Close payload *)

Lemma be_uint_pack_H (n : Z) :
  0 <= n < 65536 -> be_uint [byte_of_Z (n / 256); byte_of_Z (n mod 256)] = n.
Proof.
  intros Hn. unfold be_uint. cbn [fold_left].
  rewrite !byte_val_of_Z by (Z.div_mod_to_equations; lia).
  Z.div_mod_to_equations; lia.
Qed.

Lemma Close_check_valid (c : Z) (r : str) :
  1000 <= c <= 4999 -> c <> 1005 -> c <> 1006 -> c <> 1015 ->
  frames.Close_check (frames.mkClose c r) = Ok ().
Proof.
  intros Hc H5 H6 H15. unfold frames.Close_check. cbn [frames.code].
  decide_tests. reflexivity.
Qed.

(** C2. Serializing a close payload and parsing it back is the identity:
    for every close code in 1000..=4999 other than 1005, 1006 and 1015 and
    every reason whose UTF-8 encoding has at most 123 bytes,
    [serialize_close] succeeds and [parse_close] of its result returns the
    code and the reason. *)
Theorem parse_close_serialize_close (c : Z) (r : str) (enc : bytes) :
  1000 <= c <= 4999 -> c <> 1005 -> c <> 1006 -> c <> 1015 ->
  str_encode r = Ok enc -> (length enc <= 123)%nat ->
  exists payload,
    serialize_close c r = Ok payload /\ parse_close payload = Ok (c, r).
Proof.
  intros Hc H5 H6 H15 Henc Hlen.
  exists ([byte_of_Z (c / 256); byte_of_Z (c mod 256)] ++ enc). split.
  - unfold serialize_close, frames.Close_serialize.
    rewrite Close_check_valid by assumption. cbn [frames.reason frames.code].
    rewrite Henc. cbn. unfold pack_H.
    replace (123 <? Z.of_nat (length enc)) with false
      by (symmetry; apply Z.ltb_ge; lia).
    decide_tests. reflexivity.
  - unfold parse_close. cbn [app frames.Close_parse].
    unfold unpack_H. cbn [sized length Nat.eqb].
    change (d ← Ok ?x; Ok (be_uint d)) with (Ok (be_uint x)).
    rewrite be_uint_pack_H by lia.
    unfold bytes_decode. rewrite (str_encode_decode r enc Henc).
    cbn. rewrite Close_check_valid by assumption. reflexivity.
Qed.

Lemma parse_close_serialize_close_witness :
  exists payload,
    serialize_close 1000 [104; 233; 108; 108; 111] = Ok payload
    /\ parse_close payload = Ok (1000, [104; 233; 108; 108; 111]).
Proof.
  apply (parse_close_serialize_close 1000 [104; 233; 108; 108; 111]
           (map byte_of_Z [104; 195; 169; 108; 108; 111]));
    [lia | lia | lia | lia | reflexivity | simpl; lia].
Defined.

(** ** Reading a frame *)

Lemma reader_app (a rest : bytes) :
  reader (Z.of_nat (length a)) (a ++ rest) = Ok (a, rest).
Proof.
  unfold reader. rewrite length_app, Nat2Z.id.
  replace ((0 <=? Z.of_nat (length a))
           && (Z.of_nat (length a) <=? Z.of_nat (length a + length rest)))
    with true by (symmetry; apply andb_true_iff; split; apply Z.leb_le; lia).
  rewrite take_app_length, drop_app_length. reflexivity.
Qed.

Lemma reader_short (n : Z) (stream : bytes) :
  Z.of_nat (length stream) < n -> reader n stream = Raise IncompleteReadError.
Proof.
  intros Hn. unfold reader.
  replace (n <=? Z.of_nat (length stream)) with false
    by (symmetry; apply Z.leb_gt; lia).
  rewrite andb_false_r. reflexivity.
Qed.

Lemma reader_ok (n : Z) (stream a rest : bytes) :
  reader n stream = Ok (a, rest) ->
  stream = a ++ rest /\ Z.of_nat (length a) = n.
Proof.
  unfold reader.
  destruct ((0 <=? n) && (n <=? Z.of_nat (length stream))) eqn:Hn;
    [|discriminate].
  bool_to_prop. intros [= <- <-]. rewrite take_drop, length_take.
  split; [reflexivity|lia].
Qed.

Lemma reader_raise (n : Z) (stream : bytes) (e : exn) :
  reader n stream = Raise e -> e = IncompleteReadError.
Proof.
  unfold reader. destruct ((0 <=? n) && (n <=? Z.of_nat (length stream)));
    [discriminate|]. intros [= <-]. reflexivity.
Qed.

Lemma be_uint_from_range (l : bytes) (acc : Z) :
  0 <= acc ->
  acc * 256 ^ Z.of_nat (length l)
  <= fold_left (fun acc b => acc * 256 + byte_val b) l acc
  < (acc + 1) * 256 ^ Z.of_nat (length l).
Proof.
  revert acc. induction l as [|b l IH]; intros acc Hacc.
  - cbn. lia.
  - cbn [fold_left length]. pose proof (byte_val_range b) as Hb.
    specialize (IH (acc * 256 + byte_val b) ltac:(lia)).
    rewrite Nat2Z.inj_succ, Z.pow_succ_r by lia.
    nia.
Qed.

Lemma be_uint_range (l : bytes) : 0 <= be_uint l < 256 ^ Z.of_nat (length l).
Proof.
  pose proof (be_uint_from_range l 0 ltac:(lia)) as H. unfold be_uint. lia.
Qed.

(** With a 7-bit length of 127 the length is the next eight bytes, read
    as one big-endian integer. *)
Lemma read_length_127 (head2 : Z) (l8 rest : bytes) :
  Z.land head2 0x7F = 127 -> length l8 = 8%nat ->
  Frame.read_length head2 (l8 ++ rest) = Ok (be_uint l8, rest).
Proof.
  intros H127 Hl. unfold Frame.read_length. rewrite H127.
  change (127 =? 126) with false. change (127 =? 127) with true. cbv match.
  change 8 with (Z.of_nat 8). rewrite <- Hl, reader_app. cbn.
  unfold unpack_Q, sized. rewrite Hl. reflexivity.
Qed.

(** The header of a frame whose 7-bit length is 127, up to the test of
    [max_size]. *)
Lemma read_wire_127 (mask : bool) (max_size : option Z)
    (b0 b1 : Byte.byte) (l8 rest : bytes) (op : frames.Opcode) :
  frames.Opcode_of (Z.land (byte_val b0) 0x0F) = Ok op ->
  truthy (Z.land (byte_val b1) 0x80) = mask ->
  Z.land (byte_val b1) 0x7F = 127 ->
  length l8 = 8%nat ->
  Frame.read_wire mask max_size (b0 :: b1 :: l8 ++ rest) =
  let length := be_uint l8 in
  if match max_size with Some m => m <? length | None => false end
  then Raise (PayloadTooBig length (default 0 max_size))
  else
    '(mask_bits, stream) ← (if mask then reader 4 rest else Ok ([], rest));
    '(data, stream) ← reader length stream;
    data ← (if mask then apply_mask data mask_bits else Ok data);
    Ok (frames.mkFrame op data
          (truthy (Z.land (byte_val b0) 0x80))
          (truthy (Z.land (byte_val b0) 0x40))
          (truthy (Z.land (byte_val b0) 0x20))
          (truthy (Z.land (byte_val b0) 0x10)), stream).
Proof.
  intros Hop Hmask H127 Hl. unfold Frame.read_wire.
  change (b0 :: b1 :: l8 ++ rest) with ([b0; b1] ++ (l8 ++ rest)).
  change 2 with (Z.of_nat (length [b0; b1])). rewrite reader_app.
  cbn [mbind res_bind bind unpack_BB]. rewrite Hop. cbn [bind].
  rewrite Hmask, eqb_reflx. cbn [negb].
  rewrite (read_length_127 _ _ _ H127 Hl). reflexivity.
Qed.

(** A stream that declares a payload of 2^63 bytes: a final binary frame,
    unmasked, 7-bit length 127, then the eight bytes 80 00 00 00 00 00 00 00. *)
Example msb_stream_length :
  Z.land (byte_val x7f) 0x7F = 127
  /\ be_uint [x80; x00; x00; x00; x00; x00; x00; x00] = 2 ^ 63.
Proof. split; reflexivity. Qed.

(** C3, as stated, fails: a 64-bit length with its most significant bit
    set is not answered with a protocol error.  With [max_size = 1024]
    the frame is refused as too big; without [max_size] the payload is
    requested from the reader, which runs out of stream. *)
Lemma read_msb_length_not_protocol_error :
  let stream := [x82; x7f; x80; x00; x00; x00; x00; x00; x00; x00] in
  Frame.read false (Some 1024) None stream = Raise (PayloadTooBig (2 ^ 63) 1024)
  /\ Frame.read false None None stream = Raise IncompleteReadError
  /\ (forall max_size msg,
        Frame.read false max_size None stream <> Raise (ProtocolError msg)).
Proof.
  cbv zeta. split; [reflexivity|]. split; [reflexivity|].
  intros [m|] msg.
  - unfold Frame.read.
    pose proof (read_wire_127 false (Some m) x82 x7f
                  [x80; x00; x00; x00; x00; x00; x00; x00] [] frames.BINARY
                  eq_refl eq_refl eq_refl eq_refl) as Hw.
    cbn [app] in Hw. rewrite Hw. clear Hw.
    cbv zeta. change (be_uint _) with (2 ^ 63). cbn [default].
    destruct (m <? 2 ^ 63); [discriminate|].
    cbn [mbind res_bind bind].
    rewrite (reader_short (2 ^ 63) []) by (cbn; lia). discriminate.
  - discriminate.
Qed.

(** C3, amended.  With a 7-bit length of 127 the next eight bytes are the
    length, a big-endian unsigned 64-bit integer, whatever its most
    significant bit.  Such a length is then treated like any other: the
    frame is refused with [PayloadTooBig] when [max_size] is set and
    smaller, and otherwise the payload is requested from the reader, so
    reading fails with the reader's error when the stream is shorter. *)
Theorem read_length_127_unsigned (mask : bool) (max_size : option Z)
    (exts : option (list Extension))
    (b0 b1 : Byte.byte) (l8 rest : bytes) (op : frames.Opcode) :
  frames.Opcode_of (Z.land (byte_val b0) 0x0F) = Ok op ->
  truthy (Z.land (byte_val b1) 0x80) = mask ->
  Z.land (byte_val b1) 0x7F = 127 ->
  length l8 = 8%nat ->
  let stream := b0 :: b1 :: l8 ++ rest in
  let len := be_uint l8 in
  Frame.read_length (byte_val b1) (l8 ++ rest) = Ok (len, rest)
  /\ 0 <= len < 2 ^ 64
  /\ (forall m, max_size = Some m -> m < len ->
      Frame.read mask max_size exts stream = Raise (PayloadTooBig len m))
  /\ ((max_size = None \/ exists m, max_size = Some m /\ len <= m) ->
      Z.of_nat (length rest) < len + (if mask then 4 else 0) ->
      Frame.read mask max_size exts stream = Raise IncompleteReadError).
Proof.
  intros Hop Hmask H127 Hl stream len.
  split; [exact (read_length_127 _ _ _ H127 Hl)|].
  split.
  { pose proof (be_uint_range l8) as Hr. rewrite Hl in Hr.
    change (256 ^ Z.of_nat 8) with (2 ^ 64) in Hr. exact Hr. }
  split.
  - intros m -> Hm. unfold Frame.read, stream.
    rewrite (read_wire_127 mask (Some m) b0 b1 l8 rest op Hop Hmask H127 Hl).
    cbv zeta. fold len.
    replace (m <? len) with true by (symmetry; apply Z.ltb_lt; lia).
    reflexivity.
  - intros Hmax Hshort. unfold Frame.read, stream.
    rewrite (read_wire_127 mask max_size b0 b1 l8 rest op Hop Hmask H127 Hl).
    cbv zeta. fold len.
    replace (match max_size with Some m => m <? len | None => false end)
      with false.
    2:{ destruct Hmax as [->|(m & -> & Hm)]; [reflexivity|].
        symmetry; apply Z.ltb_ge; lia. }
    destruct mask.
    + destruct (reader 4 rest) as [[mask_bits rest']|e] eqn:H4;
        cbn [mbind res_bind bind].
      * apply reader_ok in H4 as [-> H4]. rewrite length_app in Hshort.
        rewrite reader_short by lia. reflexivity.
      * apply reader_raise in H4 as ->. reflexivity.
    + cbn [mbind res_bind bind]. rewrite reader_short by lia. reflexivity.
Qed.

Lemma read_length_127_unsigned_witness :
  let l8 := [x80; x00; x00; x00; x00; x00; x00; x00] in
  let stream := x82 :: x7f :: l8 ++ [] in
  let len := be_uint l8 in
  Frame.read_length (byte_val x7f) (l8 ++ []) = Ok (len, [])
  /\ 0 <= len < 2 ^ 64
  /\ (forall m, Some 1024 = Some m -> m < len ->
      Frame.read false (Some 1024) None stream = Raise (PayloadTooBig len m))
  /\ ((Some 1024 = None \/ exists m, Some 1024 = Some m /\ len <= m) ->
      Z.of_nat (length (@nil Byte.byte)) < len + 0 ->
      Frame.read false (Some 1024) None stream = Raise IncompleteReadError).
Proof.
  apply (read_length_127_unsigned false (Some 1024) None x82 x7f
           [x80; x00; x00; x00; x00; x00; x00; x00] [] frames.BINARY);
    reflexivity.
Defined.

(** ** Extensions *)

Lemma decode_loop_app (a b : list Extension) max_size f :
  Frame.decode_loop (a ++ b) max_size f =
  f' ← Frame.decode_loop a max_size f; Frame.decode_loop b max_size f'.
Proof.
  revert f. induction a as [|e a IH]; intros f; [reflexivity|].
  cbn [app Frame.decode_loop].
  destruct (decode e f max_size) as [f'|]; cbn; [apply IH|reflexivity].
Qed.

Lemma decode_loop_rev (exts : list Extension) max_size f :
  Frame.decode_loop (rev exts) max_size f = decode_nested exts max_size f.
Proof.
  induction exts as [|e exts IH]; [reflexivity|].
  cbn [rev]. rewrite decode_loop_app, IH. cbn [decode_nested fold_right].
  fold (decode_nested exts max_size f).
  destruct (decode_nested exts max_size f) as [f'|]; cbn; [|reflexivity].
  destruct (decode e f' max_size); reflexivity.
Qed.

Lemma decode_nested_last (exts : list Extension) (last : Extension) max_size f :
  decode_nested (exts ++ [last]) max_size f =
  f' ← decode last f max_size; decode_nested exts max_size f'.
Proof.
  rewrite <- !decode_loop_rev, rev_app_distr. cbn [rev app Frame.decode_loop].
  destruct (decode last f max_size) as [f'|]; cbn; [|reflexivity].
  rewrite decode_loop_rev. reflexivity.
Qed.


(** The order is observable: with [prepend 01] negotiated before
    [prepend 02], the payload [ff] comes out as [01 02 ff]. *)
Example read_order_observable :
  Frame.read false None (Some [prepend_byte x01; prepend_byte x02])
    [x82; x01; xff]
  = Ok (Frame.mk true frames.BINARY [x01; x02; xff] false false false, []).
Proof. reflexivity. Qed.

(** Validation comes last: a frame with [rsv1] set on the wire is accepted
    when an extension clears the bit, and refused without it. *)
Example read_checks_after_decode :
  Frame.read false None (Some [clear_rsv1]) [xc2; x01; xff]
  = Ok (Frame.mk true frames.BINARY [xff] false false false, [])
  /\ Frame.read false None None [xc2; x01; xff]
     = Raise (ProtocolError "reserved bits must be 0").
Proof. split; reflexivity. Qed.

(** ** Messages *)

Lemma conts_then_fin_last (b : bool) (post : list frames.Frame) :
  conts_then_fin b post = true -> if b then post = [] else post <> [].
Proof.
  destruct post as [|f post]; cbn [conts_then_fin].
  - intros ->. reflexivity.
  - destruct b; cbn; [discriminate|]. intros _. discriminate.
Qed.

Lemma conts_then_fin_app (b : bool) (pre post : list frames.Frame)
    (f : frames.Frame) :
  conts_then_fin b (pre ++ f :: post) = true ->
  frames.opcode f = frames.CONT /\ conts_then_fin (frames.fin f) post = true.
Proof.
  revert b. induction pre as [|g pre IH]; intros b; cbn [app conts_then_fin].
  - intros H. apply andb_true_iff in H as [H H2].
    apply andb_true_iff in H as [_ H1]. apply bool_decide_eq_true in H1.
    split; assumption.
  - intros H. apply andb_true_iff in H as [_ H]. exact (IH _ H).
Qed.

(** The frame [f] inside a complete message: it starts the message or
    continues it, and it has [fin] set exactly when it is the last one. *)
Lemma complete_message_frame (pre post : list frames.Frame) (f : frames.Frame) :
  complete_message (pre ++ f :: post) = true ->
  match pre with
  | [] => frames.opcode f = frames.TEXT \/ frames.opcode f = frames.BINARY
  | first :: _ =>
    (frames.opcode first = frames.TEXT \/ frames.opcode first = frames.BINARY)
    /\ frames.opcode f = frames.CONT
  end
  /\ (if frames.fin f then post = [] else post <> []).
Proof.
  destruct pre as [|first pre]; cbn [app complete_message]; intros H;
    apply andb_true_iff in H as [Hk Hc];
    apply orb_true_iff in Hk;
    rewrite !bool_decide_eq_true in Hk.
  - split; [exact Hk|]. exact (conts_then_fin_last _ _ Hc).
  - apply conts_then_fin_app in Hc as [Hop Hc].
    split; [split; assumption|]. exact (conts_then_fin_last _ _ Hc).
Qed.

Lemma payload_app (a b : list frames.Frame) :
  payload (a ++ b) = payload a ++ payload b.
Proof. unfold payload. rewrite map_app, concat_app. reflexivity. Qed.

Lemma payload_cons (f : frames.Frame) (m : list frames.Frame) :
  payload (f :: m) = frames.data f ++ payload m.
Proof. reflexivity. Qed.

Lemma join_str_map (ss : list str) : join_str (map Str ss) = Ok (concat ss).
Proof.
  induction ss as [|s ss IH]; [reflexivity|].
  cbn [map join_str]. rewrite IH. reflexivity.
Qed.

Lemma join_bytes_map (m : list frames.Frame) :
  join_bytes (map (fun f => Bytes (frames.data f)) m) = Ok (payload m).
Proof.
  induction m as [|f m IH]; [reflexivity|].
  cbn [map join_bytes]. rewrite IH. reflexivity.
Qed.

Lemma concat_snoc {A} (ls : list (list A)) (l : list A) :
  concat (ls ++ [l]) = concat ls ++ l.
Proof. rewrite concat_app. cbn. rewrite app_nil_r. reflexivity. Qed.

(** ** Text arrives in pieces

    [P] is the payload received so far, decoded to the chunks [ss] with
    [buffer] left over; [data] is the next payload.  When the whole
    message is valid UTF-8 the decoder accepts [data], and the chunks
    still add up to the text decoded so far, or to the whole text after
    the final piece. *)
Lemma text_piece (P data Q : bytes) (ss : list str) (buffer : bytes)
    (final : bool) (sd : str) (r : bytes) :
  utf_8_decode false P = Ok (concat ss, buffer) ->
  utf_8_decode true (P ++ data ++ Q) = Ok (sd, r) ->
  (if final then Q = [] else True) ->
  exists s' buffer',
    UTF8Decoder_decode buffer data final = Ok (s', buffer')
    /\ if final then sd = concat (ss ++ [s'])
       else utf_8_decode false (P ++ data) = Ok (concat (ss ++ [s']), buffer').
Proof.
  intros HP Hall HQ. unfold UTF8Decoder_decode. destruct final.
  - subst Q. rewrite app_nil_r, utf_8_decode_app, HP in Hall. cbn in Hall.
    destruct (utf_8_decode true (buffer ++ data)) as [[s' r']|]; [|discriminate].
    cbn in Hall. injection Hall as <- <-. exists s', r'. unfold str in *. rewrite concat_snoc. auto.
  - rewrite app_assoc, utf_8_decode_app in Hall.
    destruct (utf_8_decode false (P ++ data)) as [[s1 r1]|] eqn:E1;
      [|discriminate].
    rewrite utf_8_decode_app, HP in E1. cbn in E1.
    destruct (utf_8_decode false (buffer ++ data)) as [[s' r']|]; [|discriminate].
    cbn in E1. injection E1 as <- <-. exists s', r'. unfold str in *. rewrite concat_snoc. auto.
Qed.

(** ** The blocks of [put] and [get] *)

Lemma put_begin_frame (a : Assembler.t) (pre post : list frames.Frame)
    (f : frames.Frame) (d : Data) :
  latch a false false false ->
  buffered pre (Assembler.decoder a) (Assembler.chunks a) ->
  msg_ok (pre ++ f :: post) d ->
  exists dec' chunks',
    Assembler.put_begin f a =
      (Assembler.mk (frames.fin f) false (Assembler.get_in_progress a)
                    (frames.fin f) dec' chunks' None false,
       Ok (if frames.fin f then Assembler.PutWaiting else Assembler.PutReturned))
    /\ if frames.fin f then post = [] /\ joined dec' chunks' = Ok d
       else post <> [] /\ buffered (pre ++ [f]) dec' chunks'.
Proof.
  destruct a as [mc mf gip pip dec chunks q cl].
  unfold latch. cbn. intros (-> & -> & -> & -> & ->) Hbuf [Hc Hd].
  pose proof (complete_message_frame _ _ _ Hc) as [Hop Hfin].
  destruct pre as [|first pre].
  - (* the first frame of the message *)
    destruct Hbuf as [-> ->]. cbn [app] in *.
    unfold Assembler.put_begin. cbn.
    destruct Hop as [Hop|Hop]; rewrite Hop in *; cbn.
    + (* TEXT *)
      unfold message_data in Hd. rewrite Hop in Hd. unfold bytes_decode in Hd.
      destruct (utf_8_decode true (payload (f :: post))) as [[sd r]|] eqn:Hall;
        [|discriminate].
      cbn in Hd. injection Hd as <-.
      rewrite payload_cons in Hall.
      destruct (text_piece [] (frames.data f) (payload post) [] []
                  (frames.fin f) sd r eq_refl Hall) as (s' & b' & Hdec & Hs).
      { destruct (frames.fin f); [subst post; reflexivity|exact I]. }
      unfold Assembler.put_data. cbn. unfold UTF8Decoder_new. rewrite Hdec.
      unfold Assembler.put_chunk. cbn.
      destruct (frames.fin f); cbn.
      * eexists _, _. split; [reflexivity|]. split; [assumption|].
        subst sd. cbn. rewrite app_nil_r. reflexivity.
      * eexists _, _. split; [reflexivity|]. split; [assumption|].
        cbn. exists [s'], b'. cbn in Hs.
        rewrite !app_nil_r in *. cbn. rewrite app_nil_r. auto.
    + (* BINARY *)
      unfold message_data in Hd. rewrite Hop in Hd. injection Hd as <-.
      unfold Assembler.put_data, Assembler.put_chunk. cbn.
      destruct (frames.fin f); cbn.
      * subst post. eexists _, _. split; [reflexivity|].
        split; [reflexivity|]. unfold payload. cbn. reflexivity.
      * eexists _, _. split; [reflexivity|]. split; [assumption|].
        cbn. auto.
  - (* a continuation frame *)
    destruct Hop as [Hfirst Hop]. cbn [app] in *.
    unfold Assembler.put_begin. cbn. rewrite Hop.
    unfold buffered in Hbuf. unfold message_data in Hd.
    destruct Hfirst as [Hfirst|Hfirst]; rewrite Hfirst in *.
    + (* TEXT *)
      destruct Hbuf as (ss & buffer & -> & -> & HP).
      unfold bytes_decode in Hd.
      destruct (utf_8_decode true (payload (first :: pre ++ f :: post)))
        as [[sd r]|] eqn:Hall; [|discriminate].
      cbn in Hd. injection Hd as <-.
      change (first :: pre ++ f :: post) with ((first :: pre) ++ f :: post) in Hall.
      rewrite payload_app, payload_cons in Hall.
      destruct (text_piece _ (frames.data f) (payload post) ss buffer
                  (frames.fin f) sd r HP Hall) as (s' & b' & Hdec & Hs).
      { destruct (frames.fin f); [subst post; reflexivity|exact I]. }
      unfold Assembler.put_data. cbn. rewrite Hdec.
      unfold Assembler.put_chunk. cbn.
      destruct (frames.fin f); cbn.
      * eexists _, _. split; [reflexivity|]. split; [assumption|].
        subst sd. cbn.
        change (map Str ss ++ [Str s']) with (map Str ss ++ map Str [s']).
        rewrite <- map_app, join_str_map. reflexivity.
      * eexists _, _. split; [reflexivity|]. split; [assumption|].
        cbn. rewrite ?Hfirst. exists (ss ++ [s']), b'.
        split; [reflexivity|]. split; [symmetry; apply map_app|].
        rewrite map_app, concat_app. cbn. rewrite app_nil_r, app_assoc.
        exact Hs.
    + (* BINARY *)
      destruct Hbuf as [-> ->]. injection Hd as <-.
      unfold Assembler.put_data, Assembler.put_chunk. cbn.
      destruct (frames.fin f); cbn.
      * subst post. eexists _, _. split; [reflexivity|].
        split; [reflexivity|]. cbn.
        change [Bytes (frames.data f)]
          with (map (fun f0 => Bytes (frames.data f0)) [f]).
        rewrite <- map_app, join_bytes_map. reflexivity.
      * eexists _, _. split; [reflexivity|]. split; [assumption|].
        cbn. rewrite ?Hfirst. split; [reflexivity|].
        rewrite map_app. reflexivity.
Qed.

Lemma get_end_complete (a : Assembler.t) (putting : bool) (d : Data) :
  latch a true false putting ->
  joined (Assembler.decoder a) (Assembler.chunks a) = Ok d ->
  Assembler.get_end true a =
    (Assembler.mk false true false putting (Assembler.decoder a) [] None false,
     Ok (Some d)).
Proof.
  destruct a as [mc mf gip pip dec chunks q cl].
  unfold latch, joined. cbn. intros (-> & -> & -> & -> & ->) Hj.
  unfold Assembler.get_end. cbn. rewrite Hj. reflexivity.
Qed.

Lemma get_end_timed_out (a : Assembler.t) :
  Assembler.get_end false a = (Assembler.set_get_in_progress false a, Ok None).
Proof. reflexivity. Qed.

Lemma put_end_fetched (a : Assembler.t) :
  latch a false true true ->
  Assembler.put_end a =
    (Assembler.mk false false (Assembler.get_in_progress a) false None
                  (Assembler.chunks a) None false,
     Ok ()).
Proof.
  destruct a as [mc mf gip pip dec chunks q cl].
  unfold latch. cbn. intros (-> & -> & -> & -> & ->). reflexivity.
Qed.

(** ** The invariant holds along every run *)

Lemma phase_latch a p R E :
  phase a p R E -> Assembler.closed a = false /\ Assembler.chunks_queue a = None.
Proof. intros []; unfold latch in *; tauto. Qed.

Lemma phase_get_in_progress a p R E (v : bool) :
  phase a p R E -> phase (Assembler.set_get_in_progress v a) p R E.
Proof.
  destruct a as [mc mf gip pip dec chunks q cl].
  intros []; [apply phase_done | apply phase_buffering | apply phase_complete
             | apply phase_fetched | apply phase_woken]; assumption.
Qed.

Lemma msg_ok_nonempty m d : msg_ok m d -> m <> [].
Proof. intros [H _] ->. discriminate. Qed.

Lemma phase_start a R E :
  latch a false false false ->
  Assembler.decoder a = None -> Assembler.chunks a = [] ->
  Forall2 msg_ok R E ->
  phase a (PIdle (concat R)) R E.
Proof.
  intros Hl Hd Hc HF. destruct HF as [|m d R E Hm HF].
  - apply phase_done; [assumption|]. split; assumption.
  - apply (phase_buffering a [] m R (d :: E)); [assumption| |split; assumption].
    exact (msg_ok_nonempty _ _ Hm).
Qed.

Lemma omap_id_snoc_some (rs : list (option Data)) (d : Data) :
  omap id (rs ++ [Some d]) = omap id rs ++ [d].
Proof. rewrite omap_app. reflexivity. Qed.

Lemma omap_id_snoc_none (rs : list (option Data)) :
  omap id (rs ++ [None]) = omap id rs.
Proof. rewrite omap_app. cbn. apply app_nil_r. Qed.

Lemma count_none_snoc_some (rs : list (option Data)) (d : Data) :
  count_none (rs ++ [Some d]) = count_none rs.
Proof.
  unfold count_none. rewrite filter_app, length_app.
  rewrite filter_cons_False by discriminate. cbn. lia.
Qed.

Lemma count_none_snoc_none (rs : list (option Data)) :
  count_none (rs ++ [None]) = S (count_none rs).
Proof.
  unfold count_none. rewrite filter_app, length_app.
  rewrite filter_cons_True by reflexivity. cbn. lia.
Qed.

Ltac sys_simpl :=
  unfold exec in *;
  cbn [asm prod cons need timeouts results app
       Assembler.message_complete Assembler.message_fetched
       Assembler.get_in_progress Assembler.put_in_progress
       Assembler.decoder Assembler.chunks Assembler.chunks_queue
       Assembler.closed Assembler.set_get_in_progress] in *.

Ltac measure_lia :=
  unfold measure; cbn [prod cons need timeouts length app];
  rewrite ?length_app; cbn [length]; lia.

Lemma inv_produce T expected s s' :
  inv T expected s -> exec Produce s = Some s' ->
  inv T expected s' /\ (measure s' < measure s)%nat.
Proof.
  destruct s as [a p c n t rs].
  intros (R & E & HF & Hres & Hneed & Hph & Hc & Hn). sys_simpl.
  inversion Hph as [Hl Hb | pre post R0 E0 Hl Hpost Hb | m R0 d E0 Hl Hj
                   | R0 E0 Hl Hch | R0 E0 Hl Hch]; subst; sys_simpl.
  - discriminate.
  - destruct post as [|f post]; [congruence|]. cbn [app].
    inversion HF as [|m d R1 E1 Hm HF']; subst.
    destruct (put_begin_frame a pre post f d Hl Hb Hm)
      as (dec' & chunks' & Hput & Hcase).
    rewrite Hput. intros [= <-].
    destruct (frames.fin f) eqn:Hfin.
    + destruct Hcase as [-> Hj]. cbn [app]. split.
      * exists ((pre ++ [f]) :: R0), (d :: E1). sys_simpl.
        repeat split; try assumption.
        -- apply (phase_complete _ (pre ++ [f]) R0 d E1); [|exact Hj].
           unfold latch; cbn; tauto.
        -- destruct Hl as (Hmc & _). destruct c as [| |[]|]; cbn in *;
             try tauto; try congruence.
      * measure_lia.
    + destruct Hcase as [Hpost' Hb']. split.
      * exists (((pre ++ [f]) ++ post) :: R0), (d :: E1). sys_simpl.
        repeat split; try assumption.
        -- rewrite <- app_assoc. exact HF.
        -- apply (phase_buffering _ (pre ++ [f]) post R0 (d :: E1));
             [unfold latch; cbn; destruct Hl; tauto | assumption | assumption].
        -- destruct Hl as (Hmc & _). destruct c as [| |[]|]; cbn in *;
             try tauto; try congruence.
      * measure_lia.
  - destruct Hl as (_ & -> & _). discriminate.
  - destruct Hl as (Hmc & Hmf & Hl). rewrite Hmf. intros [= <-]. split.
    + exists R, E. sys_simpl. repeat split; try assumption.
      apply phase_woken; [unfold latch; tauto | assumption].
    + measure_lia.
  - rewrite (put_end_fetched a Hl). intros [= <-]. split.
    + exists R, E. sys_simpl. repeat split; try assumption.
      * apply phase_start; [unfold latch; cbn; tauto| reflexivity | assumption
                           | assumption].
      * destruct Hl as (Hmc & _). destruct c as [| |[]|]; cbn in *;
          try tauto; try congruence.
    + measure_lia.
Qed.

Lemma inv_consume T expected s s' :
  inv T expected s -> exec Consume s = Some s' ->
  inv T expected s' /\ (measure s' < measure s)%nat.
Proof.
  destruct s as [a p c n t rs].
  intros (R & E & HF & Hres & Hneed & Hph & Hc & Hn). sys_simpl.
  pose proof (phase_latch _ _ _ _ Hph) as [Hcl Hq].
  destruct c as [| |[]|e]; cbn [cons_ok pending_none] in *.
  - (* a new call of [get] *)
    destruct n as [|n]; [discriminate|].
    unfold Assembler.get_begin. rewrite Hcl, Hc. intros [= <-]. split.
    + exists R, E. sys_simpl. repeat split; try assumption.
      * apply phase_get_in_progress. exact Hph.
      * lia.
    + measure_lia.
  - (* the wait returns because the event is set *)
    destruct (Assembler.message_complete a) eqn:Hmc; [|discriminate].
    intros [= <-]. split.
    + exists R, E. sys_simpl. cbn [cons_ok pending_none].
      repeat split; try tauto. 
    + measure_lia.
  - (* the message is fetched *)
    destruct Hc as [Hgip Hmc].
    inversion Hph as [Hl Hb | pre post R0 E0 Hl Hpost Hb | m R0 d E0 Hl Hj
                     | R0 E0 Hl Hch | R0 E0 Hl Hch]; subst;
      try (destruct Hl as (Hl & _); congruence).
    rewrite (get_end_complete a true d Hl Hj). intros [= <-].
    inversion HF as [|m' d' R1 E1 Hm HF']; subst. split.
    + exists R0, E0. sys_simpl. cbn [cons_ok pending_none].
      rewrite omap_id_snoc_some, count_none_snoc_some, <- app_assoc.
      repeat split; try assumption.
      apply phase_fetched; [unfold latch; cbn; tauto | reflexivity].
    + measure_lia.
  - (* the call timed out *)
    rewrite get_end_timed_out. intros [= <-]. split.
    + exists R, E. sys_simpl. cbn [cons_ok pending_none].
      rewrite omap_id_snoc_none, count_none_snoc_none.
      repeat split; try assumption.
      * apply phase_get_in_progress. exact Hph.
      * lia.
    + measure_lia.
  - destruct Hc.
Qed.

Lemma inv_timeout T expected s s' :
  inv T expected s -> exec Timeout s = Some s' ->
  inv T expected s' /\ (measure s' < measure s)%nat.
Proof.
  destruct s as [a p c n t rs].
  intros (R & E & HF & Hres & Hneed & Hph & Hc & Hn). sys_simpl.
  destruct c as [| |[]|e]; try discriminate.
  destruct t as [|t]; [discriminate|]. intros [= <-]. split.
  - exists R, E. sys_simpl. cbn [cons_ok pending_none] in *.
    repeat split; try tauto. lia.
  - measure_lia.
Qed.

Lemma inv_exec T expected a s s' :
  inv T expected s -> exec a s = Some s' ->
  inv T expected s' /\ (measure s' < measure s)%nat.
Proof.
  destruct a; [apply inv_produce | apply inv_consume | apply inv_timeout].
Qed.

Lemma inv_start (msgs : list (list frames.Frame)) (expected : list Data) T :
  Forall2 msg_ok msgs expected ->
  inv T expected (start (concat msgs) (length msgs) T).
Proof.
  intros HF. exists msgs, expected. unfold start. sys_simpl.
  split; [exact HF|]. split; [reflexivity|].
  split; [exact (Forall2_length _ _ _ HF)|].
  split; [|split; [reflexivity|cbn; lia]].
  apply phase_start; [unfold latch; cbn; tauto|reflexivity|reflexivity|exact HF].
Qed.

Lemma inv_run T expected sched : forall s s',
  inv T expected s -> run sched s = Some s' ->
  inv T expected s' /\ (length sched + measure s' <= measure s)%nat.
Proof.
  induction sched as [|a sched IH]; intros s s' Hinv; cbn [run length].
  - intros [= <-]. split; [assumption|lia].
  - destruct (exec a s) as [s1|] eqn:Hex; [|discriminate]. intros Hrun.
    destruct (inv_exec _ _ _ _ _ Hinv Hex) as [Hinv1 Hm].
    destruct (IH _ _ Hinv1 Hrun) as [Hinv' Hm']. split; [assumption|lia].
Qed.

(** What the invariant says about the results and the threads. *)
Lemma inv_results T expected s :
  inv T expected s ->
  raised s = false
  /\ (exists k, omap id (results s) = take k expected)
  /\ (count_none (results s) <= T)%nat.
Proof.
  destruct s as [a p c n t rs].
  intros (R & E & HF & Hres & Hneed & Hph & Hc & Hn). sys_simpl.
  split; [|split].
  - unfold raised. cbn [prod cons].
    destruct Hph; destruct c; cbn in Hc; try reflexivity; destruct Hc.
  - exists (length (omap id rs)). rewrite <- Hres, take_app_length. reflexivity.
  - lia.
Qed.

(** When nothing can run any more, every message has been returned and
    every call has returned. *)
Lemma inv_stuck T expected s :
  inv T expected s -> stuck s ->
  omap id (results s) = expected /\ prod s = PIdle [] /\ cons s = CIdle.
Proof.
  destruct s as [a p c n t rs].
  intros (R & E & HF & Hres & Hneed & Hph & Hc & Hn) Hstuck. sys_simpl.
  pose proof (Hstuck Produce) as HP. pose proof (Hstuck Consume) as HC.
  sys_simpl.
  pose proof (phase_latch _ _ _ _ Hph) as [Hcl Hq].
  inversion Hph as [Hl Hb | pre post R0 E0 Hl Hpost Hb | m R0 d E0 Hl Hj
                   | R0 E0 Hl Hch | R0 E0 Hl Hch]; subst; sys_simpl.
  - (* the producer is done *)
    inversion HF; subst. cbn [length] in *.
    destruct c as [| |[]|e]; cbn [cons_ok] in Hc; cbv beta iota in HC.
    + rewrite app_nil_r. auto.
    + lia.
    + destruct Hl as (Hl & _). destruct Hc. congruence.
    + destruct (Assembler.get_end false a) as [a' [[m'|]|e']];
        cbv beta iota in HC; discriminate.
    + destruct Hc.
  - (* the producer can put a frame *)
    destruct post as [|f post]; [congruence|]. cbn [app] in HP.
    destruct (Assembler.put_begin f a) as [a' [[]|e']];
      cbv beta iota in HP; discriminate.
  - (* the producer waits for the consumer, who can fetch *)
    destruct Hl as (Hmc & _).
    destruct c as [| |[]|e]; cbn [cons_ok] in Hc; cbv beta iota in HC.
    + unfold Assembler.get_begin in HC. rewrite Hcl, Hc in HC. discriminate.
    + rewrite Hmc in HC. discriminate.
    + destruct (Assembler.get_end true a) as [a' [[m'|]|e']];
        cbv beta iota in HC; discriminate.
    + destruct (Assembler.get_end false a) as [a' [[m'|]|e']];
        cbv beta iota in HC; discriminate.
    + destruct Hc.
  - destruct Hl as (_ & Hmf & _). rewrite Hmf in HP. discriminate.
  - destruct (Assembler.put_end a) as [a' [[]|e']];
      cbv beta iota in HP; discriminate.
Qed.

(** Every run can be continued until nothing can run any more. *)
Lemma run_to_stuck T expected s :
  inv T expected s -> exists sched s', run sched s = Some s' /\ stuck s'.
Proof.
  remember (measure s) as n eqn:Hn. revert s Hn.
  induction (lt_wf n) as [n _ IH]. intros s -> Hinv.
  assert (Hnext : forall a s1, exec a s = Some s1 ->
            exists sched s', run sched s = Some s' /\ stuck s').
  { intros a s1 Hex. destruct (inv_exec _ _ _ _ _ Hinv Hex) as [Hinv1 Hm].
    destruct (IH _ Hm s1 eq_refl Hinv1) as (sched & s' & Hrun & Hst).
    exists (a :: sched), s'. cbn [run]. rewrite Hex. auto. }
  destruct (exec Produce s) as [s1|] eqn:HP; [exact (Hnext _ _ HP)|].
  destruct (exec Consume s) as [s1|] eqn:HC; [exact (Hnext _ _ HC)|].
  destruct (exec Timeout s) as [s1|] eqn:HT; [exact (Hnext _ _ HT)|].
  exists [], s. split; [reflexivity|]. intros []; assumption.
Qed.

Lemma count_none_zero (rs : list (option Data)) :
  count_none rs = 0%nat -> rs = map Some (omap id rs).
Proof.
  unfold count_none. induction rs as [|[d|] rs IH].
  - reflexivity.
  - rewrite filter_cons_False by discriminate. intros H. cbn.
    f_equal. exact (IH H).
  - rewrite filter_cons_True by reflexivity. discriminate.
Qed.

(** C1. Frames of complete messages go through [put] one at a time while
    [get] is called once per message.  However the two threads are
    interleaved: no call raises; the values returned so far are the first
    messages, in order; the run ends after a bounded number of steps; and
    when nothing can run any more every [put] has returned and the calls
    of [get] have returned exactly the messages, in order, each the
    concatenation of the payloads of its frames, decoded for a text
    message. *)
Theorem assembler_get_returns_messages
    (msgs : list (list frames.Frame)) (expected : list Data) :
  Forall2 (fun m d => complete_message m = true /\ message_data m = Ok d)
          msgs expected ->
  let init := start (concat msgs) (length msgs) 0 in
  forall sched s, run sched init = Some s ->
    (length sched <= measure init)%nat
    /\ raised s = false
    /\ (exists k, results s = map Some (take k expected))
    /\ (stuck s ->
        results s = map Some expected /\ prod s = PIdle [] /\ cons s = CIdle)
    /\ (exists sched' s', run sched' s = Some s' /\ stuck s').
Proof.
  intros HF init sched s Hrun.
  destruct (inv_run 0 expected sched init s (inv_start _ _ 0 HF) Hrun)
    as [Hinv Hlen].
  destruct (inv_results _ _ _ Hinv) as (Hr & [k Hk] & Hnone).
  assert (Hsome : results s = map Some (omap id (results s))).
  { apply count_none_zero. lia. }
  split; [lia|]. split; [exact Hr|]. split; [|split].
  - exists k. rewrite Hsome, Hk. reflexivity.
  - intros Hst. destruct (inv_stuck _ _ _ Hinv Hst) as (He & Hp & Hc).
    rewrite Hsome, He. auto.
  - exact (run_to_stuck _ _ _ Hinv).
Qed.

Lemma assembler_get_returns_messages_witness :
  let msgs := [fragmented_binary; fragmented_text] in
  let expected := [Bytes [x01; x02; x03; x04; x05]; Str [104; 233; 108]] in
  let init := start (concat msgs) (length msgs) 0 in
  let s := two_messages_end in
  run two_messages_schedule init = Some s
  /\ (length two_messages_schedule <= measure init)%nat
  /\ raised s = false
  /\ (exists k, results s = map Some (take k expected))
  /\ (stuck s ->
      results s = map Some expected /\ prod s = PIdle [] /\ cons s = CIdle)
  /\ (exists sched' s', run sched' s = Some s' /\ stuck s').
Proof.
  cbv zeta. split; [reflexivity|].
  apply (assembler_get_returns_messages
           [fragmented_binary; fragmented_text]
           [Bytes [x01; x02; x03; x04; x05]; Str [104; 233; 108]]);
    [repeat constructor | reflexivity].
Defined.

(** C8. A call of [get] whose wait times out returns [None] and changes
    nothing but [get_in_progress], which it resets: the chunks, the
    [message_complete] event and the decoder are as they were, and a call
    that times out with no [put] in between restores the assembler
    exactly.  Hence later calls still return the messages: with at most
    [T] timeouts, at any points of any interleaving, the values other
    than [None] that [get] has returned are the first messages in order,
    and once nothing can run any more they are all the messages. *)
Theorem get_timeout_leaves_assembler (a : Assembler.t)
    (msgs : list (list frames.Frame)) (expected : list Data) (T : nat) :
  Forall2 (fun m d => complete_message m = true /\ message_data m = Ok d)
          msgs expected ->
  Assembler.get_end false a = (Assembler.set_get_in_progress false a, Ok None)
  /\ (let a' := fst (Assembler.get_end false a) in
      Assembler.chunks a' = Assembler.chunks a
      /\ Assembler.message_complete a' = Assembler.message_complete a
      /\ Assembler.decoder a' = Assembler.decoder a)
  /\ (Assembler.closed a = false -> Assembler.get_in_progress a = false ->
      exists a1, Assembler.get_begin a = (a1, Ok ())
                 /\ Assembler.get_end false a1 = (a, Ok None))
  /\ forall sched s,
      run sched (start (concat msgs) (length msgs) T) = Some s ->
      raised s = false
      /\ (exists k, omap id (results s) = take k expected)
      /\ (count_none (results s) <= T)%nat
      /\ (stuck s ->
          omap id (results s) = expected /\ prod s = PIdle [] /\ cons s = CIdle)
      /\ (exists sched' s', run sched' s = Some s' /\ stuck s').
Proof.
  intros HF. split; [reflexivity|]. split; [cbn; auto|]. split.
  - intros Hcl Hgip. unfold Assembler.get_begin. rewrite Hcl, Hgip.
    eexists. split; [reflexivity|].
    destruct a; cbn in *. subst. reflexivity.
  - intros sched s Hrun.
    destruct (inv_run T expected sched _ s (inv_start _ _ T HF) Hrun)
      as [Hinv _].
    destruct (inv_results _ _ _ Hinv) as (Hr & Hk & Hnone).
    split; [exact Hr|]. split; [exact Hk|]. split; [exact Hnone|].
    split; [exact (inv_stuck _ _ _ Hinv)|exact (run_to_stuck _ _ _ Hinv)].
Qed.

Lemma get_timeout_leaves_assembler_witness :
  let a := Assembler.set_chunks [Bytes [x01; x02]] Assembler.init in
  let msgs := [fragmented_binary; fragmented_text] in
  let expected := [Bytes [x01; x02; x03; x04; x05]; Str [104; 233; 108]] in
  Assembler.get_end false a = (Assembler.set_get_in_progress false a, Ok None)
  /\ (let a' := fst (Assembler.get_end false a) in
      Assembler.chunks a' = Assembler.chunks a
      /\ Assembler.message_complete a' = Assembler.message_complete a
      /\ Assembler.decoder a' = Assembler.decoder a)
  /\ (Assembler.closed a = false -> Assembler.get_in_progress a = false ->
      exists a1, Assembler.get_begin a = (a1, Ok ())
                 /\ Assembler.get_end false a1 = (a, Ok None))
  /\ forall sched s,
      run sched (start (concat msgs) (length msgs) 2) = Some s ->
      raised s = false
      /\ (exists k, omap id (results s) = take k expected)
      /\ (count_none (results s) <= 2)%nat
      /\ (stuck s ->
          omap id (results s) = expected /\ prod s = PIdle [] /\ cons s = CIdle)
      /\ (exists sched' s', run sched' s = Some s' /\ stuck s').
Proof.
  apply (get_timeout_leaves_assembler
           (Assembler.set_chunks [Bytes [x01; x02]] Assembler.init)
           [fragmented_binary; fragmented_text]
           [Bytes [x01; x02; x03; x04; x05]; Str [104; 233; 108]] 2).
  repeat constructor.
Defined.

(** A call of [get] times out in the middle of the first message, and
    another when the second message is already complete; the messages
    still arrive. *)
Example run_with_timeouts :
  option_map results
    (run [Produce; Consume; Produce; Timeout; Consume; Consume; Produce;
          Consume; Consume; Produce; Produce; Produce; Produce; Consume;
          Timeout; Consume; Consume; Consume; Consume; Produce; Produce]
         (start (fragmented_binary ++ fragmented_text) 2 2))
  = Some [None; Some (Bytes [x01; x02; x03; x04; x05]); None;
          Some (Str [104; 233; 108])].
Proof. reflexivity. Qed.

(** ** Frames that [put] does not expect *)

(** C4, as stated, fails: a continuation frame put into a new assembler,
    where no message is in progress, raises nothing.  Without [fin] its
    payload is buffered and [put] returns; with [fin] it becomes a binary
    message of its own, which [get] returns. *)
Lemma put_cont_without_message_accepted :
  Assembler.put_begin (data_frame frames.CONT false [x01]) Assembler.init
  = (Assembler.set_chunks [Bytes [x01]] Assembler.init, Ok Assembler.PutReturned)
  /\ option_map results
       (run [Produce; Consume; Consume; Consume; Produce; Produce]
            (start [data_frame frames.CONT true [x01]] 1 0))
     = Some [Some (Bytes [x01])].
Proof. split; reflexivity. Qed.

Lemma put_chunk_no_protocol_error f d a msg :
  snd (Assembler.put_chunk f d a) <> Raise (ProtocolError msg).
Proof.
  unfold Assembler.put_chunk.
  repeat match goal with
         | |- context [if ?c then _ else _] => destruct c
         | |- context [match Assembler.chunks_queue ?x with _ => _ end] =>
           destruct (Assembler.chunks_queue x)
         end; cbn; discriminate.
Qed.

Lemma utf_8_decode_raises final l e :
  utf_8_decode final l = Raise e -> e = UnicodeDecodeError.
Proof.
  remember (length l) as n eqn:Hn. revert l Hn.
  induction (lt_wf n) as [n _ IH]. intros l ->.
  rewrite utf_8_decode_next.
  destruct (utf8_next l) as [|c rest| |] eqn:Hs; cbn.
  - discriminate.
  - destruct (utf_8_decode final rest) as [[s r]|e'] eqn:Hd; cbn;
      [discriminate|].
    intros [= <-].
    exact (IH _ (utf8_next_char_length _ _ _ Hs) rest eq_refl Hd).
  - destruct final; cbn; [intros [= <-]; reflexivity|discriminate].
  - intros [= <-]. reflexivity.
Qed.

Lemma put_data_no_protocol_error f a msg :
  snd (Assembler.put_data f a) <> Raise (ProtocolError msg).
Proof.
  unfold Assembler.put_data. destruct (Assembler.decoder a) as [buffer|].
  - destruct (UTF8Decoder_decode _ _ _) as [[s b]|e] eqn:Hd.
    + apply put_chunk_no_protocol_error.
    + apply utf_8_decode_raises in Hd. subst e. cbn. discriminate.
  - apply put_chunk_no_protocol_error.
Qed.

(** [put] never raises a protocol error, for any frame in any state. *)
Lemma put_begin_no_protocol_error (a : Assembler.t) (f : frames.Frame) msg :
  snd (Assembler.put_begin f a) <> Raise (ProtocolError msg).
Proof.
  unfold Assembler.put_begin.
  destruct (Assembler.closed a); [cbn; discriminate|].
  destruct (Assembler.put_in_progress a); [cbn; discriminate|].
  destruct (frames.opcode f); try apply put_data_no_protocol_error;
    cbn; discriminate.
Qed.

(** C4, amended.  [put] does not check the sequence of frames: it never
    raises a protocol error, whatever the frame and the state.  A
    continuation frame that arrives when no message is in progress (no
    decoder, no chunks, latch at rest, assembler open) is taken as binary
    data: its payload becomes the only chunk, and [put] returns when [fin]
    is not set, or completes the message when it is. *)
Theorem put_cont_without_message (a : Assembler.t) (f : frames.Frame) :
  frames.opcode f = frames.CONT ->
  latch a false false false ->
  Assembler.decoder a = None -> Assembler.chunks a = [] ->
  (forall a' f' msg,
     snd (Assembler.put_begin f' a') <> Raise (ProtocolError msg))
  /\ Assembler.put_begin f a =
     (Assembler.mk (frames.fin f) false (Assembler.get_in_progress a)
                   (frames.fin f) None [Bytes (frames.data f)] None false,
      Ok (if frames.fin f then Assembler.PutWaiting
          else Assembler.PutReturned)).
Proof.
  intros Hop Hl Hdec Hch. split; [intros; apply put_begin_no_protocol_error|].
  destruct a as [mc mf gip pip dec chunks q cl].
  unfold latch in Hl. cbn in *. destruct Hl as (-> & -> & -> & -> & ->).
  subst dec chunks.
  unfold Assembler.put_begin. cbn. rewrite Hop.
  unfold Assembler.put_data, Assembler.put_chunk. cbn.
  destruct (frames.fin f); reflexivity.
Qed.

Lemma put_cont_without_message_witness :
  let f := data_frame frames.CONT true [x01] in
  let a := Assembler.init in
  (forall a' f' msg,
     snd (Assembler.put_begin f' a') <> Raise (ProtocolError msg))
  /\ Assembler.put_begin f a =
     (Assembler.mk (frames.fin f) false (Assembler.get_in_progress a)
                   (frames.fin f) None [Bytes (frames.data f)] None false,
      Ok (if frames.fin f then Assembler.PutWaiting
          else Assembler.PutReturned)).
Proof.
  apply (put_cont_without_message Assembler.init
           (data_frame frames.CONT true [x01]));
    [reflexivity | unfold latch; cbn; tauto | reflexivity | reflexivity].
Defined.

(** C9, as stated, fails: while a [put] waits for its message to be
    fetched, the assembler is not closed, and a second [put] with a ping
    frame raises [RuntimeError] instead of returning. *)
Lemma put_control_while_put_in_progress :
  Assembler.closed waiting_for_fetch = false
  /\ Assembler.put_begin (data_frame frames.PING true [xab]) waiting_for_fetch
     = (waiting_for_fetch, Raise (RuntimeError "put is already running")).
Proof. split; reflexivity. Qed.

(** C9, amended.  A control frame passed to [put] never changes the
    assembler.  When the assembler is not closed and no other [put] is in
    progress, [put] returns normally, in its first block; when another
    [put] is in progress it raises [RuntimeError]. *)
Theorem put_control_frame_ignored (a : Assembler.t) (f : frames.Frame) :
  frames.is_ctrl (frames.opcode f) = true ->
  fst (Assembler.put_begin f a) = a
  /\ (Assembler.closed a = false -> Assembler.put_in_progress a = false ->
      Assembler.put_begin f a = (a, Ok Assembler.PutReturned))
  /\ (Assembler.closed a = false -> Assembler.put_in_progress a = true ->
      Assembler.put_begin f a = (a, Raise (RuntimeError "put is already running"))).
Proof.
  intros Hctrl. unfold Assembler.put_begin.
  destruct (Assembler.closed a), (Assembler.put_in_progress a);
    destruct (frames.opcode f); try discriminate Hctrl; cbn;
    repeat split; intros; congruence.
Qed.

Lemma put_control_frame_ignored_witness :
  let f := data_frame frames.PING true [xab] in
  let a := Assembler.set_chunks [Bytes [x01; x02]] Assembler.init in
  fst (Assembler.put_begin f a) = a
  /\ (Assembler.closed a = false -> Assembler.put_in_progress a = false ->
      Assembler.put_begin f a = (a, Ok Assembler.PutReturned))
  /\ (Assembler.closed a = false -> Assembler.put_in_progress a = true ->
      Assembler.put_begin f a = (a, Raise (RuntimeError "put is already running"))).
Proof.
  apply (put_control_frame_ignored
           (Assembler.set_chunks [Bytes [x01; x02]] Assembler.init)
           (data_frame frames.PING true [xab])).
  reflexivity.
Defined.

(** ** Subprotocol selection *)

Lemma list_index_elem (l : list Subprotocol) (p : Subprotocol) :
  p ∈ l -> exists i, list_index l p = Ok i.
Proof.
  induction l as [|x l IH]; intros Hin.
  - inversion Hin.
  - cbn [list_index]. destruct (decide (x = p)) as [->|Hne]; [eauto|].
    apply elem_of_cons in Hin as [->|Hin]; [congruence|].
    destruct (IH Hin) as [i Hi]. rewrite Hi. cbn. eauto.
Qed.

Lemma list_index_ok (l : list Subprotocol) (p : Subprotocol) (i : nat) :
  list_index l p = Ok i -> p ∈ l.
Proof.
  revert i. induction l as [|x l IH]; intros i; cbn [list_index].
  - discriminate.
  - destruct (decide (x = p)) as [->|Hne]; [intros _; left|].
    destruct (list_index l p) as [j|] eqn:Hj; [|discriminate].
    intros _. right. exact (IH j eq_refl).
Qed.

Lemma keyed_ok (key : Subprotocol -> res nat) (l : list Subprotocol) :
  (forall x, x ∈ l -> exists k, key x = Ok k) ->
  exists kl, keyed key l = Ok kl
             /\ map snd kl = l
             /\ forall k x, (k, x) ∈ kl -> key x = Ok k.
Proof.
  induction l as [|x l IH]; intros Hk.
  - exists []. cbn. repeat split. intros k x Hin. inversion Hin.
  - destruct (Hk x ltac:(left)) as [k Hkx].
    destruct IH as (kl & Hkl & Hmap & Hall).
    { intros y Hy. apply Hk. right. exact Hy. }
    exists ((k, x) :: kl). cbn [keyed]. rewrite Hkx, Hkl. cbn.
    repeat split; [congruence|].
    intros k' y Hin. apply elem_of_cons in Hin as [[= -> ->]|Hin]; auto.
Qed.

Lemma insert_keyed_elem x y l : y ∈ insert_keyed x l <-> y = x \/ y ∈ l.
Proof.
  induction l as [|z l IH]; cbn [insert_keyed].
  - rewrite list_elem_of_singleton. split; [auto|intros [H|H]; [auto|inversion H]].
  - destruct (fst x <=? fst z)%nat.
    + rewrite !elem_of_cons. tauto.
    + rewrite !elem_of_cons, IH. tauto.
Qed.

Lemma sort_keyed_elem x l : x ∈ sort_keyed l <-> x ∈ l.
Proof.
  induction l as [|y l IH]; cbn [sort_keyed fold_right]; [reflexivity|].
  fold (sort_keyed l). rewrite insert_keyed_elem, elem_of_cons, IH. tauto.
Qed.

(** The head of an insertion is the new element or the old head,
    whichever has the smaller key. *)
Lemma insert_keyed_head x y l :
  exists rest,
    insert_keyed x (y :: l) = (if (fst x <=? fst y)%nat then x else y) :: rest.
Proof.
  cbn [insert_keyed]. destruct (fst x <=? fst y)%nat; eauto.
Qed.

(** The first element of a sorted list has the least key. *)
Lemma sort_keyed_head (l : list (nat * Subprotocol)) :
  l <> [] ->
  exists x rest, sort_keyed l = x :: rest
                 /\ forall y, y ∈ l -> (fst x <= fst y)%nat.
Proof.
  induction l as [|y l IH]; [congruence|]. intros _.
  cbn [sort_keyed fold_right]. fold (sort_keyed l).
  destruct l as [|z l].
  - exists y, []. split; [reflexivity|].
    intros y' Hy'. apply list_elem_of_singleton in Hy'. subst. lia.
  - destruct (IH ltac:(discriminate)) as (m & rest & Hs & Hmin).
    rewrite Hs. destruct (insert_keyed_head y m rest) as [rest' Hr].
    rewrite Hr. eexists _, rest'. split; [reflexivity|].
    intros y' Hy'. apply elem_of_cons in Hy' as [->|Hy'].
    + destruct (fst y <=? fst m)%nat eqn:Hle; [lia|].
      apply Nat.leb_gt in Hle. lia.
    + specialize (Hmin _ Hy').
      destruct (fst y <=? fst m)%nat eqn:Hle; [|exact Hmin].
      apply Nat.leb_le in Hle. lia.
Qed.

(** C5. Without a selector, [select_subprotocol] returns [None] when the
    client and the server have no subprotocol in common, and otherwise a
    common subprotocol whose positions in the two lists have the least
    sum, in whatever order the set of common subprotocols is iterated.
    With a selector, it returns what the selector returns. *)
Theorem select_subprotocol_least_index_sum
    (iter : gset Subprotocol -> list Subprotocol)
    (client server : list Subprotocol) :
  iteration iter ->
  (forall select,
     WebSocketServerProtocol.select_subprotocol iter (Some select) client server
     = select client server)
  /\ ((forall p, p ∈ client -> p ∉ server) ->
      WebSocketServerProtocol.select_subprotocol iter None client server
      = Ok None)
  /\ (forall q, q ∈ client -> q ∈ server ->
      exists p i j,
        WebSocketServerProtocol.select_subprotocol iter None client server
        = Ok (Some p)
        /\ p ∈ client /\ p ∈ server
        /\ list_index client p = Ok i /\ list_index server p = Ok j
        /\ forall q' i' j',
             list_index client q' = Ok i' -> list_index server q' = Ok j' ->
             (i + j <= i' + j')%nat).
Proof.
  intros Hiter. split; [reflexivity|]. split.
  - intros Hnone. unfold WebSocketServerProtocol.select_subprotocol.
    destruct (decide _) as [_|Hne]; [reflexivity|].
    exfalso. apply Hne. apply set_eq. intros x.
    rewrite elem_of_intersection, !elem_of_list_to_set.
    split; [intros [Hc Hs]; destruct (Hnone x Hc Hs)|set_solver].
  - intros q Hqc Hqs. unfold WebSocketServerProtocol.select_subprotocol.
    set (common := list_to_set client ∩ list_to_set server : gset Subprotocol).
    set (priority := fun p : Subprotocol =>
           i ← list_index client p; j ← list_index server p; Ok (i + j)%nat).
    assert (Hcommon : forall x, x ∈ common <-> x ∈ client /\ x ∈ server).
    { intros x. unfold common.
      rewrite elem_of_intersection, !elem_of_list_to_set. reflexivity. }
    destruct (decide (common = ∅)) as [He|_].
    { exfalso. assert (Hq : q ∈ common) by (apply Hcommon; auto).
      rewrite He in Hq. set_solver. }
    destruct (Hiter common) as [_ Hin].
    destruct (keyed_ok priority (iter common)) as (kl & Hkl & Hmap & Hkey).
    { intros x Hx. apply Hin, Hcommon in Hx as [Hc Hs].
      destruct (list_index_elem _ _ Hc) as [i Hi].
      destruct (list_index_elem _ _ Hs) as [j Hj].
      exists (i + j)%nat. unfold priority. rewrite Hi, Hj. reflexivity. }
    assert (Hkl_ne : kl <> []).
    { intros ->. cbn in Hmap.
      assert (Hq : q ∈ iter common) by (apply Hin, Hcommon; auto).
      rewrite <- Hmap in Hq. inversion Hq. }
    destruct (sort_keyed_head kl Hkl_ne) as ([k p] & rest & Hsort & Hmin).
    unfold sorted. rewrite Hkl. cbn. rewrite Hsort. cbn.
    assert (Hp : (k, p) ∈ kl).
    { apply sort_keyed_elem. rewrite Hsort. left. }
    pose proof (Hkey _ _ Hp) as Hprio.
    assert (Hpc : p ∈ iter common).
    { rewrite <- Hmap. apply (list_elem_of_fmap_2 snd _ _ Hp). }
    apply Hin, Hcommon in Hpc as [Hpcl Hpsv].
    destruct (list_index_elem _ _ Hpcl) as [i Hi].
    destruct (list_index_elem _ _ Hpsv) as [j Hj].
    unfold priority in Hprio. rewrite Hi, Hj in Hprio. cbn in Hprio.
    injection Hprio as <-.
    exists p, i, j. repeat split; try assumption.
    intros q' i' j' Hi' Hj'.
    assert (Hq' : q' ∈ iter common).
    { apply Hin, Hcommon. split; eapply list_index_ok; eassumption. }
    rewrite <- Hmap in Hq'. apply list_elem_of_fmap in Hq' as ([k' q''] & -> & Hq').
    pose proof (Hkey _ _ Hq') as Hprio'. cbn [snd] in *.
    unfold priority in Hprio'. rewrite Hi', Hj' in Hprio'. cbn in Hprio'.
    injection Hprio' as <-.
    exact (Hmin _ Hq').
Qed.

Lemma iteration_elements : iteration (elements : gset Subprotocol -> list Subprotocol).
Proof.
  intros s. split; [apply NoDup_elements|]. intros x. apply elem_of_elements.
Qed.

Lemma select_subprotocol_least_index_sum_witness :
  let client := ["chat"; "superchat"; "mqtt"]%string in
  let server := ["mqtt"; "superchat"]%string in
  (forall select,
     WebSocketServerProtocol.select_subprotocol elements (Some select) client server
     = select client server)
  /\ ((forall p, p ∈ client -> p ∉ server) ->
      WebSocketServerProtocol.select_subprotocol elements None client server
      = Ok None)
  /\ (forall q, q ∈ client -> q ∈ server ->
      exists p i j,
        WebSocketServerProtocol.select_subprotocol elements None client server
        = Ok (Some p)
        /\ p ∈ client /\ p ∈ server
        /\ list_index client p = Ok i /\ list_index server p = Ok j
        /\ forall q' i' j',
             list_index client q' = Ok i' -> list_index server q' = Ok j' ->
             (i + j <= i' + j')%nat).
Proof.
  apply (select_subprotocol_least_index_sum elements
           ["chat"; "superchat"; "mqtt"]%string ["mqtt"; "superchat"]%string).
  apply iteration_elements.
Defined.

(** ** Headers *)

Lemma values_of_app (key : string) (h h' : Headers) :
  values_of key (h ++ h') = values_of key h ++ values_of key h'.
Proof.
  unfold values_of, Headers in *. rewrite filter_app, map_app. reflexivity.
Qed.

Lemma values_of_snoc (key key' value : string) (h : Headers) :
  values_of key' (h ++ [(key, value)])
  = values_of key' h ++ (if decide (lower key = lower key') then [value] else []).
Proof.
  rewrite values_of_app. f_equal. unfold values_of, Headers in *.
  destruct (decide (lower key = lower key')) as [He|He].
  - rewrite filter_cons_True by exact He. reflexivity.
  - rewrite filter_cons_False by exact He. reflexivity.
Qed.

(** What a call of [setdefault] that returns has done. *)
Lemma setdefault_returns (key value : string) (h h' : Headers) :
  setdefault key value h = inr h' ->
  (length (values_of key h) <= 1)%nat
  /\ (exists added, h' = h ++ added /\ added `sublist_of` [(key, value)])
  /\ length (values_of key h') = 1%nat
  /\ forall key', lower key <> lower key' -> values_of key' h' = values_of key' h.
Proof.
  unfold setdefault. destruct (values_of key h) as [|x [|y l]] eqn:Hv;
    [| |discriminate]; intros [= <-]; cbn [length].
  - split; [lia|]. split; [exists [(key, value)]; split; reflexivity|].
    split.
    + rewrite values_of_snoc, Hv. rewrite decide_True by reflexivity. reflexivity.
    + intros key' Hne. rewrite values_of_snoc.
      rewrite decide_False by exact Hne. apply app_nil_r.
  - split; [lia|]. split.
    + exists []. rewrite app_nil_r. split; [reflexivity|apply sublist_nil_l].
    + rewrite Hv. split; [reflexivity|]. reflexivity.
Qed.

(** A call of [setdefault] raises exactly when the name has several
    values. *)
Lemma setdefault_raises (key value : string) (h : Headers) (e : exc) :
  setdefault key value h = inl e <->
  e = MultipleValuesError key /\ (2 <= length (values_of key h))%nat.
Proof.
  unfold setdefault. destruct (values_of key h) as [|x [|y l]]; cbn [length];
    split; try discriminate; try (intros [_ H]; lia).
  - intros [= <-]. split; [reflexivity|lia].
  - intros [-> _]. reflexivity.
Qed.

Lemma setdefaults_returns (kvs : list (string * string)) :
  forall h : Headers,
  NoDup (map (fun kv => lower (fst kv)) kvs) ->
  Forall (fun kv => (length (values_of (fst kv) h) <= 1)%nat) kvs ->
  exists added,
    setdefaults kvs h = inr (h ++ added)
    /\ added `sublist_of` kvs
    /\ Forall (fun kv => length (values_of (fst kv) (h ++ added)) = 1%nat) kvs
    /\ forall key, lower key ∉ map (fun kv => lower (fst kv)) kvs ->
                   values_of key (h ++ added) = values_of key h.
Proof.
  induction kvs as [|[key value] kvs IH]; intros h Hnd Hall.
  - exists []. rewrite app_nil_r. repeat split; constructor.
  - cbn [map fst] in Hnd. apply NoDup_cons in Hnd as [Hkey Hnd].
    apply Forall_cons in Hall as [Hk Hall]. cbn [fst] in Hk.
    cbn [setdefaults].
    destruct (setdefault key value h) as [e|h1] eqn:Hset.
    { apply setdefault_raises in Hset as [_ H2]. lia. }
    apply setdefault_returns in Hset as (_ & (a1 & -> & Ha1) & Hone & Hother).
    assert (Hin : forall kv, kv ∈ kvs -> lower key <> lower (fst kv)).
    { intros kv Hkv Heq. apply Hkey. rewrite Heq.
      apply (list_elem_of_fmap_2 (fun kv => lower (fst kv)) _ _ Hkv). }
    destruct (IH (h ++ a1) Hnd) as (a2 & Hrun & Ha2 & Hones & Hrest).
    { rewrite Forall_forall in Hall |- *. intros kv Hkv.
      rewrite (Hother _ (Hin _ Hkv)). exact (Hall _ Hkv). }
    exists (a1 ++ a2). rewrite app_assoc. split; [exact Hrun|]. split; [|split].
    + change ((key, value) :: kvs) with ([(key, value)] ++ kvs).
      apply sublist_app; assumption.
    + constructor; [|exact Hones]. cbn [fst].
      rewrite (Hrest key); [exact Hone|exact Hkey].
    + intros key' Hnot. cbn [map fst] in Hnot.
      apply not_elem_of_cons in Hnot as [Hne Hnot].
      rewrite (Hrest _ Hnot). apply Hother. congruence.
Qed.

Lemma setdefaults_raises (kvs : list (string * string)) :
  forall h : Headers,
  NoDup (map (fun kv => lower (fst kv)) kvs) ->
  Exists (fun kv => (2 <= length (values_of (fst kv) h))%nat) kvs ->
  exists key, setdefaults kvs h = inl (MultipleValuesError key).
Proof.
  induction kvs as [|[key value] kvs IH]; intros h Hnd Hex.
  - inversion Hex.
  - cbn [map fst] in Hnd. apply NoDup_cons in Hnd as [Hkey Hnd].
    cbn [setdefaults].
    destruct (setdefault key value h) as [e|h1] eqn:Hset.
    { apply setdefault_raises in Hset as [-> _]. eauto. }
    apply setdefault_returns in Hset as (Hle & _ & _ & Hother).
    apply IH; [exact Hnd|].
    apply Exists_cons in Hex as [Hex|Hex]; [cbn [fst] in Hex; lia|].
    rewrite Exists_exists in Hex |- *. destruct Hex as (kv & Hkv & H2).
    exists kv. split; [exact Hkv|]. rewrite Hother; [exact H2|].
    intros Heq. apply Hkey. rewrite Heq.
    apply (list_elem_of_fmap_2 (fun kv => lower (fst kv)) _ _ Hkv).
Qed.

(** The five calls of [handler] are calls of [setdefault] one after the
    other. *)
Lemma set_default_headers_setdefaults (v : WebSocketServerProtocol.env)
    (body : string) (h : Headers) :
  WebSocketServerProtocol.set_default_headers v body h
  = setdefaults (error_headers v body) h.
Proof.
  unfold WebSocketServerProtocol.set_default_headers, error_headers.
  cbn [setdefaults].
  repeat match goal with
  | |- context [match setdefault ?k ?x ?hs with _ => _ end] =>
    destruct (setdefault k x hs); [reflexivity|]
  end.
  reflexivity.
Qed.

Lemma error_headers_names (v : WebSocketServerProtocol.env) (body : string) :
  map fst (error_headers v body) = WebSocketServerProtocol.default_header_names
  /\ NoDup (map (fun kv => lower (fst kv)) (error_headers v body)).
Proof.
  split; [reflexivity|].
  apply (bool_decide_unpack _). vm_compute. exact I.
Qed.

(** [handler] completes the headers of a response when none of the five
    names has several values, and raises otherwise. *)
Lemma set_default_headers_returns (v : WebSocketServerProtocol.env)
    (body : string) (h : Headers) :
  Forall (fun key => (length (values_of key h) <= 1)%nat)
         WebSocketServerProtocol.default_header_names ->
  exists added,
    WebSocketServerProtocol.set_default_headers v body h = inr (h ++ added)
    /\ added `sublist_of` error_headers v body
    /\ Forall (fun key => length (values_of key (h ++ added)) = 1%nat)
              WebSocketServerProtocol.default_header_names.
Proof.
  intros Hall. destruct (error_headers_names v body) as [Hnames Hnd].
  destruct (setdefaults_returns (error_headers v body) h Hnd)
    as (added & Hrun & Hsub & Hones & _).
  { rewrite <- Hnames in Hall. rewrite Forall_fmap in Hall. exact Hall. }
  exists added. rewrite set_default_headers_setdefaults.
  split; [exact Hrun|]. split; [exact Hsub|].
  rewrite <- Hnames, Forall_fmap. exact Hones.
Qed.

Lemma set_default_headers_raises (v : WebSocketServerProtocol.env)
    (body : string) (h : Headers) :
  Exists (fun key => (2 <= length (values_of key h))%nat)
         WebSocketServerProtocol.default_header_names ->
  exists key,
    WebSocketServerProtocol.set_default_headers v body h
    = inl (MultipleValuesError key).
Proof.
  intros Hex. destruct (error_headers_names v body) as [Hnames Hnd].
  rewrite set_default_headers_setdefaults.
  apply setdefaults_raises; [exact Hnd|].
  rewrite <- Hnames, Exists_fmap in Hex. exact Hex.
Qed.

(** ** Failures of the opening handshake *)

Lemma isinstance_MultipleValuesError (v : WebSocketServerProtocol.env)
    (key : string) :
  WebSocketServerProtocol.isinstance v (MultipleValuesError key) ClsException
  = true.
Proof.
  unfold WebSocketServerProtocol.isinstance. cbn [exc_cls MultipleValuesError].
  destruct (WebSocketServerProtocol.py_lt_38 v); reflexivity.
Qed.

(** An exception that [setdefault] raises is a [MultipleValuesError]. *)
Lemma set_default_headers_raised (v : WebSocketServerProtocol.env)
    (body : string) (h : Headers) (e : exc) :
  WebSocketServerProtocol.set_default_headers v body h = inl e ->
  exists key, e = MultipleValuesError key.
Proof.
  rewrite set_default_headers_setdefaults. generalize (error_headers v body).
  intros kvs. revert h. induction kvs as [|[key value] kvs IH]; intros h.
  - discriminate.
  - cbn [setdefaults]. destruct (setdefault key value h) as [e'|h'] eqn:Hset.
    + apply setdefault_raises in Hset as [-> _]. intros [= <-]. eauto.
    + apply IH.
Qed.

(** What [handler] does with an [AbortHandshake]. *)
Lemma handler_abort_handshake (v : WebSocketServerProtocol.env)
    (text : string) (status : Z) (headers : Headers) (body : string)
    (ws_handler close : option exc) :
  WebSocketServerProtocol.handler v
    (inl (mkExc ClsAbortHandshake text status headers body)) ws_handler close
  = (match WebSocketServerProtocol.set_default_headers v body headers with
     | inr headers' =>
       [WriteHttpResponse status headers' body; CloseTransport; Unregister]
     | inl _ => [TransportClose; Unregister]
     end, None).
Proof.
  unfold WebSocketServerProtocol.handler, WebSocketServerProtocol.handler_try,
    WebSocketServerProtocol.error_response.
  assert (Hi : forall c,
    WebSocketServerProtocol.isinstance v
      (mkExc ClsAbortHandshake text status headers body) c
    = bool_decide (c ∈ [ClsAbortHandshake; ClsInvalidHandshake; ClsException;
                        ClsBaseException])).
  { intros c. unfold WebSocketServerProtocol.isinstance. reflexivity. }
  rewrite !Hi.
  change (bool_decide (ClsCancelledError ∈ _)) with false.
  change (bool_decide (ClsConnectionError ∈ _)) with false.
  change (bool_decide (ClsException ∈ _)) with true.
  change (bool_decide (ClsAbortHandshake ∈ _)) with true.
  cbv iota. cbn [exc_status exc_headers exc_body].
  destruct (WebSocketServerProtocol.set_default_headers v body headers)
    as [e'|h'] eqn:Hset; [|reflexivity].
  apply set_default_headers_raised in Hset as [key ->].
  rewrite isinstance_MultipleValuesError. reflexivity.
Qed.




(** An [AbortHandshake] whose headers name Connection twice, in two
    spellings, gets no response. *)
Example handler_abort_multiple_values :
  WebSocketServerProtocol.handler sample_env (inl abort_two_connections)
    None None
  = ([TransportClose; Unregister], None).
Proof. reflexivity. Qed.

(** ** The client handshake *)

(** C10. When the handshake response has arrived and the connection is
    not [OPEN], [handshake] calls [tcp_close], as the last thing it does,
    and then raises the exception stored in the response, or returns if
    there is none: in both cases the socket has been closed when the call
    ends. *)
Theorem handshake_failure_closes_socket (self : ClientProtocol.t)
    (net : ClientProtocol.arrival) (r : Response) :
  ClientProtocol.received net = Some r ->
  ClientProtocol.state net <> OPEN ->
  ClientProtocol.calls (fst (ClientProtocol.handshake self net))
  = ClientProtocol.calls self
    ++ [call_connect; call_send_request; call_send_data; call_tcp_close]
  /\ snd (ClientProtocol.handshake self net)
     = match exception r with
       | Some exc => Raise exc
       | None => Ok ()
       end.
Proof.
  intros Hr Hstate. unfold ClientProtocol.handshake. rewrite Hr.
  cbn [ClientProtocol.response ClientProtocol.calls ClientProtocol.do].
  destruct (decide (ClientProtocol.state net = OPEN)) as [Ho|_]; [contradiction|].
  destruct (exception r); cbn; rewrite <- !app_assoc; auto.
Qed.

Lemma handshake_failure_closes_socket_witness :
  let self := ClientProtocol.mk [] None in
  let r := mkResponse 403 (Some (OtherException "InvalidStatus")) in
  let net := ClientProtocol.mkArrival (Some r) CONNECTING in
  ClientProtocol.calls (fst (ClientProtocol.handshake self net))
  = ClientProtocol.calls self
    ++ [call_connect; call_send_request; call_send_data; call_tcp_close]
  /\ snd (ClientProtocol.handshake self net)
     = match exception r with
       | Some exc => Raise exc
       | None => Ok ()
       end.
Proof.
  apply (handshake_failure_closes_socket
           (ClientProtocol.mk [] None)
           (ClientProtocol.mkArrival
              (Some (mkResponse 403 (Some (OtherException "InvalidStatus"))))
              CONNECTING)
           (mkResponse 403 (Some (OtherException "InvalidStatus"))));
    [reflexivity | discriminate].
Defined.

(** A successful handshake does not close the socket. *)
Example handshake_success_keeps_socket :
  ClientProtocol.handshake (ClientProtocol.mk [] None)
    (ClientProtocol.mkArrival (Some (mkResponse 101 None)) OPEN)
  = (ClientProtocol.mk [call_connect; call_send_request; call_send_data]
                       (Some (mkResponse 101 None)), Ok ()).
Proof. reflexivity. Qed.

(** * Further properties *)

(** ** Closing the assembler *)

Ltac asm_cases a :=
  destruct a as [mc mf gip pip dec chunks [q|] cl];
  destruct cl, gip, pip.

(** X1. [close] is idempotent: a second call changes nothing. *)
Theorem close_idempotent (a : Assembler.t) :
  Assembler.close (Assembler.close a) = Assembler.close a.
Proof. asm_cases a; reflexivity. Qed.

(** X2. After [close], [get], [get_iter] and [put] all raise [EOFError],
    whatever the frame, and leave the assembler as it is. *)
Theorem closed_assembler_raises_eof (a : Assembler.t) (f : frames.Frame) :
  let c := Assembler.close a in
  Assembler.get_begin c = (c, Raise EOFError)
  /\ Assembler.get_iter_begin c = (c, Raise EOFError)
  /\ Assembler.put_begin f c = (c, Raise EOFError).
Proof. asm_cases a; repeat split; reflexivity. Qed.

(** X3. [close] wakes the calls that are blocked, and they raise
    [EOFError].  If a [get] is waiting, [message_complete] is set and the
    second block of [get] raises; if a [get_iter] is waiting on the queue,
    [None] is added to the queue and its last block raises; if a [put] is
    waiting, [message_fetched] is set and its second block raises.  None
    of them is left marked as in progress. *)
Theorem close_wakes_blocked_calls (a : Assembler.t) :
  Assembler.closed a = false ->
  let c := Assembler.close a in
  (Assembler.get_in_progress a = true ->
     Assembler.message_complete c = true
     /\ (forall q, Assembler.chunks_queue a = Some q ->
           Assembler.chunks_queue c = Some (q ++ [None]))
     /\ snd (Assembler.get_end true c) = Raise EOFError
     /\ Assembler.get_in_progress (fst (Assembler.get_end true c)) = false
     /\ snd (Assembler.get_iter_end c) = Raise EOFError
     /\ Assembler.get_in_progress (fst (Assembler.get_iter_end c)) = false)
  /\ (Assembler.put_in_progress a = true ->
     Assembler.message_fetched c = true
     /\ snd (Assembler.put_end c) = Raise EOFError
     /\ Assembler.put_in_progress (fst (Assembler.put_end c)) = false).
Proof.
  intros Hcl. asm_cases a; try discriminate Hcl; cbn;
    (split; [intros Hg | intros Hp]); try discriminate;
    repeat split; try reflexivity; intros q' [= <-]; reflexivity.
Qed.

Lemma close_wakes_blocked_calls_witness :
  let a := Assembler.set_get_in_progress true waiting_for_fetch in
  let c := Assembler.close a in
  (Assembler.get_in_progress a = true ->
     Assembler.message_complete c = true
     /\ (forall q, Assembler.chunks_queue a = Some q ->
           Assembler.chunks_queue c = Some (q ++ [None]))
     /\ snd (Assembler.get_end true c) = Raise EOFError
     /\ Assembler.get_in_progress (fst (Assembler.get_end true c)) = false
     /\ snd (Assembler.get_iter_end c) = Raise EOFError
     /\ Assembler.get_in_progress (fst (Assembler.get_iter_end c)) = false)
  /\ (Assembler.put_in_progress a = true ->
     Assembler.message_fetched c = true
     /\ snd (Assembler.put_end c) = Raise EOFError
     /\ Assembler.put_in_progress (fst (Assembler.put_end c)) = false).
Proof.
  apply (close_wakes_blocked_calls
           (Assembler.set_get_in_progress true waiting_for_fetch)).
  reflexivity.
Defined.

(** ** Text that is not valid UTF-8 *)

(** One text frame in the middle of a message: either the decoder rejects
    it and [put] raises, leaving the chunks and the events alone, or the
    text decoded so far grows by the new chunk. *)
Lemma put_data_text_step (a : Assembler.t) (f : frames.Frame)
    (buffer P : bytes) (S : str) :
  latch a false false false ->
  Assembler.decoder a = Some buffer ->
  utf_8_decode false P = Ok (S, buffer) ->
  match utf_8_decode (frames.fin f) (buffer ++ frames.data f) with
  | Raise _ => Assembler.put_data f a = (a, Raise UnicodeDecodeError)
  | Ok (s', buffer') =>
    utf_8_decode (frames.fin f) (P ++ frames.data f) = Ok (S ++ s', buffer')
    /\ (frames.fin f = false ->
        exists a', Assembler.put_data f a = (a', Ok Assembler.PutReturned)
                   /\ latch a' false false false
                   /\ Assembler.decoder a' = Some buffer')
  end.
Proof.
  destruct a as [mc mf gip pip dec chunks q cl]. unfold latch. cbn.
  intros (-> & -> & -> & -> & ->) -> HP.
  destruct (utf_8_decode (frames.fin f) (buffer ++ frames.data f))
    as [[s' buffer']|e] eqn:Hd.
  - split.
    + rewrite utf_8_decode_app, HP. cbn. rewrite Hd. reflexivity.
    + intros Hfin. unfold Assembler.put_data. cbn.
      unfold UTF8Decoder_decode. rewrite Hd.
      unfold Assembler.put_chunk. cbn. rewrite Hfin. cbn.
      eexists. split; [reflexivity|]. cbn. tauto.
  - unfold Assembler.put_data. cbn. unfold UTF8Decoder_decode. rewrite Hd.
    apply utf_8_decode_raises in Hd. subst e. reflexivity.
Qed.

Lemma put_all_invalid_text (post : list frames.Frame) :
  forall (a : Assembler.t) (buffer P : bytes) (S : str) (e : exn),
  latch a false false false ->
  Assembler.decoder a = Some buffer ->
  utf_8_decode false P = Ok (S, buffer) ->
  conts_then_fin false post = true ->
  utf_8_decode true (P ++ payload post) = Raise e ->
  exists a', put_all post a = (a', Raise UnicodeDecodeError)
             /\ Assembler.message_complete a' = false.
Proof.
  induction post as [|f post IH]; intros a buffer P S e Hl Hdec HP Hc Hall.
  - discriminate.
  - cbn [conts_then_fin negb andb] in Hc.
    apply andb_true_iff in Hc as [Hop Hc]. apply bool_decide_eq_true in Hop.
    pose proof (put_data_text_step a f buffer P S Hl Hdec HP) as Hstep.
    assert (Hput : Assembler.put_begin f a = Assembler.put_data f a).
    { unfold Assembler.put_begin. destruct Hl as (_ & _ & -> & _ & ->).
      rewrite Hop. reflexivity. }
    cbn [put_all]. rewrite Hput.
    destruct (utf_8_decode (frames.fin f) (buffer ++ frames.data f))
      as [[s' buffer']|e'] eqn:Hd.
    + destruct Hstep as [HP' Hnext].
      destruct (frames.fin f) eqn:Hfin.
      * apply conts_then_fin_last in Hc. subst post.
        rewrite payload_cons in Hall. unfold payload in Hall. cbn in Hall.
        rewrite app_nil_r, HP' in Hall. discriminate.
      * destruct (Hnext eq_refl) as (a' & Ha' & Hl' & Hdec').
        rewrite Ha'.
        apply (IH a' buffer' (P ++ frames.data f) (S ++ s') e Hl' Hdec' HP' Hc).
        rewrite <- app_assoc. exact Hall.
    + rewrite Hstep. exists a. split; [reflexivity|]. apply Hl.
Qed.

(** X4. A text message that is not valid UTF-8 is never delivered.  When
    the frames of a complete text message whose payload does not decode
    are put into a new assembler one after the other, one of the calls
    raises [UnicodeDecodeError], and [message_complete] is not set: no
    [get] will return that message. *)
Theorem put_rejects_invalid_text (m : list frames.Frame) (e : exn) :
  complete_message m = true ->
  message_data m = Raise e ->
  exists a', put_all m Assembler.init = (a', Raise UnicodeDecodeError)
             /\ Assembler.message_complete a' = false.
Proof.
  intros Hc Hd. destruct m as [|f post]; [discriminate|].
  cbn [complete_message] in Hc. apply andb_true_iff in Hc as [Hk Hc].
  unfold message_data in Hd.
  apply orb_true_iff in Hk. rewrite !bool_decide_eq_true in Hk.
  destruct Hk as [Hop|Hop]; rewrite Hop in Hd; [|discriminate].
  unfold bytes_decode in Hd.
  destruct (utf_8_decode true (payload (f :: post))) as [[s r]|e0] eqn:Hall;
    [discriminate|].
  rewrite payload_cons in Hall.
  set (a0 := Assembler.set_decoder (Some UTF8Decoder_new) Assembler.init).
  assert (Hl0 : latch a0 false false false) by (unfold latch; cbn; tauto).
  pose proof (put_data_text_step a0 f [] [] [] Hl0 eq_refl eq_refl) as Hstep.
  assert (Hput : Assembler.put_begin f Assembler.init = Assembler.put_data f a0).
  { unfold Assembler.put_begin. cbn. rewrite Hop. reflexivity. }
  cbn [put_all]. rewrite Hput. cbn [app] in Hstep.
  destruct (utf_8_decode (frames.fin f) (frames.data f))
    as [[s' buffer']|e'] eqn:Hdec.
  - destruct Hstep as [HP' Hnext]. cbn [app] in HP'.
    destruct (frames.fin f) eqn:Hfin.
    + apply conts_then_fin_last in Hc. subst post.
      unfold payload in Hall. cbn in Hall. rewrite app_nil_r, Hdec in Hall.
      discriminate.
    + destruct (Hnext eq_refl) as (a' & Ha' & Hl' & Hdec').
      rewrite Ha'.
      exact (put_all_invalid_text post a' buffer' (frames.data f) s' e0
               Hl' Hdec' Hdec Hc Hall).
  - rewrite Hstep. exists a0. split; reflexivity.
Qed.

Lemma put_rejects_invalid_text_witness :
  exists a', put_all broken_text Assembler.init = (a', Raise UnicodeDecodeError)
             /\ Assembler.message_complete a' = false.
Proof.
  apply (put_rejects_invalid_text broken_text UnicodeDecodeError);
    reflexivity.
Defined.

(** ** Reading frames: errors *)

(** The two header bytes decide between the header errors and the rest of
    the read. *)
Lemma read_wire_header (mask : bool) (max_size : option Z)
    (b0 b1 : Byte.byte) (rest : bytes) :
  Frame.read_wire mask max_size (b0 :: b1 :: rest) =
  match frames.Opcode_of (Z.land (byte_val b0) 0x0F) with
  | Raise _ => Raise (ProtocolError "invalid opcode")
  | Ok opcode =>
    if negb (eqb (truthy (Z.land (byte_val b1) 0x80)) mask)
    then Raise (ProtocolError "incorrect masking")
    else
      '(length, stream) ← Frame.read_length (byte_val b1) rest;
      if match max_size with Some m => m <? length | None => false end
      then Raise (PayloadTooBig length (default 0 max_size))
      else
        '(mask_bits, stream) ← (if mask then reader 4 stream else Ok ([], stream));
        '(data, stream) ← reader length stream;
        data ← (if mask then apply_mask data mask_bits else Ok data);
        Ok (frames.mkFrame opcode data
              (truthy (Z.land (byte_val b0) 0x80))
              (truthy (Z.land (byte_val b0) 0x40))
              (truthy (Z.land (byte_val b0) 0x20))
              (truthy (Z.land (byte_val b0) 0x10)), stream)
  end.
Proof.
  unfold Frame.read_wire.
  change (b0 :: b1 :: rest) with ([b0; b1] ++ rest).
  change 2 with (Z.of_nat (length [b0; b1])). rewrite reader_app.
  cbn [mbind res_bind bind unpack_BB].
  destruct (frames.Opcode_of _); reflexivity.
Qed.

Lemma read_of_wire_error mask max_size exts stream e :
  Frame.read_wire mask max_size stream = Raise e ->
  Frame.read mask max_size exts stream = Raise e.
Proof. intros H. unfold Frame.read. rewrite H. reflexivity. Qed.

(** X5. A frame whose opcode is none of the six defined ones is refused
    with [ProtocolError("invalid opcode")], whatever the rest of the
    stream holds: the masking bit and the length are not looked at. *)
Theorem read_rejects_invalid_opcode (mask : bool) (max_size : option Z)
    (exts : option (list Extension)) (b0 b1 : Byte.byte) (rest : bytes) :
  Z.land (byte_val b0) 0x0F ∉ [0x0; 0x1; 0x2; 0x8; 0x9; 0xA] ->
  Frame.read mask max_size exts (b0 :: b1 :: rest)
  = Raise (ProtocolError "invalid opcode").
Proof.
  intros Hop. apply read_of_wire_error. rewrite read_wire_header.
  unfold frames.Opcode_of.
  repeat match goal with
  | |- context [?a =? ?b] =>
    destruct (Z.eqb_spec a b) as [Heq|_];
      [exfalso; apply Hop; rewrite Heq; set_solver|]
  end.
  reflexivity.
Qed.

Lemma read_rejects_invalid_opcode_witness :
  Frame.read true None None [x83; xff; x00]
  = Raise (ProtocolError "invalid opcode").
Proof.
  apply (read_rejects_invalid_opcode true None None x83 xff [x00]).
  change (Z.land (byte_val x83) 15) with 3. intros H.
  repeat (apply elem_of_cons in H as [H|H]; [discriminate H|]).
  inversion H.
Defined.

(** X6. A frame with a defined opcode whose masking bit is not the one
    expected is refused with [ProtocolError("incorrect masking")] before
    its length or its payload is read: the server refuses unmasked frames
    and the client refuses masked ones, however short the stream is after
    the two header bytes. *)
Theorem read_rejects_wrong_masking (mask : bool) (max_size : option Z)
    (exts : option (list Extension)) (b0 b1 : Byte.byte) (rest : bytes)
    (op : frames.Opcode) :
  frames.Opcode_of (Z.land (byte_val b0) 0x0F) = Ok op ->
  truthy (Z.land (byte_val b1) 0x80) <> mask ->
  Frame.read mask max_size exts (b0 :: b1 :: rest)
  = Raise (ProtocolError "incorrect masking").
Proof.
  intros Hop Hmask. apply read_of_wire_error.
  rewrite read_wire_header, Hop.
  destruct (truthy (Z.land (byte_val b1) 128)), mask; try congruence;
    reflexivity.
Qed.

Lemma read_rejects_wrong_masking_witness :
  Frame.read true None None [x81; x05]
  = Raise (ProtocolError "incorrect masking").
Proof.
  apply (read_rejects_wrong_masking true None None x81 x05 [] frames.TEXT);
    [reflexivity | discriminate].
Defined.

(** X7. With [max_size] set, a frame that announces a longer payload is
    refused with [PayloadTooBig] as soon as its length is known, in each
    of the three encodings of the length: neither the masking key nor the
    payload is requested from the reader. *)
Theorem read_rejects_long_payload (mask : bool) (m : Z)
    (exts : option (list Extension)) (b0 b1 : Byte.byte) (rest rest' : bytes)
    (op : frames.Opcode) (len : Z) :
  frames.Opcode_of (Z.land (byte_val b0) 0x0F) = Ok op ->
  truthy (Z.land (byte_val b1) 0x80) = mask ->
  Frame.read_length (byte_val b1) rest = Ok (len, rest') ->
  m < len ->
  Frame.read mask (Some m) exts (b0 :: b1 :: rest)
  = Raise (PayloadTooBig len m).
Proof.
  intros Hop Hmask Hlen Hm. apply read_of_wire_error.
  rewrite read_wire_header, Hop, Hmask, eqb_reflx, Hlen.
  cbn [negb mbind res_bind bind default].
  replace (m <? len) with true by (symmetry; apply Z.ltb_lt; lia).
  reflexivity.
Qed.

Lemma read_rejects_long_payload_witness :
  Frame.read false (Some 1024) None [x82; x7e; x08; x00]
  = Raise (PayloadTooBig 2048 1024).
Proof.
  apply (read_rejects_long_payload false 1024 None x82 x7e [x08; x00] []
           frames.BINARY 2048); [reflexivity..|lia].
Defined.

(** ** Reading frames: what a successful read has consumed *)

Lemma read_length_announced (b1 : Byte.byte) (stream stream' : bytes)
    (len : Z) :
  Frame.read_length (byte_val b1) stream = Ok (len, stream') ->
  exists ext, stream = ext ++ stream'
              /\ announced_length b1 ext = Some len
              /\ 0 <= len.
Proof.
  unfold Frame.read_length, announced_length.
  destruct (Z.land (byte_val b1) 127 =? 126).
  - destruct (reader 2 stream) as [[d s1]|] eqn:Hr; [|discriminate].
    apply reader_ok in Hr as [-> Hd]. cbn [mbind res_bind bind].
    unfold unpack_H, sized.
    assert (Hd2 : length d = 2%nat) by lia. rewrite Hd2. cbn.
    intros [= <- <-]. exists d. rewrite Hd2. pose proof (be_uint_range d).
    split; [reflexivity|]. split; [reflexivity|lia].
  - destruct (Z.land (byte_val b1) 127 =? 127).
    + destruct (reader 8 stream) as [[d s1]|] eqn:Hr; [|discriminate].
      apply reader_ok in Hr as [-> Hd]. cbn [mbind res_bind bind].
      unfold unpack_Q, sized.
      assert (Hd8 : length d = 8%nat) by lia. rewrite Hd8. cbn.
      intros [= <- <-]. exists d. rewrite Hd8. pose proof (be_uint_range d).
      split; [reflexivity|]. split; [reflexivity|lia].
    + intros [= <- <-]. exists []. split; [reflexivity|]. split; [reflexivity|].
      apply Z.land_nonneg. left. apply byte_val_range.
Qed.

(** X8. A successful read without extensions has consumed exactly one
    frame from the front of the stream, and the frame it returns is what
    those bytes say.  The stream is two header bytes, the extended length
    (no byte, two or eight, as the second header byte calls for), the
    masking key (four bytes if frames are masked, none otherwise), a
    payload of exactly the announced length, and the rest, which is
    returned untouched.  The fin and reserved bits and the opcode of the
    frame are those of the first byte, the masking bit of the second byte
    is the one expected, the data of the frame is the payload, unmasked
    with the key if frames are masked, and the payload is within
    [max_size]. *)
Theorem read_consumes_one_frame (mask : bool) (max_size : option Z)
    (stream rest : bytes) (f : Frame.t) :
  Frame.read mask max_size None stream = Ok (f, rest) ->
  exists b0 b1 ext key payload,
    stream = b0 :: b1 :: ext ++ key ++ payload ++ rest
    /\ announced_length b1 ext = Some (Z.of_nat (length payload))
    /\ length key = (if mask then 4 else 0)%nat
    /\ Frame.data f = (if mask then mask_from 0 payload key else payload)
    /\ frames.Opcode_of (Z.land (byte_val b0) 0x0F) = Ok (Frame.opcode f)
    /\ Frame.fin f = truthy (Z.land (byte_val b0) 0x80)
    /\ Frame.rsv1 f = truthy (Z.land (byte_val b0) 0x40)
    /\ Frame.rsv2 f = truthy (Z.land (byte_val b0) 0x20)
    /\ Frame.rsv3 f = truthy (Z.land (byte_val b0) 0x10)
    /\ truthy (Z.land (byte_val b1) 0x80) = mask
    /\ (forall m, max_size = Some m -> Z.of_nat (length payload) <= m).
Proof.
  unfold Frame.read.
  destruct stream as [|b0 [|b1 s0]]; try discriminate.
  rewrite read_wire_header.
  destruct (frames.Opcode_of _) as [op|] eqn:Hop; [|discriminate].
  destruct (eqb (truthy (Z.land (byte_val b1) 128)) mask) eqn:Hmask;
    cbn [negb]; [|discriminate].
  apply eqb_prop in Hmask.
  destruct (Frame.read_length (byte_val b1) s0) as [[len s1]|] eqn:Hlen;
    [|discriminate].
  apply read_length_announced in Hlen as (ext & -> & Hann & Hlen0).
  cbn [mbind res_bind bind].
  destruct (match max_size with Some m => m <? len | None => false end) eqn:Hmax;
    [discriminate|].
  destruct (if mask then reader 4 s1 else Ok ([], s1)) as [[key s2]|] eqn:Hkey;
    [|discriminate].
  cbn [mbind res_bind bind].
  destruct (reader len s2) as [[payload s3]|] eqn:Hpay; [|discriminate].
  apply reader_ok in Hpay as [-> Hpl]. cbn [mbind res_bind bind].
  destruct (if mask then apply_mask payload key else Ok payload)
    as [data|] eqn:Hdata; [|discriminate].
  cbn [mbind res_bind bind default rev Frame.decode_loop].
  destruct (frames.check _); [|discriminate].
  cbn [mbind res_bind bind]. intros [= <- <-].
  exists b0, b1, ext, key, payload.
  assert (Hk : s1 = key ++ payload ++ s3
               /\ length key = (if mask then 4 else 0)%nat).
  { destruct mask.
    - apply reader_ok in Hkey as [-> Hk]. split; [reflexivity|lia].
    - injection Hkey as <- <-. auto. }
  destruct Hk as [-> Hk].
  assert (Hlen' : len = Z.of_nat (length payload)) by lia. subst len.
  cbn [Frame.data Frame.opcode Frame.fin Frame.rsv1 Frame.rsv2 Frame.rsv3
       frames.data frames.opcode frames.fin frames.rsv1 frames.rsv2
       frames.rsv3].
  split; [reflexivity|]. split; [exact Hann|]. split; [exact Hk|]. split.
  { destruct mask.
    - unfold apply_mask in Hdata. rewrite Hk in Hdata. cbn in Hdata.
      injection Hdata as <-. reflexivity.
    - injection Hdata as <-. reflexivity. }
  split; [exact Hop|]. repeat (split; [reflexivity|]).
  split; [exact Hmask|].
  intros m ->. apply Z.ltb_ge in Hmax. exact Hmax.
Qed.

Lemma read_consumes_one_frame_witness :
  let f := Frame.mk true frames.TEXT [x68; x69] false false false in
  Frame.read true (Some 16) None masked_hi = Ok (f, [x88; x00])
  /\ exists b0 b1 ext key payload,
    masked_hi = b0 :: b1 :: ext ++ key ++ payload ++ [x88; x00]
    /\ announced_length b1 ext = Some (Z.of_nat (length payload))
    /\ length key = 4%nat
    /\ Frame.data f = mask_from 0 payload key
    /\ frames.Opcode_of (Z.land (byte_val b0) 0x0F) = Ok (Frame.opcode f)
    /\ Frame.fin f = truthy (Z.land (byte_val b0) 0x80)
    /\ Frame.rsv1 f = truthy (Z.land (byte_val b0) 0x40)
    /\ Frame.rsv2 f = truthy (Z.land (byte_val b0) 0x20)
    /\ Frame.rsv3 f = truthy (Z.land (byte_val b0) 0x10)
    /\ truthy (Z.land (byte_val b1) 0x80) = true
    /\ (forall m, Some 16 = Some m -> Z.of_nat (length payload) <= m).
Proof.
  split; [reflexivity|].
  apply (read_consumes_one_frame true (Some 16) masked_hi [x88; x00]
           (Frame.mk true frames.TEXT [x68; x69] false false false)).
  reflexivity.
Defined.

(** X9. Whatever the extensions return, a frame that [Frame.read] returns
    passes [check]: a frame that an extension leaves invalid is refused
    instead of returned. *)
Theorem read_result_passes_check (mask : bool) (max_size : option Z)
    (exts : option (list Extension)) (stream rest : bytes) (f : Frame.t) :
  Frame.read mask max_size exts stream = Ok (f, rest) ->
  Frame.check f = Ok ().
Proof.
  unfold Frame.read.
  destruct (Frame.read_wire mask max_size stream) as [[wire s]|];
    [|discriminate].
  cbn [mbind res_bind bind].
  destruct (Frame.decode_loop _ max_size wire) as [nf|]; [|discriminate].
  cbn [mbind res_bind bind].
  destruct (frames.check nf) as [[]|] eqn:Hc; [|discriminate].
  cbn [mbind res_bind bind]. intros [= <- <-].
  unfold Frame.check, Frame.new_frame. cbn. destruct nf. exact Hc.
Qed.

Lemma read_result_passes_check_witness :
  Frame.check (Frame.mk true frames.BINARY [x01; x02; xff] false false false)
  = Ok ().
Proof.
  apply (read_result_passes_check false None
           (Some [prepend_byte x01; prepend_byte x02]) [x82; x01; xff] []).
  reflexivity.
Defined.

(** ** Reading frames: the three encodings of the length *)

Lemma first_byte_bits (fin : bool) (op : frames.Opcode) :
  let h := byte_val (first_byte fin op) in
  frames.Opcode_of (Z.land h 0x0F) = Ok op
  /\ truthy (Z.land h 0x80) = fin
  /\ truthy (Z.land h 0x40) = false
  /\ truthy (Z.land h 0x20) = false
  /\ truthy (Z.land h 0x10) = false.
Proof. destruct fin, op; repeat split. Qed.

Lemma length_byte_bits (b : Byte.byte) :
  byte_val b <= 125 ->
  Z.land (byte_val b) 0x7F = byte_val b
  /\ truthy (Z.land (byte_val b) 0x80) = false.
Proof.
  destruct b; intros H;
    first [ split; reflexivity | exfalso; apply H; reflexivity ].
Qed.

Lemma check_plain (fin : bool) (op : frames.Opcode) (data : bytes) :
  ctrl_ok fin op data ->
  frames.check (frames.mkFrame op data fin false false false) = Ok ().
Proof.
  intros Hc. unfold frames.check. cbn.
  destruct (frames.is_ctrl op) eqn:Hctrl; [|reflexivity].
  destruct (Hc Hctrl) as [-> Hlen].
  replace (125 <? Z.of_nat (length data)) with false
    by (symmetry; apply Z.ltb_ge; lia).
  reflexivity.
Qed.

(** The rest of the read once the header and the length are known. *)
Lemma read_unmasked_payload (max_size : option Z) (fin : bool)
    (op : frames.Opcode) (b1 : Byte.byte) (ext data rest : bytes) :
  truthy (Z.land (byte_val b1) 0x80) = false ->
  Frame.read_length (byte_val b1) (ext ++ data ++ rest)
  = Ok (Z.of_nat (length data), data ++ rest) ->
  ctrl_ok fin op data ->
  (forall m, max_size = Some m -> Z.of_nat (length data) <= m) ->
  Frame.read false max_size None (first_byte fin op :: b1 :: ext ++ data ++ rest)
  = Ok (Frame.mk fin op data false false false, rest).
Proof.
  intros Hmask Hlen Hctrl Hmax. unfold Frame.read.
  rewrite read_wire_header.
  destruct (first_byte_bits fin op) as (-> & -> & -> & -> & ->).
  rewrite Hmask, Hlen. cbn [eqb negb mbind res_bind bind].
  replace (match max_size with
           | Some m => m <? Z.of_nat (length data)
           | None => false
           end) with false.
  2:{ destruct max_size as [m|]; [|reflexivity].
      symmetry. apply Z.ltb_ge. exact (Hmax m eq_refl). }
  rewrite reader_app.
  cbn [mbind res_bind bind default rev Frame.decode_loop].
  rewrite (check_plain fin op data Hctrl). reflexivity.
Qed.

(** X10. An unmasked frame of at most 125 bytes, written as its first
    byte, one length byte and the payload, is read back as that frame,
    and the bytes after it are returned as the rest of the stream;
    a control frame must be final, as [check] demands. *)
Theorem read_short_frame (max_size : option Z) (fin : bool)
    (op : frames.Opcode) (data rest : bytes) :
  (length data <= 125)%nat ->
  ctrl_ok fin op data ->
  (forall m, max_size = Some m -> Z.of_nat (length data) <= m) ->
  Frame.read false max_size None
    (first_byte fin op :: byte_of_Z (Z.of_nat (length data)) :: data ++ rest)
  = Ok (Frame.mk fin op data false false false, rest).
Proof.
  intros Hlen Hctrl Hmax.
  assert (Hv : byte_val (byte_of_Z (Z.of_nat (length data)))
               = Z.of_nat (length data)) by (apply byte_val_of_Z; lia).
  destruct (length_byte_bits (byte_of_Z (Z.of_nat (length data))))
    as [H7 Hm]; [lia|].
  apply (read_unmasked_payload max_size fin op _ [] data rest Hm);
    [|assumption|assumption].
  unfold Frame.read_length. rewrite H7, Hv. cbn [app].
  replace (Z.of_nat (length data) =? 126) with false
    by (symmetry; apply Z.eqb_neq; lia).
  replace (Z.of_nat (length data) =? 127) with false
    by (symmetry; apply Z.eqb_neq; lia).
  reflexivity.
Qed.

Lemma read_short_frame_witness :
  Frame.read false (Some 1024) None
    (first_byte true frames.PING
       :: byte_of_Z (Z.of_nat (length [xab])) :: [xab] ++ [x81; x00])
  = Ok (Frame.mk true frames.PING [xab] false false false, [x81; x00]).
Proof.
  apply (read_short_frame (Some 1024) true frames.PING [xab] [x81; x00]).
  - cbn. lia.
  - intros _. cbn. split; [reflexivity|lia].
  - intros m [= <-]. cbn. lia.
Defined.



(** ** Negotiating extensions *)

Lemma negotiate_one_accepted name params factories accepted h ext :
  WebSocketServerProtocol.negotiate_one name params factories accepted
  = inr (Some (h, ext)) ->
  fst h = name
  /\ exists f, f ∈ factories
               /\ WebSocketServerProtocol.factory_name f = name.
Proof.
  induction factories as [|f factories IH];
    cbn [WebSocketServerProtocol.negotiate_one]; [discriminate|].
  destruct (String.eqb_spec (WebSocketServerProtocol.factory_name f) name)
    as [Hn|Hn]; cbn [negb].
  - destruct (WebSocketServerProtocol.process_request_params f params accepted).
    + intros [= <- <-]. split; [reflexivity|]. exists f. split; [left|exact Hn].
    + intros H. destruct (IH H) as (Hh & f' & Hin & Hf').
      split; [exact Hh|]. exists f'. split; [right; exact Hin|exact Hf'].
    + discriminate.
  - intros H. destruct (IH H) as (Hh & f' & Hin & Hf').
    split; [exact Hh|]. exists f'. split; [right; exact Hin|exact Hf'].
Qed.

Lemma negotiate_appends offers factories :
  forall hs es hs' es',
  WebSocketServerProtocol.negotiate offers factories hs es = inr (hs', es') ->
  exists new,
    hs' = hs ++ new
    /\ length es' = (length es + length new)%nat
    /\ map fst new `sublist_of` map fst offers
    /\ Forall (fun h => exists f,
                 f ∈ factories
                 /\ WebSocketServerProtocol.factory_name f = fst h) new.
Proof.
  induction offers as [|[name params] offers IH]; intros hs es hs' es';
    cbn [WebSocketServerProtocol.negotiate].
  - intros [= <- <-]. exists []. rewrite app_nil_r. cbn.
    repeat split; [lia | constructor | constructor].
  - destruct (WebSocketServerProtocol.negotiate_one name params factories es)
      as [e|[[h ext]|]] eqn:Hone; [discriminate| |].
    + intros H. apply IH in H as (new & -> & Hlen & Hsub & Hall).
      apply negotiate_one_accepted in Hone as (Hh & f & Hin & Hf).
      exists (h :: new). rewrite <- app_assoc. cbn [app map].
      rewrite length_app in Hlen. cbn [length] in *.
      repeat split; [lia| |].
      * rewrite Hh. apply sublist_skip. exact Hsub.
      * constructor; [|exact Hall]. exists f. rewrite Hh. auto.
    + intros H. apply IH in H as (new & -> & Hlen & Hsub & Hall).
      exists new. cbn [map]. repeat split; [exact Hlen| |exact Hall].
      apply sublist_cons. exact Hsub.
Qed.

(** X12. [process_extensions] only selects among what the client
    offered: the extensions it accepts are as many as the headers it
    answers with, each answered by a factory of that name; their names
    are a subsequence of the names offered, in the order of the offer;
    and the response header is absent exactly when nothing is accepted. *)
Theorem process_extensions_accepts_in_order
    (parse : string -> exc + list WebSocketServerProtocol.ExtensionHeader)
    (build : list WebSocketServerProtocol.ExtensionHeader -> string)
    (headers : WebSocketServerProtocol.RequestHeaders)
    (available : option (list WebSocketServerProtocol.ServerExtensionFactory))
    (response_header : option string) (accepted : list Extension) :
  WebSocketServerProtocol.process_extensions parse build headers available
  = inr (response_header, accepted) ->
  exists extension_headers,
    length accepted = length extension_headers
    /\ response_header = match extension_headers with
                         | [] => None
                         | _ :: _ => Some (build extension_headers)
                         end
    /\ Forall (fun h => exists f,
                 f ∈ default [] available
                 /\ WebSocketServerProtocol.factory_name f = fst h)
              extension_headers
    /\ forall offers,
         WebSocketServerProtocol.parse_all parse
           (WebSocketServerProtocol.get_all headers "Sec-WebSocket-Extensions")
         = inr offers ->
         map fst extension_headers `sublist_of` map fst offers.
Proof.
  unfold WebSocketServerProtocol.process_extensions.
  set (values := WebSocketServerProtocol.get_all headers _).
  assert (Hnone : forall hs es,
    (inr (match hs with [] => None | _ :: _ => Some (build hs) end, es)
       : exc + (option string * list Extension))
    = inr (response_header, accepted) ->
    hs = [] -> es = [] ->
    exists extension_headers : list WebSocketServerProtocol.ExtensionHeader,
      length accepted = length extension_headers
      /\ response_header = match extension_headers with
                           | [] => None
                           | _ :: _ => Some (build extension_headers)
                           end
      /\ Forall (fun h => exists f,
                   f ∈ default [] available
                   /\ WebSocketServerProtocol.factory_name f = fst h)
                extension_headers
      /\ forall offers,
           WebSocketServerProtocol.parse_all parse values = inr offers ->
           map fst extension_headers `sublist_of` map fst offers).
  { intros hs es H -> ->. injection H as <- <-. exists [].
    repeat split; [constructor|]. intros offers _. apply sublist_nil_l. }
  destruct values as [|v values'] eqn:Hvalues.
  { intros H. exact (Hnone [] [] H eq_refl eq_refl). }
  destruct available as [[|f factories]|].
  2: destruct (WebSocketServerProtocol.parse_all parse (v :: values'))
       as [e|offers] eqn:Hparse; [discriminate|].
  2: destruct (WebSocketServerProtocol.negotiate offers (f :: factories) [] [])
       as [e|[hs es]] eqn:Hneg; [discriminate|].
  2: { intros [= <- <-].
       apply negotiate_appends in Hneg as (new & Hhs & Hlen & Hsub & Hall).
       cbn in Hhs, Hlen. subst hs. exists new.
       repeat split; [exact Hlen|exact Hall|].
       intros offers' [= <-]. exact Hsub. }
  all: intros H; exact (Hnone [] [] H eq_refl eq_refl).
Qed.

Lemma process_extensions_accepts_in_order_witness :
  let headers := request_of sample_request in
  WebSocketServerProtocol.process_extensions parse_name build_names headers
    (Some sample_factories)
  = inr (Some "permessage-deflate"%string, [clear_rsv1])
  /\ exists extension_headers,
    length [clear_rsv1] = length extension_headers
    /\ Some "permessage-deflate"%string
       = match extension_headers with
         | [] => None
         | _ :: _ => Some (build_names extension_headers)
         end
    /\ Forall (fun h => exists f,
                 f ∈ default [] (Some sample_factories)
                 /\ WebSocketServerProtocol.factory_name f = fst h)
              extension_headers
    /\ forall offers,
         WebSocketServerProtocol.parse_all parse_name
           (WebSocketServerProtocol.get_all headers "Sec-WebSocket-Extensions")
         = inr offers ->
         map fst extension_headers `sublist_of` map fst offers.
Proof.
  split; [reflexivity|].
  apply (process_extensions_accepts_in_order parse_name build_names
           (request_of sample_request) (Some sample_factories)
           (Some "permessage-deflate"%string) [clear_rsv1]).
  reflexivity.
Defined.

(** ** Negotiating the subprotocol *)

Lemma select_subprotocol_common
    (iter : gset Subprotocol -> list Subprotocol)
    (client server : list Subprotocol) :
  iteration iter ->
  exists r,
    WebSocketServerProtocol.select_subprotocol iter None client server = Ok r
    /\ (forall p, r = Some p -> p ∈ client /\ p ∈ server)
    /\ (r = None <-> forall p, p ∈ client -> p ∉ server).
Proof.
  intros Hiter. unfold WebSocketServerProtocol.select_subprotocol.
  set (common := list_to_set client ∩ list_to_set server : gset Subprotocol).
  set (priority := fun p : Subprotocol =>
         i ← list_index client p; j ← list_index server p; Ok (i + j)%nat).
  assert (Hcommon : forall x, x ∈ common <-> x ∈ client /\ x ∈ server).
  { intros x. unfold common.
    rewrite elem_of_intersection, !elem_of_list_to_set. reflexivity. }
  destruct (decide (common = ∅)) as [He|Hne].
  { exists None. split; [reflexivity|]. split; [discriminate|].
    split; [|reflexivity]. intros _ p Hc Hs.
    assert (Hp : p ∈ common) by (apply Hcommon; auto).
    rewrite He in Hp. destruct (not_elem_of_empty p Hp). }
  destruct (Hiter common) as [_ Hin].
  destruct (keyed_ok priority (iter common)) as (kl & Hkl & Hmap & Hkey).
  { intros x Hx. apply Hin, Hcommon in Hx as [Hc Hs].
    destruct (list_index_elem _ _ Hc) as [i Hi].
    destruct (list_index_elem _ _ Hs) as [j Hj].
    exists (i + j)%nat. unfold priority. rewrite Hi, Hj. reflexivity. }
  assert (Hkl_ne : kl <> []).
  { intros ->. cbn in Hmap. apply Hne. apply set_eq. intros x.
    split; [intros Hx|intros Hx; destruct (not_elem_of_empty x Hx)].
    apply Hin in Hx. rewrite <- Hmap in Hx. inversion Hx. }
  destruct (sort_keyed_head kl Hkl_ne) as ([k p] & rest & Hsort & _).
  unfold sorted. rewrite Hkl. cbn. rewrite Hsort. cbn.
  assert (Hp : (k, p) ∈ kl).
  { apply sort_keyed_elem. rewrite Hsort. left. }
  assert (Hpc : p ∈ iter common).
  { rewrite <- Hmap. apply (list_elem_of_fmap_2 snd _ _ Hp). }
  apply Hin, Hcommon in Hpc as [Hpcl Hpsv].
  exists (Some p). split; [reflexivity|]. split.
  - intros q [= <-]. auto.
  - split; [discriminate|]. intros Hnone. destruct (Hnone p Hpcl Hpsv).
Qed.

(** X13. With the default selection, [process_subprotocol] does not
    raise once the header values parse, whatever the order in which the
    set of common subprotocols is iterated.  What it selects was offered
    by the client and is available on the server, and it selects nothing
    exactly when no subprotocol offered is available: in particular when
    the request has no such header or the server has no subprotocols. *)
Theorem process_subprotocol_selects_common
    (parse : string -> exc + list Subprotocol)
    (iter : gset Subprotocol -> list Subprotocol)
    (headers : WebSocketServerProtocol.RequestHeaders)
    (available : option (list Subprotocol)) (offered : list Subprotocol) :
  iteration iter ->
  WebSocketServerProtocol.parse_all parse
    (WebSocketServerProtocol.get_all headers "Sec-WebSocket-Protocol")
  = inr offered ->
  exists r,
    WebSocketServerProtocol.process_subprotocol parse iter None headers available
    = inr r
    /\ (forall p, r = Some p -> p ∈ offered /\ p ∈ default [] available)
    /\ (r = None <-> forall p, p ∈ offered -> p ∉ default [] available).
Proof.
  intros Hiter. unfold WebSocketServerProtocol.process_subprotocol.
  set (values := WebSocketServerProtocol.get_all headers _).
  assert (Hnone : (forall p, p ∈ offered -> p ∉ default [] available) ->
    exists r : option Subprotocol,
      (inr None : exc + option Subprotocol) = inr r
      /\ (forall p, r = Some p -> p ∈ offered /\ p ∈ default [] available)
      /\ (r = None <-> forall p, p ∈ offered -> p ∉ default [] available)).
  { intros H. exists None. split; [reflexivity|]. split; [discriminate|].
    split; [intros _; exact H|reflexivity]. }
  destruct values as [|v values'] eqn:Hvalues; intros Hparse.
  { cbn in Hparse. injection Hparse as <-. apply Hnone.
    intros p Hp. inversion Hp. }
  destruct available as [[|a available']|].
  2: { rewrite Hparse.
       destruct (select_subprotocol_common iter offered (a :: available') Hiter)
         as (r & -> & Hsome & Hnone').
       exists r. split; [reflexivity|]. split; assumption. }
  all: apply Hnone; intros p _ Hp; inversion Hp.
Qed.

Lemma process_subprotocol_selects_common_witness :
  let headers := request_of sample_request in
  exists r,
    WebSocketServerProtocol.process_subprotocol parse_token elements None headers
      (Some ["mqtt"; "chat"]%string)
    = inr r
    /\ (forall p, r = Some p ->
        p ∈ ["chat"%string]
        /\ p ∈ default [] (Some ["mqtt"; "chat"]%string))
    /\ (r = None <->
        forall p, p ∈ ["chat"%string] ->
                  p ∉ default [] (Some ["mqtt"; "chat"]%string)).
Proof.
  apply (process_subprotocol_selects_common parse_token elements
           (request_of sample_request) (Some ["mqtt"; "chat"]%string)
           ["chat"%string]).
  - apply iteration_elements.
  - reflexivity.
Defined.

(** ** The opening handshake and the handler *)

Ltac handshake_start Hread Hreq Hclosed :=
  unfold WebSocketServerProtocol.connection, WebSocketServerProtocol.handshake,
    WebSocketServerProtocol.read_http_request;
  rewrite Hread, Hreq, Hclosed.

(** X14. While the server is shutting down, a connection whose request
    has been read, and which has not been closed by the time
    [process_request] returns, is answered with 503 and closed, whatever
    [process_request] returned for it, even a response of its own: the
    request is not checked and the connection handler does not run. *)
Theorem connection_while_shutting_down
    (v : WebSocketServerProtocol.env)
    (c : WebSocketServerProtocol.collaborators)
    (cfg : WebSocketServerProtocol.config) (ws_handler close : option exc)
    (path : string) (request_headers : WebSocketServerProtocol.RequestHeaders)
    (early_response : option WebSocketServerProtocol.HTTPResponse) :
  WebSocketServerProtocol.read_request c = inr (path, request_headers) ->
  WebSocketServerProtocol.process_request
    (WebSocketServerProtocol._process_request cfg) path request_headers
  = inr early_response ->
  WebSocketServerProtocol.state_closed c = false ->
  WebSocketServerProtocol.is_serving c = false ->
  let body := ("Server is shutting down." ++ LF)%string in
  WebSocketServerProtocol.connection v c cfg ws_handler close
  = ([WriteHttpResponse 503 (error_headers v body) body;
      CloseTransport; Unregister], None).
Proof.
  intros Hread Hreq Hclosed Hserving body.
  handshake_start Hread Hreq Hclosed. rewrite Hserving.
  destruct v as [date ua len py cl]. destruct py; reflexivity.
Qed.

Lemma connection_while_shutting_down_witness :
  let c := sample_collaborators sample_request false in
  let body := ("Server is shutting down." ++ LF)%string in
  WebSocketServerProtocol.connection sample_env c health_check_config None None
  = ([WriteHttpResponse 503 (error_headers sample_env body) body;
      CloseTransport; Unregister], None).
Proof.
  apply (connection_while_shutting_down sample_env
           (sample_collaborators sample_request false) health_check_config
           None None "/chat"%string (request_of sample_request)
           (Some (200, [("content-type", "text/html")], "OK"))%string);
    reflexivity.
Defined.

(** X15. When the server is serving, [process_request] returns a
    response, and the connection has not been closed by then, the
    request is not checked, nothing is negotiated and the connection
    handler does not run.  When the headers of the response have at most
    one value for each of Date, Server, Content-Length, Content-Type and
    Connection, whatever the case of the letters, the client gets the
    response: its status, its body, and its headers followed by those of
    the five that were missing, so that each of the five has one value;
    then the transport is closed.  When one of the five names has several
    values, completing the headers raises [MultipleValuesError]: nothing
    is written and the transport is closed. *)
Theorem connection_early_response
    (v : WebSocketServerProtocol.env)
    (c : WebSocketServerProtocol.collaborators)
    (cfg : WebSocketServerProtocol.config) (ws_handler close : option exc)
    (path : string) (request_headers : WebSocketServerProtocol.RequestHeaders)
    (status : Z) (headers : Headers) (body : string) :
  WebSocketServerProtocol.read_request c = inr (path, request_headers) ->
  WebSocketServerProtocol.process_request
    (WebSocketServerProtocol._process_request cfg) path request_headers
  = inr (Some (status, headers, body)) ->
  WebSocketServerProtocol.state_closed c = false ->
  WebSocketServerProtocol.is_serving c = true ->
  (Forall (fun key => (length (values_of key headers) <= 1)%nat)
          WebSocketServerProtocol.default_header_names ->
   exists added,
     WebSocketServerProtocol.connection v c cfg ws_handler close
     = ([WriteHttpResponse status (headers ++ added) body;
         CloseTransport; Unregister], None)
     /\ added `sublist_of` error_headers v body
     /\ Forall (fun key => length (values_of key (headers ++ added)) = 1%nat)
               WebSocketServerProtocol.default_header_names)
  /\ (Exists (fun key => (2 <= length (values_of key headers))%nat)
             WebSocketServerProtocol.default_header_names ->
      WebSocketServerProtocol.connection v c cfg ws_handler close
      = ([TransportClose; Unregister], None)).
Proof.
  intros Hread Hreq Hclosed Hserving.
  assert (Hconn :
    WebSocketServerProtocol.connection v c cfg ws_handler close
    = (match WebSocketServerProtocol.set_default_headers v body headers with
       | inr headers' =>
         [WriteHttpResponse status headers' body; CloseTransport; Unregister]
       | inl _ => [TransportClose; Unregister]
       end, None)).
  { handshake_start Hread Hreq Hclosed. rewrite Hserving. cbn [negb].
    rewrite handler_abort_handshake. reflexivity. }
  rewrite Hconn. split.
  - intros Hall.
    destruct (set_default_headers_returns v body headers Hall)
      as (added & -> & Hsub & Hones).
    exists added. repeat split; assumption.
  - intros Hex.
    destruct (set_default_headers_raises v body headers Hex) as [key ->].
    reflexivity.
Qed.

Lemma connection_early_response_witness :
  let c := sample_collaborators sample_request true in
  let headers := [("content-type", "text/html")]%string in
  (Forall (fun key => (length (values_of key headers) <= 1)%nat)
          WebSocketServerProtocol.default_header_names ->
   exists added,
     WebSocketServerProtocol.connection sample_env c health_check_config
       None None
     = ([WriteHttpResponse 200 (headers ++ added) "OK";
         CloseTransport; Unregister], None)
     /\ added `sublist_of` error_headers sample_env "OK"
     /\ Forall (fun key => length (values_of key (headers ++ added)) = 1%nat)
               WebSocketServerProtocol.default_header_names)
  /\ (Exists (fun key => (2 <= length (values_of key headers))%nat)
             WebSocketServerProtocol.default_header_names ->
      WebSocketServerProtocol.connection sample_env c health_check_config
        None None
      = ([TransportClose; Unregister], None)).
Proof.
  apply (connection_early_response sample_env
           (sample_collaborators sample_request true) health_check_config
           None None "/chat"%string (request_of sample_request)
           200 [("content-type", "text/html")]%string "OK"%string);
    reflexivity.
Defined.

(** The response of the health check is sent with its own content type,
    spelled as it is, and the four other headers. *)
Example health_check_response :
  fst (WebSocketServerProtocol.connection
         (WebSocketServerProtocol.mkEnv "Thu, 01 Jan 1970 00:00:00 GMT"
            "Python/3.9 websockets/10.0" (fun _ => "2") false false)
         (sample_collaborators sample_request true) health_check_config
         None None)
  = [WriteHttpResponse 200
       [("content-type", "text/html");
        ("Date", "Thu, 01 Jan 1970 00:00:00 GMT");
        ("Server", "Python/3.9 websockets/10.0");
        ("Content-Length", "2");
        ("Connection", "close")]%string "OK";
     CloseTransport; Unregister].
Proof. reflexivity. Qed.



(** X17. The empty string in the [origins] given to the constructor
    stands for the lack of an origin, and for nothing else: a request
    without Origin header is accepted, a request whose Origin header is
    empty is refused as [InvalidOrigin], and every other origin is
    treated as the list given says. *)
Theorem init_origins_empty_string
    (texts : WebSocketServerProtocol.exception_texts)
    (headers : WebSocketServerProtocol.RequestHeaders)
    (origins : list (option string)) :
  Some ""%string ∈ origins ->
  let process :=
    WebSocketServerProtocol.process_origin texts headers in
  let stored := WebSocketServerProtocol.init_origins (Some origins) in
  (WebSocketServerProtocol.get headers "Origin" = Some None ->
   process stored = inr None)
  /\ (WebSocketServerProtocol.get headers "Origin" = Some (Some ""%string) ->
      exists e, process stored = inl e /\ exc_cls e = ClsInvalidOrigin)
  /\ (forall origin, origin <> ""%string ->
      WebSocketServerProtocol.get headers "Origin" = Some (Some origin) ->
      process stored = process (Some origins)).
Proof.
  intros Hempty process stored. subst process stored.
  unfold WebSocketServerProtocol.init_origins,
    WebSocketServerProtocol.process_origin.
  rewrite bool_decide_eq_true_2 by exact Hempty.
  set (f := fun origin : option string =>
              if bool_decide (origin = Some ""%string) then None else origin).
  assert (Hmap : forall o, o ∈ map f origins <->
                           exists o', o' ∈ origins /\ o = f o').
  { intros o. change (map f origins) with (f <$> origins).
    rewrite list_elem_of_fmap. split; intros (o' & H1 & H2); eauto. }
  repeat split.
  - intros ->. rewrite bool_decide_eq_true_2; [reflexivity|].
    apply Hmap. exists (Some ""%string). split; [exact Hempty|].
    unfold f. rewrite bool_decide_eq_true_2; reflexivity.
  - intros ->. rewrite bool_decide_eq_false_2; [eexists; split; reflexivity|].
    intros Hin. apply Hmap in Hin as (o' & _ & Ho'). unfold f in Ho'.
    destruct (bool_decide_reflect (o' = Some ""%string)); congruence.
  - intros origin Hne ->.
    assert (Hiff : Some origin ∈ map f origins <-> Some origin ∈ origins).
    { rewrite Hmap. split.
      - intros (o' & Hin & Ho'). unfold f in Ho'.
        destruct (bool_decide_reflect (o' = Some ""%string)); congruence.
      - intros Hin. exists (Some origin). split; [exact Hin|].
        unfold f. rewrite bool_decide_eq_false_2; congruence. }
    destruct (bool_decide_reflect (Some origin ∈ origins)) as [Hin|Hin].
    + rewrite bool_decide_eq_true_2; [reflexivity|]. apply Hiff, Hin.
    + rewrite bool_decide_eq_false_2; [reflexivity|]. rewrite Hiff. exact Hin.
Qed.

Lemma init_origins_empty_string_witness :
  let origins := [Some "https://example.com"; Some ""]%string in
  let process :=
    WebSocketServerProtocol.process_origin sample_texts (request_of []) in
  let stored := WebSocketServerProtocol.init_origins (Some origins) in
  WebSocketServerProtocol.get (request_of []) "Origin" = Some None
  /\ (WebSocketServerProtocol.get (request_of []) "Origin" = Some None ->
   process stored = inr None)
  /\ (WebSocketServerProtocol.get (request_of []) "Origin"
      = Some (Some ""%string) ->
      exists e, process stored = inl e /\ exc_cls e = ClsInvalidOrigin)
  /\ (forall origin, origin <> ""%string ->
      WebSocketServerProtocol.get (request_of []) "Origin"
      = Some (Some origin) ->
      process stored = process (Some origins)).
Proof.
  split; [reflexivity|].
  apply (init_origins_empty_string sample_texts (request_of [])
           [Some "https://example.com"; Some ""]%string).
  right. left.
Defined.

(** ** What a successful handshake guarantees *)

Lemma setdefault_elem (key value : string) (headers headers' : Headers)
    (kv : string * string) :
  setdefault key value headers = inr headers' ->
  kv ∈ headers -> kv ∈ headers'.
Proof.
  intros Hset Hin.
  apply setdefault_returns in Hset as (_ & (added & -> & _) & _).
  apply elem_of_app. left. exact Hin.
Qed.

(** X18. When [handshake] returns, it has written one response, with
    status 101 and the headers it stored; the server was serving; the
    origin of the request is in the allow-list, if there is one; the
    subprotocol it selected, if any, and the fact that it accepted
    extensions are announced in the response headers, with as many
    extensions accepted as [process_extensions] returned. *)
Theorem handshake_success
    (v : WebSocketServerProtocol.env)
    (c : WebSocketServerProtocol.collaborators)
    (cfg : WebSocketServerProtocol.config)
    (written : list effect) (o : WebSocketServerProtocol.opened) :
  WebSocketServerProtocol.handshake v c cfg = (written, inr o) ->
  written = [WriteHttpResponse 101 (WebSocketServerProtocol.response_headers o) ""]
  /\ WebSocketServerProtocol.is_serving c = true
  /\ (exists request_headers,
        WebSocketServerProtocol.read_request c
        = inr (WebSocketServerProtocol.path o, request_headers)
        /\ WebSocketServerProtocol.process_request
             (WebSocketServerProtocol._process_request cfg)
             (WebSocketServerProtocol.path o) request_headers
           = inr None
        /\ WebSocketServerProtocol.get request_headers "Origin"
           = Some (WebSocketServerProtocol.origin o)
        /\ exists extensions_header,
             WebSocketServerProtocol.process_extensions
               (WebSocketServerProtocol.parse_extension c)
               (WebSocketServerProtocol.build_extension c)
               request_headers (WebSocketServerProtocol.available_extensions cfg)
             = inr (extensions_header, WebSocketServerProtocol.extensions o)
             /\ forall h, extensions_header = Some h ->
                  ("Sec-WebSocket-Extensions"%string, h)
                  ∈ WebSocketServerProtocol.response_headers o)
  /\ (forall allowed,
        WebSocketServerProtocol.origins cfg = Some allowed ->
        WebSocketServerProtocol.origin o ∈ allowed)
  /\ (forall p,
        WebSocketServerProtocol.subprotocol o = Some p ->
        ("Sec-WebSocket-Protocol"%string, p)
        ∈ WebSocketServerProtocol.response_headers o).
Proof.
  unfold WebSocketServerProtocol.handshake,
    WebSocketServerProtocol.read_http_request.
  destruct (WebSocketServerProtocol.read_request c)
    as [e|[path request_headers]].
  { destruct (WebSocketServerProtocol.isinstance v e ClsCancelledError);
      [discriminate|].
    destruct (WebSocketServerProtocol.isinstance v e ClsException);
      discriminate. }
  destruct (WebSocketServerProtocol.process_request _ path request_headers)
    as [e|early] eqn:Hreq; [discriminate|].
  destruct (WebSocketServerProtocol.state_closed c); [discriminate|].
  destruct (WebSocketServerProtocol.is_serving c); cbn [negb]; [|discriminate].
  destruct early as [[[status headers] body]|]; [discriminate|].
  destruct (WebSocketServerProtocol.check_request c request_headers)
    as [e|key]; [discriminate|].
  destruct (WebSocketServerProtocol.process_origin _ request_headers _)
    as [e|origin] eqn:Horigin; [discriminate|].
  destruct (WebSocketServerProtocol.process_extensions _ _ request_headers _)
    as [e|[extensions_header extensions]] eqn:Hext; [discriminate|].
  destruct (WebSocketServerProtocol.process_subprotocol _ _ _ request_headers _)
    as [e|protocol_header]; [discriminate|].
  match goal with
  | |- context [match ?x with inl _ => _ | inr _ => _ end] =>
    destruct x as [e|extra]; [discriminate|]
  end.
  set (built := match extra with Some _ => _ | None => _ end).
  destruct (setdefault "Date" (WebSocketServerProtocol.date v) built)
    as [e|dated] eqn:Hdate; [discriminate|].
  destruct (setdefault "Server" (WebSocketServerProtocol.USER_AGENT v) dated)
    as [e|served] eqn:Hserver; [discriminate|].
  intros [= <- <-].
  assert (Hkeep : forall kv, kv ∈ built -> kv ∈ served).
  { intros kv Hkv. apply (setdefault_elem _ _ _ _ _ Hserver).
    apply (setdefault_elem _ _ _ _ _ Hdate). exact Hkv. }
  cbn [WebSocketServerProtocol.response_headers WebSocketServerProtocol.path
       WebSocketServerProtocol.origin WebSocketServerProtocol.extensions
       WebSocketServerProtocol.subprotocol].
  unfold WebSocketServerProtocol.process_origin in Horigin.
  split; [reflexivity|]. split; [reflexivity|]. split; [|split].
  - exists request_headers. split; [reflexivity|]. split; [exact Hreq|]. split.
    + destruct (WebSocketServerProtocol.get request_headers "Origin")
        as [got|]; [|discriminate].
      destruct (WebSocketServerProtocol.origins cfg) as [allowed|].
      * destruct (bool_decide (got ∈ allowed)); [|discriminate].
        injection Horigin as <-. reflexivity.
      * injection Horigin as <-. reflexivity.
    + exists extensions_header. split; [exact Hext|]. intros h ->.
      apply Hkeep. subst built.
      destruct extra; [apply elem_of_app; left|];
        (destruct protocol_header; [apply elem_of_app; left|]);
        apply elem_of_app; right; left.
  - intros allowed Hallowed. rewrite Hallowed in Horigin.
    destruct (WebSocketServerProtocol.get request_headers "Origin")
      as [got|]; [|discriminate].
    destruct (bool_decide_reflect (got ∈ allowed)) as [Hin|]; [|discriminate].
    injection Horigin as <-. exact Hin.
  - intros p ->. apply Hkeep. subst built.
    destruct extra; [apply elem_of_app; left|]; apply elem_of_app; right; left.
Qed.

Lemma handshake_success_witness :
  let c := sample_collaborators sample_request true in
  let cfg := sample_config (Some [Some "https://example.com"%string]) in
  let o := sample_opened in
  let written :=
    [WriteHttpResponse 101 (WebSocketServerProtocol.response_headers o) ""] in
  WebSocketServerProtocol.handshake sample_env c cfg = (written, inr o)
  /\ written
     = [WriteHttpResponse 101 (WebSocketServerProtocol.response_headers o) ""]
  /\ WebSocketServerProtocol.is_serving c = true
  /\ (exists request_headers,
        WebSocketServerProtocol.read_request c
        = inr (WebSocketServerProtocol.path o, request_headers)
        /\ WebSocketServerProtocol.process_request
             (WebSocketServerProtocol._process_request cfg)
             (WebSocketServerProtocol.path o) request_headers
           = inr None
        /\ WebSocketServerProtocol.get request_headers "Origin"
           = Some (WebSocketServerProtocol.origin o)
        /\ exists extensions_header,
             WebSocketServerProtocol.process_extensions
               (WebSocketServerProtocol.parse_extension c)
               (WebSocketServerProtocol.build_extension c)
               request_headers (WebSocketServerProtocol.available_extensions cfg)
             = inr (extensions_header, WebSocketServerProtocol.extensions o)
             /\ forall h, extensions_header = Some h ->
                  ("Sec-WebSocket-Extensions"%string, h)
                  ∈ WebSocketServerProtocol.response_headers o)
  /\ (forall allowed,
        WebSocketServerProtocol.origins cfg = Some allowed ->
        WebSocketServerProtocol.origin o ∈ allowed)
  /\ (forall p,
        WebSocketServerProtocol.subprotocol o = Some p ->
        ("Sec-WebSocket-Protocol"%string, p)
        ∈ WebSocketServerProtocol.response_headers o).
Proof.
  split; [reflexivity|].
  apply (handshake_success sample_env
           (sample_collaborators sample_request true)
           (sample_config (Some [Some "https://example.com"%string]))
           [WriteHttpResponse 101
              (WebSocketServerProtocol.response_headers sample_opened) ""]
           sample_opened).
  reflexivity.
Defined.

(** What [handshake] writes: the response 101 when it returns, and
    nothing when it raises. *)
Lemma handshake_writes
    (v : WebSocketServerProtocol.env)
    (c : WebSocketServerProtocol.collaborators)
    (cfg : WebSocketServerProtocol.config) :
  fst (WebSocketServerProtocol.handshake v c cfg)
  = match snd (WebSocketServerProtocol.handshake v c cfg) with
    | inr o =>
      [WriteHttpResponse 101 (WebSocketServerProtocol.response_headers o) ""]
    | inl _ => []
    end.
Proof.
  unfold WebSocketServerProtocol.handshake,
    WebSocketServerProtocol.read_http_request.
  repeat match goal with
  | |- context [match ?x with _ => _ end] =>
    lazymatch x with
    | context [match _ with _ => _ end] => fail
    | _ => destruct x; try reflexivity
    end
  end.
Qed.

Lemma handler_failed_handshake (v : WebSocketServerProtocol.env) (e : exc)
    (ws_handler close : option exc) :
  exists effects,
    fst (WebSocketServerProtocol.handler v (inl e) ws_handler close)
    = effects ++ [Unregister]
    /\ (Unregister ∉ effects)
    /\ forall path, RunWsHandler path ∉ effects ++ [Unregister].
Proof.
  unfold WebSocketServerProtocol.handler, WebSocketServerProtocol.handler_try.
  assert (Hno : forall l : list effect,
    Forall (fun x => x <> Unregister /\ forall path, x <> RunWsHandler path) l ->
    (Unregister ∉ l) /\ forall path, RunWsHandler path ∉ l ++ [Unregister]).
  { intros l Hl. rewrite Forall_forall in Hl. split.
    - intros Hin. destruct (Hl _ Hin) as [H _]. congruence.
    - intros path Hin. apply elem_of_app in Hin as [Hin|Hin].
      + destruct (Hl _ Hin) as [_ H]. exact (H path eq_refl).
      + apply list_elem_of_singleton in Hin. discriminate. }
  destruct (WebSocketServerProtocol.isinstance v e ClsCancelledError).
  { destruct (WebSocketServerProtocol.isinstance v e ClsException).
    - exists [TransportClose]. split; [reflexivity|]. apply Hno.
      repeat constructor; discriminate.
    - exists []. split; [reflexivity|]. apply Hno. constructor. }
  destruct (WebSocketServerProtocol.isinstance v e ClsConnectionError).
  { destruct (WebSocketServerProtocol.isinstance v e ClsException).
    - exists [TransportClose]. split; [reflexivity|]. apply Hno.
      repeat constructor; discriminate.
    - exists []. split; [reflexivity|]. apply Hno. constructor. }
  destruct (WebSocketServerProtocol.isinstance v e ClsException) eqn:Hexc.
  - destruct (WebSocketServerProtocol.error_response v e) as [[status hs] body].
    destruct (WebSocketServerProtocol.set_default_headers v body hs)
      as [raised|hs'] eqn:Hset.
    + apply set_default_headers_raised in Hset as [key ->].
      rewrite isinstance_MultipleValuesError.
      exists [TransportClose]. split; [reflexivity|]. apply Hno.
      repeat constructor; discriminate.
    + eexists [_; _]. split; [reflexivity|]. apply Hno.
      repeat constructor; discriminate.
  - rewrite Hexc. exists []. split; [reflexivity|]. apply Hno. constructor.
Qed.

Lemma handler_after_handshake (v : WebSocketServerProtocol.env)
    (path : string) (ws_handler close : option exc) :
  exists rest,
    fst (WebSocketServerProtocol.handler v (inr path) ws_handler close)
    = RunWsHandler path :: rest ++ [Unregister]
    /\ (Unregister ∉ rest)
    /\ Forall after_handler (rest ++ [Unregister]).
Proof.
  unfold WebSocketServerProtocol.handler, WebSocketServerProtocol.handler_try.
  assert (Hno : forall l : list effect,
    Forall (fun x => x <> Unregister /\ after_handler x) l ->
    (Unregister ∉ l) /\ Forall after_handler (l ++ [Unregister])).
  { intros l Hl. split.
    - rewrite Forall_forall in Hl. intros Hin.
      destruct (Hl _ Hin) as [H _]. congruence.
    - apply Forall_app. split.
      + eapply Forall_impl; [exact Hl|]. intros x [_ H]. exact H.
      + repeat constructor. discriminate. }
  assert (Hafter : forall x, is_http_response x = false ->
                             (forall p, x <> RunWsHandler p) ->
                             x <> Unregister ->
                             x <> Unregister /\ after_handler x).
  { intros x H1 H2 H3. repeat split; assumption. }
  destruct ws_handler as [e|].
  - destruct (WebSocketServerProtocol.isinstance v e ClsException) eqn:Hexc.
    + destruct (WebSocketServerProtocol.closed v); rewrite Hexc.
      * exists [TransportClose].
        split; [reflexivity|]. apply Hno.
        repeat constructor; discriminate.
      * exists [FailConnection 1011; TransportClose].
        split; [reflexivity|]. apply Hno.
        repeat constructor; discriminate.
    + rewrite Hexc. exists []. split; [reflexivity|]. apply Hno. constructor.
  - destruct close as [e|].
    + destruct (WebSocketServerProtocol.isinstance v e ClsException).
      * exists [ClosingHandshake; TransportClose].
        split; [reflexivity|]. apply Hno.
        repeat constructor; discriminate.
      * exists [ClosingHandshake]. split; [reflexivity|]. apply Hno.
        repeat constructor; discriminate.
    + exists [ClosingHandshake]. split; [reflexivity|]. apply Hno.
      repeat constructor; discriminate.
Qed.

(** X19. The connection handler runs when, and only when, [handshake]
    has returned: then the response 101 with the headers of the handshake
    is the first thing written, the handler runs next, with the path of
    the request, once, and no other HTTP response follows.  When
    [handshake] raises, the handler does not run. *)
Theorem ws_handler_runs_after_101
    (v : WebSocketServerProtocol.env)
    (c : WebSocketServerProtocol.collaborators)
    (cfg : WebSocketServerProtocol.config) (ws_handler close : option exc) :
  let effects :=
    fst (WebSocketServerProtocol.connection v c cfg ws_handler close) in
  match snd (WebSocketServerProtocol.handshake v c cfg) with
  | inr o =>
    exists rest,
      effects
      = WriteHttpResponse 101 (WebSocketServerProtocol.response_headers o) ""
          :: RunWsHandler (WebSocketServerProtocol.path o) :: rest
      /\ Forall after_handler rest
  | inl _ => forall path, RunWsHandler path ∉ effects
  end.
Proof.
  intros effects. subst effects.
  unfold WebSocketServerProtocol.connection.
  pose proof (handshake_writes v c cfg) as Hw.
  destruct (WebSocketServerProtocol.handshake v c cfg) as [written [e|o]];
    cbn [fst snd] in *; subst written.
  - destruct (handler_failed_handshake v e ws_handler close)
      as (effects & Heff & _ & Hrun).
    destruct (WebSocketServerProtocol.handler v (inl e) ws_handler close)
      as [effects' raised]. cbn [fst] in *. subst effects'. exact Hrun.
  - destruct (handler_after_handshake v (WebSocketServerProtocol.path o)
                ws_handler close) as (rest & Heff & _ & Hrest).
    destruct (WebSocketServerProtocol.handler v
                (inr (WebSocketServerProtocol.path o)) ws_handler close)
      as [effects' raised]. cbn [fst] in *. subst effects'.
    exists (rest ++ [Unregister]). split; [reflexivity|exact Hrest].
Qed.

(** X20. Whatever happens to a connection (the request cannot be read,
    the handshake fails or succeeds, the connection handler or the
    closing handshake raises), the last thing the handler task does is to
    unregister the connection from the server, and it does so once. *)
Theorem connection_unregisters_last
    (v : WebSocketServerProtocol.env)
    (c : WebSocketServerProtocol.collaborators)
    (cfg : WebSocketServerProtocol.config) (ws_handler close : option exc) :
  exists effects,
    fst (WebSocketServerProtocol.connection v c cfg ws_handler close)
    = effects ++ [Unregister]
    /\ Unregister ∉ effects.
Proof.
  unfold WebSocketServerProtocol.connection.
  pose proof (handshake_writes v c cfg) as Hw.
  destruct (WebSocketServerProtocol.handshake v c cfg) as [written [e|o]];
    cbn [fst snd] in *; subst written.
  - destruct (handler_failed_handshake v e ws_handler close)
      as (effects & Heff & Hno & _).
    destruct (WebSocketServerProtocol.handler v (inl e) ws_handler close)
      as [effects' raised]. cbn [fst] in *. subst effects'.
    exists effects. split; [reflexivity|exact Hno].
  - destruct (handler_after_handshake v (WebSocketServerProtocol.path o)
                ws_handler close) as (rest & Heff & Hno & _).
    destruct (WebSocketServerProtocol.handler v
                (inr (WebSocketServerProtocol.path o)) ws_handler close)
      as [effects' raised]. cbn [fst] in *. subst effects'.
    eexists (_ :: _ :: rest). split; [reflexivity|].
    intros Hin. apply elem_of_cons in Hin as [Hin|Hin]; [discriminate|].
    apply elem_of_cons in Hin as [Hin|Hin]; [discriminate|]. exact (Hno Hin).
Qed.

(** X24. When reading the request raises an [Exception] (other than a
    cancellation), the client is answered with 400 and the transport is
    closed, whatever the exception: [read_http_request] turns it into
    [InvalidMessage], so that even a [ConnectionError] raised while
    reading is answered, and is not raised again by [handler]. *)
Theorem connection_unreadable_request
    (v : WebSocketServerProtocol.env)
    (c : WebSocketServerProtocol.collaborators)
    (cfg : WebSocketServerProtocol.config) (ws_handler close : option exc)
    (e : exc) :
  WebSocketServerProtocol.read_request c = inl e ->
  WebSocketServerProtocol.isinstance v e ClsException = true ->
  WebSocketServerProtocol.isinstance v e ClsCancelledError = false ->
  let body :=
    failure_body
      (WebSocketServerProtocol.InvalidMessage_str
         (WebSocketServerProtocol.texts c)
         "did not receive a valid HTTP request") in
  WebSocketServerProtocol.connection v c cfg ws_handler close
  = ([WriteHttpResponse 400 (error_headers v body) body;
      CloseTransport; Unregister], None).
Proof.
  intros Hread Hexc Hcancel body.
  unfold WebSocketServerProtocol.connection, WebSocketServerProtocol.handshake,
    WebSocketServerProtocol.read_http_request.
  rewrite Hread, Hcancel, Hexc.
  destruct v as [date ua len py cl]. destruct py; reflexivity.
Qed.

Lemma connection_unreadable_request_witness :
  let c :=
    WebSocketServerProtocol.mkCollaborators (inl connection_reset) false
      connection_reset true (fun _ => inr ""%string) parse_name build_names
      parse_token (fun _ => []) sample_texts elements in
  let body := failure_body "did not receive a valid HTTP request" in
  WebSocketServerProtocol.isinstance sample_env connection_reset
    ClsConnectionError = true
  /\ WebSocketServerProtocol.connection sample_env c (sample_config None)
       None None
     = ([WriteHttpResponse 400 (error_headers sample_env body) body;
         CloseTransport; Unregister], None).
Proof.
  split; [reflexivity|].
  apply (connection_unreadable_request sample_env
           (WebSocketServerProtocol.mkCollaborators (inl connection_reset) false
              connection_reset true (fun _ => inr ""%string) parse_name
              build_names parse_token (fun _ => []) sample_texts elements)
           (sample_config None) None None connection_reset);
    reflexivity.
Defined.

(** ** The connections of a server *)

(** X21. Unregistering a connection that was registered does not raise
    and leaves the set without it: as it was before, when the connection
    is new.  Registering twice is registering once, and unregistering
    twice raises [KeyError] the second time. *)
Theorem unregister_register (protocol : nat) (websockets : gset nat) :
  WebSocketServer.unregister protocol
    (WebSocketServer.register protocol websockets)
  = Ok (websockets ∖ {[protocol]})
  /\ (protocol ∉ websockets ->
      WebSocketServer.unregister protocol
        (WebSocketServer.register protocol websockets)
      = Ok websockets)
  /\ WebSocketServer.register protocol
       (WebSocketServer.register protocol websockets)
     = WebSocketServer.register protocol websockets
  /\ (forall websockets',
      WebSocketServer.unregister protocol websockets = Ok websockets' ->
      WebSocketServer.unregister protocol websockets'
      = Raise (OtherException "KeyError")).
Proof.
  unfold WebSocketServer.unregister, WebSocketServer.register.
  assert (Hin : protocol ∈ ({[protocol]} ∪ websockets : gset nat)).
  { apply elem_of_union. left. apply elem_of_singleton. reflexivity. }
  assert (Hdiff : ({[protocol]} ∪ websockets) ∖ {[protocol]}
                  = websockets ∖ ({[protocol]} : gset nat)).
  { apply set_eq. intros x.
    rewrite !elem_of_difference, elem_of_union, elem_of_singleton. tauto. }
  repeat split.
  - destruct (decide _) as [_|Hn]; [|contradiction]. rewrite Hdiff. reflexivity.
  - intros Hnew. destruct (decide _) as [_|Hn]; [|contradiction].
    rewrite Hdiff. f_equal. apply set_eq. intros x.
    rewrite elem_of_difference, elem_of_singleton.
    split; [tauto|]. intros Hx. split; [exact Hx|]. intros ->. contradiction.
  - apply set_eq. intros x. rewrite !elem_of_union. tauto.
  - intros websockets'. destruct (decide _) as [_|_]; [|discriminate].
    intros [= <-]. destruct (decide _) as [Hp|_]; [|reflexivity].
    apply elem_of_difference in Hp as [_ Hp]. destruct Hp.
    apply elem_of_singleton. reflexivity.
Qed.

(** ** The events of the client *)

Lemma process_events_later (events : list ClientProtocol.Event)
    (self : ClientProtocol.t) (r : Response) :
  ClientProtocol.response self = Some r ->
  process_events events self = (self, Ok events).
Proof.
  intros Hr. induction events as [|event events IH]; [reflexivity|].
  cbn [process_events]. unfold ClientProtocol.process_event.
  rewrite Hr, IH. reflexivity.
Qed.

(** X22. The response of the protocol object is set once, by the first
    event: when that event is a response, it is stored, and every later
    event, a second response included, is handed on to the base class, in
    order, and leaves the stored response alone.  When the first event is
    a frame, [process_event] fails an assertion and the response stays
    unset. *)
Theorem process_event_first_response (self : ClientProtocol.t)
    (first : ClientProtocol.Event) (events : list ClientProtocol.Event) :
  ClientProtocol.response self = None ->
  process_events (first :: events) self
  = match first with
    | ClientProtocol.EventResponse r =>
      (ClientProtocol.mk (ClientProtocol.calls self) (Some r), Ok events)
    | ClientProtocol.EventFrame _ => (self, Raise AssertionError)
    end.
Proof.
  intros Hnone. cbn [process_events]. unfold ClientProtocol.process_event at 1.
  rewrite Hnone. destruct first as [r|f]; [|reflexivity].
  rewrite (process_events_later events _ r) by reflexivity. reflexivity.
Qed.

Lemma process_event_first_response_witness :
  let self := ClientProtocol.mk [call_connect] None in
  let events :=
    [ClientProtocol.EventResponse (mkResponse 200 None);
     ClientProtocol.EventFrame (data_frame frames.TEXT true [x61])] in
  process_events (ClientProtocol.EventResponse (mkResponse 101 None) :: events)
    self
  = (ClientProtocol.mk (ClientProtocol.calls self) (Some (mkResponse 101 None)),
     Ok events).
Proof.
  apply (process_event_first_response
           (ClientProtocol.mk [call_connect] None)
           (ClientProtocol.EventResponse (mkResponse 101 None))
           [ClientProtocol.EventResponse (mkResponse 200 None);
            ClientProtocol.EventFrame (data_frame frames.TEXT true [x61])]).
  reflexivity.
Defined.

(** ** Streaming a message with [get_iter] *)

Lemma unstream_buffering (ys : list Data) (a : Assembler.t) :
  Assembler.chunks_queue a = None -> unstream ys a = a.
Proof. intros H. unfold unstream. rewrite H. reflexivity. Qed.

Lemma unstream_fields (ys : list Data) (a : Assembler.t) :
  Assembler.message_complete (unstream ys a) = Assembler.message_complete a
  /\ Assembler.message_fetched (unstream ys a) = Assembler.message_fetched a
  /\ Assembler.get_in_progress (unstream ys a) = Assembler.get_in_progress a
  /\ Assembler.put_in_progress (unstream ys a) = Assembler.put_in_progress a
  /\ Assembler.decoder (unstream ys a) = Assembler.decoder a
  /\ Assembler.closed (unstream ys a) = Assembler.closed a.
Proof.
  unfold unstream. destruct (Assembler.chunks_queue a); repeat split.
Qed.

(** [put] does to the queue what it would do to the buffer. *)
Lemma put_begin_unstream (f : frames.Frame) (a : Assembler.t) (ys : list Data) :
  Assembler.put_begin f (unstream ys a)
  = (unstream ys (fst (Assembler.put_begin f a)),
     snd (Assembler.put_begin f a)).
Proof.
  destruct a as [mc mf gip pip dec chunks [q|] cl].
  2: { unfold unstream at 1. cbn [Assembler.chunks_queue].
       destruct (Assembler.put_begin f _) as [a' r] eqn:Hput. cbn [fst snd].
       rewrite unstream_buffering; [reflexivity|].
       revert Hput. unfold Assembler.put_begin, Assembler.put_data,
         Assembler.put_chunk. cbn.
       repeat match goal with
       | |- context [match ?x with _ => _ end] =>
         lazymatch x with
         | context [match _ with _ => _ end] => fail
         | _ => destruct x
         end
       | |- context [if ?x then _ else _] =>
         lazymatch x with
         | context [if _ then _ else _] => fail
         | _ => destruct x
         end
       end; cbn; intros [= <- _]; reflexivity. }
  unfold unstream, Assembler.put_begin, Assembler.put_data, Assembler.put_chunk.
  cbn.
  destruct cl; [reflexivity|]. destruct pip; [reflexivity|].
  destruct (frames.opcode f); cbn; try reflexivity.
  all: repeat match goal with
       | |- context [UTF8Decoder_decode ?b ?d ?fin] =>
         destruct (UTF8Decoder_decode b d fin) as [[? ?]|]; cbn
       | |- context [match ?d with Some _ => _ | None => _ end] =>
         is_var d; destruct d; cbn
       end.
  all: destruct (frames.fin f); cbn; try reflexivity.
  all: rewrite ?omap_app; cbn; rewrite <- ?app_assoc; try reflexivity.
  all: destruct mc; cbn; try reflexivity.
  all: rewrite ?omap_app; cbn; rewrite ?app_nil_r, <- ?app_assoc;
    try reflexivity.
  all: destruct mf; cbn; rewrite ?omap_app; cbn;
    rewrite ?app_nil_r, <- ?app_assoc; reflexivity.
Qed.

(** What [put] does to the rest of a streaming assembler. *)
Lemma put_begin_queue (f : frames.Frame) (a : Assembler.t)
    (q : list (option Data)) :
  Assembler.chunks_queue a = Some q -> queue_ok a q ->
  Assembler.message_complete a = false ->
  let a' := fst (Assembler.put_begin f a) in
  Assembler.chunks a' = Assembler.chunks a
  /\ Assembler.get_in_progress a' = Assembler.get_in_progress a
  /\ exists q', Assembler.chunks_queue a' = Some q'
                /\ queue_ok a' q' /\ (length q' <= length q + 2)%nat.
Proof.
  destruct a as [mc mf gip pip dec chunks q0 cl]. cbn.
  intros -> Hq ->. unfold queue_ok in *. cbn in *.
  rewrite app_nil_r in Hq.
  assert (Hsame : exists q', Some q = Some q'
            /\ q' = map Some (omap id q') ++ []
            /\ (length q' <= length q + 2)%nat).
  { exists q. rewrite app_nil_r. repeat split; [exact Hq|lia]. }
  assert (Hsnoc : forall d, omap id (q ++ [Some d]) = omap id q ++ [d]).
  { intros d. rewrite omap_app. reflexivity. }
  assert (Hdata : forall d, exists q', Some (q ++ [Some d]) = Some q'
            /\ q' = map Some (omap id q') ++ []
            /\ (length q' <= length q + 2)%nat).
  { intros d. eexists. split; [reflexivity|].
    rewrite Hsnoc, map_app, app_nil_r, <- Hq, length_app. cbn. split; [reflexivity|lia]. }
  assert (Hend : forall d, exists q', Some ((q ++ [Some d]) ++ [None]) = Some q'
            /\ q' = map Some (omap id q') ++ [None]
            /\ (length q' <= length q + 2)%nat).
  { intros d. eexists. split; [reflexivity|].
    rewrite omap_app, Hsnoc. cbn. rewrite app_nil_r, map_app, <- Hq.
    rewrite !length_app. cbn. split; [reflexivity|lia]. }
  unfold Assembler.put_begin, Assembler.put_data, Assembler.put_chunk. cbn.
  destruct cl; [cbn; auto|]. destruct pip; [cbn; auto|].
  destruct (frames.opcode f); cbn; auto.
  all: repeat match goal with
       | |- context [UTF8Decoder_decode ?b ?d ?fin] =>
         destruct (UTF8Decoder_decode b d fin) as [[? ?]|]; cbn; auto
       | |- context [match ?d with Some _ => _ | None => _ end] =>
         is_var d; destruct d; cbn; auto
       end.
  all: destruct (frames.fin f); cbn; auto.
  all: destruct mf; cbn; auto.
Qed.

Lemma put_end_unstream (a : Assembler.t) (ys : list Data) :
  Assembler.put_end (unstream ys a)
  = (unstream ys (fst (Assembler.put_end a)), snd (Assembler.put_end a)).
Proof.
  destruct a as [mc mf gip pip dec chunks [q|] cl];
    unfold unstream, Assembler.put_end; cbn;
    destruct mf; cbn; try reflexivity; destruct cl; reflexivity.
Qed.

Lemma put_end_frame (a : Assembler.t) :
  let a' := fst (Assembler.put_end a) in
  Assembler.chunks a' = Assembler.chunks a
  /\ Assembler.get_in_progress a' = Assembler.get_in_progress a
  /\ Assembler.chunks_queue a' = Assembler.chunks_queue a
  /\ Assembler.message_complete a' = Assembler.message_complete a.
Proof.
  destruct a as [mc mf gip pip dec chunks q cl].
  unfold Assembler.put_end; cbn. destruct mf; cbn; [|auto].
  destruct cl; cbn; auto.
Qed.

(** A step of the producer on a streaming assembler is the same step on
    the buffering one. *)
Lemma produce_unstream (a a' : Assembler.t) (p p' : producer) (ys : list Data) :
  produce a p = Some (a', p') ->
  produce (unstream ys a) p = Some (unstream ys a', p').
Proof.
  unfold produce. destruct p as [[|f todo]|todo|todo|e]; try discriminate.
  - rewrite put_begin_unstream.
    destruct (Assembler.put_begin f a) as [b r]. cbn [fst snd].
    intros [= <- <-]. reflexivity.
  - destruct (unstream_fields ys a) as (_ & -> & _).
    destruct (Assembler.message_fetched a); [|discriminate].
    intros [= <- <-]. reflexivity.
  - rewrite put_end_unstream.
    destruct (Assembler.put_end a) as [b r]. cbn [fst snd].
    intros [= <- <-]. reflexivity.
Qed.

(** A step of the producer on a buffering assembler keeps the phases. *)
Lemma phase_produce (a a' : Assembler.t) (p p' : producer)
    (R : list (list frames.Frame)) (E : list Data) :
  Forall2 msg_ok R E ->
  phase a p R E ->
  produce a p = Some (a', p') ->
  phase a' p' R E
  /\ Assembler.get_in_progress a' = Assembler.get_in_progress a
  /\ match p, p' with
     | PIdle (_ :: todo), PIdle todo' => todo' = todo
     | PIdle (_ :: todo), PWaiting todo' => todo' = todo
     | PWaiting todo, PWoken todo' => todo' = todo /\ a' = a
     | PWoken todo, PIdle todo' => todo' = todo
     | _, _ => False
     end.
Proof.
  intros HF Hph. unfold produce.
  inversion Hph as [Hl Hb | pre post R0 E0 Hl Hpost Hb | m R0 d E0 Hl Hj
                   | R0 E0 Hl Hch | R0 E0 Hl Hch]; subst.
  - discriminate.
  - destruct post as [|f post]; [congruence|]. cbn [app].
    inversion HF as [|m d R1 E1 Hm HF']; subst.
    destruct (put_begin_frame a pre post f d Hl Hb Hm)
      as (dec' & chunks' & Hput & Hcase).
    rewrite Hput. intros [= <- <-].
    destruct (frames.fin f) eqn:Hfin.
    + destruct Hcase as [-> Hj]. cbn [app]. repeat split.
      apply (phase_complete _ (pre ++ [f]) R0 d E1); [|exact Hj].
      unfold latch; cbn; tauto.
    + destruct Hcase as [Hpost' Hb']. repeat split.
      replace (pre ++ f :: post) with ((pre ++ [f]) ++ post)
        by (rewrite <- app_assoc; reflexivity).
      apply (phase_buffering _ (pre ++ [f]) post R0 (d :: E1));
        [unfold latch; cbn; tauto | assumption | assumption].
  - destruct Hl as (_ & -> & _). discriminate.
  - destruct Hl as (Hmc & Hmf & Hl). rewrite Hmf. intros [= <- <-].
    repeat split. apply phase_woken; [unfold latch; tauto | assumption].
  - rewrite (put_end_fetched a Hl). intros [= <- <-]. repeat split.
    apply phase_start; [unfold latch; cbn; tauto| reflexivity | assumption
                       | assumption].
Qed.

Lemma phase_idle_incomplete a todo R E :
  phase a (PIdle todo) R E -> Assembler.message_complete a = false.
Proof.
  intros H. inversion H as [Hl _ | ? ? ? ? Hl _ _ | | |]; subst;
    destruct Hl as (Hmc & _); exact Hmc.
Qed.

(** What the producer leaves alone when it wakes up and when it ends
    its call. *)
Lemma produce_not_idle (a a' : Assembler.t) (p p' : producer) :
  produce a p = Some (a', p') ->
  (forall todo, p <> PIdle todo) ->
  Assembler.chunks a' = Assembler.chunks a
  /\ Assembler.get_in_progress a' = Assembler.get_in_progress a
  /\ Assembler.chunks_queue a' = Assembler.chunks_queue a
  /\ Assembler.message_complete a' = Assembler.message_complete a.
Proof.
  unfold produce. intros Hprod Hidle.
  destruct p as [todo|todo|todo|e]; try discriminate.
  - destruct (Hidle todo eq_refl).
  - destruct (Assembler.message_fetched a); [|discriminate].
    injection Hprod as <- <-. repeat split.
  - pose proof (put_end_frame a) as Hput.
    destruct (Assembler.put_end a) as [b r]. cbn [fst] in Hput.
    injection Hprod as <- <-. exact Hput.
Qed.

(** A step of the producer on a streaming assembler leaves alone what
    belongs to the consumer, and adds at most two items to the queue. *)
Lemma produce_queue (a a' : Assembler.t) (p p' : producer)
    (q : list (option Data)) :
  produce a p = Some (a', p') ->
  Assembler.chunks_queue a = Some q -> queue_ok a q ->
  (forall todo, p = PIdle todo -> Assembler.message_complete a = false) ->
  Assembler.chunks a' = Assembler.chunks a
  /\ Assembler.get_in_progress a' = Assembler.get_in_progress a
  /\ exists q', Assembler.chunks_queue a' = Some q' /\ queue_ok a' q'
       /\ (length q' <= length q + match p with PIdle _ => 2 | _ => 0 end)%nat.
Proof.
  intros Hprod Hq Hok Hidle.
  destruct p as [todo|todo|todo|e].
  - pose proof (Hidle _ eq_refl) as Hmc. unfold produce in Hprod.
    destruct todo as [|f todo]; [discriminate|].
    pose proof (put_begin_queue f a q Hq Hok Hmc) as Hput.
    destruct (Assembler.put_begin f a) as [b r]. cbn [fst] in Hput.
    injection Hprod as <- <-. exact Hput.
  - destruct (produce_not_idle _ _ _ _ Hprod) as (Hch & Hgip & Hq' & Hmc);
      [discriminate|].
    split; [exact Hch|]. split; [exact Hgip|]. exists q.
    split; [congruence|]. split; [|lia].
    unfold queue_ok in *. rewrite Hmc. exact Hok.
  - destruct (produce_not_idle _ _ _ _ Hprod) as (Hch & Hgip & Hq' & Hmc);
      [discriminate|].
    split; [exact Hch|]. split; [exact Hgip|]. exists q.
    split; [congruence|]. split; [|lia].
    unfold queue_ok in *. rewrite Hmc. exact Hok.
  - discriminate.
Qed.

Ltac stream_simpl :=
  unfold stream_exec in *;
  cbn [s_asm s_prod s_cons s_need s_results yielded_by streamer_ok] in *.

Ltac stream_measure_lia :=
  unfold stream_measure, queue_length in *;
  cbn -[Nat.mul Nat.add] in *;
  rewrite ?length_app in *; cbn [length] in *; lia.

Lemma stream_inv_produce expected s s' :
  stream_inv expected s -> stream_exec Produce s = Some s' ->
  stream_inv expected s' /\ (stream_measure s' < stream_measure s)%nat.
Proof.
  destruct s as [a p c n rs].
  intros (R & E & done & HF & Hexp & Hres & Hneed & Hph & Hc). stream_simpl.
  destruct (produce a p) as [[a' p']|] eqn:Hprod; [|discriminate].
  intros [= <-].
  pose proof (produce_unstream _ _ _ _ (yielded_by c) Hprod) as Hprod'.
  destruct (phase_produce _ _ _ _ R E HF Hph Hprod') as (Hph' & _ & Hshape).
  assert (Hidle : forall todo, p = PIdle todo ->
                               Assembler.message_complete a = false).
  { intros todo ->. apply phase_idle_incomplete in Hph.
    destruct (unstream_fields (yielded_by c) a) as (Hmc & _). congruence. }
  assert (Hc' : streamer_ok a' c n
                /\ (queue_length a'
                    <= queue_length a
                       + match p with PIdle _ => 2 | _ => 0 end)%nat).
  { destruct c as [|ys|ys|e]; stream_simpl.
    - destruct Hc as [Hgip Hq].
      rewrite (unstream_buffering _ a Hq) in Hph.
      destruct (phase_produce _ _ _ _ R E HF Hph Hprod) as (Hph0 & Hgip' & _).
      destruct (phase_latch _ _ _ _ Hph0) as [_ Hq'].
      unfold queue_length. rewrite Hq, Hq'.
      split; [split; congruence|lia].
    - destruct Hc as (Hgip & Hch & Hn & q & Hq & Hok).
      destruct (produce_queue _ _ _ _ q Hprod Hq Hok Hidle)
        as (Hch' & Hgip' & q' & Hq' & Hok' & Hlen).
      unfold queue_length. rewrite Hq, Hq'.
      split; [|exact Hlen].
      split; [congruence|]. split; [congruence|]. split; [assumption|].
      exists q'. split; [first [assumption|reflexivity]|assumption].
    - destruct Hc as (Hgip & Hch & Hn & Hq & Hmc).
      destruct (produce_not_idle _ _ _ _ Hprod) as (Hch' & Hgip' & Hq' & Hmc').
      { intros todo ->. specialize (Hidle _ eq_refl). congruence. }
      unfold queue_length. rewrite Hq', Hq.
      split; [|cbn; lia]. repeat split; congruence.
    - destruct Hc. }
  destruct Hc' as [Hc' Hlen]. split.
  - exists R, E, done. stream_simpl. repeat split; assumption.
  - destruct p as [[|f todo]|todo|todo|e], p' as [todo'|todo'|todo'|e'];
      try (destruct Hshape; fail); try subst todo';
      try (destruct Hshape as [-> _]); stream_measure_lia.
Qed.

Lemma joined_chunks_of (dec : option bytes) (ys : list Data) (d : Data) :
  joined dec ys = Ok d -> chunks_of d ys.
Proof.
  unfold joined, chunks_of. destruct dec.
  - destruct (join_str ys); [|discriminate]. intros [= <-]. reflexivity.
  - destruct (join_bytes ys); [|discriminate]. intros [= <-]. reflexivity.
Qed.

Lemma queue_ok_head_none (a : Assembler.t) (q : list (option Data)) :
  queue_ok a (None :: q) -> q = [] /\ Assembler.message_complete a = true.
Proof.
  unfold queue_ok. change (omap id (None :: q)) with (omap id q).
  destruct (omap id q) as [|d ds]; cbn [map app]; [|discriminate].
  destruct (Assembler.message_complete a); [|discriminate].
  intros [= ->]. split; reflexivity.
Qed.

Lemma queue_ok_head_some (a : Assembler.t) (d : Data) (q : list (option Data))
    (a' : Assembler.t) :
  queue_ok a (Some d :: q) ->
  Assembler.message_complete a' = Assembler.message_complete a ->
  queue_ok a' q.
Proof.
  unfold queue_ok. change (omap id (Some d :: q)) with (d :: omap id q).
  cbn [map app]. intros [= H] ->. exact H.
Qed.

Lemma stream_inv_consume expected s s' :
  stream_inv expected s -> stream_exec Consume s = Some s' ->
  stream_inv expected s' /\ (stream_measure s' < stream_measure s)%nat.
Proof.
  destruct s as [a p c n rs].
  intros (R & E & done & HF & Hexp & Hres & Hneed & Hph & Hc). stream_simpl.
  destruct c as [|ys|ys|e]; stream_simpl.
  - (* the first block of get_iter *)
    destruct n as [|n']; [discriminate|].
    destruct Hc as [Hgip Hq].
    rewrite (unstream_buffering _ a Hq) in Hph.
    destruct (phase_latch _ _ _ _ Hph) as [Hcl _].
    destruct a as [mc mf gip pip dec chunks q cl]. cbn in Hgip, Hq, Hcl.
    subst gip q cl. unfold Assembler.get_iter_begin. cbn.
    apply (phase_get_in_progress _ _ _ _ true) in Hph.
    destruct mc; cbn; intros [= <-]; (split; [|stream_measure_lia]).
    all: exists R, E, done; stream_simpl.
    all: split; [exact HF|]; split; [exact Hexp|]; split; [exact Hres|].
    all: split; [exact Hneed|]; split.
    all: try (unfold unstream; cbn; rewrite app_nil_r; exact Hph).
    all: split; [reflexivity|]; split; [reflexivity|]; split; [lia|].
    all: eexists; split; reflexivity.
  - (* the loop of get_iter *)
    destruct Hc as (Hgip & Hch & Hn & q & Hq & Hok).
    destruct a as [mc mf gip pip dec chunks q0 cl]. cbn in Hgip, Hch, Hq.
    subst gip chunks q0. unfold Assembler.queue_get. cbn.
    destruct q as [|[d|] q]; [discriminate| |]; intros [= <-].
    + split.
      * exists R, E, done. stream_simpl. repeat split; try assumption.
        -- unfold unstream in *. cbn in *. rewrite <- app_assoc. exact Hph.
        -- exists q. split; [reflexivity|].
           exact (queue_ok_head_some _ _ _ _ Hok eq_refl).
      * stream_measure_lia.
    + destruct (queue_ok_head_none _ _ Hok) as [-> Hmc]. cbn in Hmc. subst mc.
      split.
      * exists R, E, done. stream_simpl. repeat split; assumption.
      * stream_measure_lia.
  - (* the last block of get_iter *)
    destruct Hc as (Hgip & Hch & Hn & Hq & Hmc).
    destruct a as [mc mf gip pip dec chunks q0 cl]. cbn in Hgip, Hch, Hq, Hmc.
    subst gip chunks q0 mc. unfold unstream in Hph. cbn in Hph.
    rewrite app_nil_r in Hph.
    inversion Hph as [Hl Hb | pre post R0 E0 Hl Hpost Hb | m R0 d E0 Hl Hj
                     | R0 E0 Hl Hch | R0 E0 Hl Hch]; subst;
      destruct Hl as (Hmc & Hmf & Hpip & _ & Hcl); cbn in Hmc, Hmf, Hpip, Hcl;
      try discriminate.
    subst mf pip cl. cbn in Hj.
    unfold Assembler.get_iter_end. cbn. intros [= <-]. split.
    + inversion HF as [|m' d' R1 E1 Hm HF']; subst.
      exists R0, E0, (done ++ [d]). stream_simpl.
      split; [exact HF'|]. split; [rewrite <- app_assoc; reflexivity|].
      split.
      { apply Forall2_app; [exact Hres|]. repeat constructor.
        exact (joined_chunks_of _ _ _ Hj). }
      split; [reflexivity|]. split; [|split; reflexivity].
      unfold unstream. cbn. apply phase_fetched; [|reflexivity].
      unfold latch. cbn. tauto.
    + cbn [length] in *. stream_measure_lia.
  - destruct Hc.
Qed.

Lemma stream_inv_exec expected a s s' :
  stream_inv expected s -> stream_exec a s = Some s' ->
  stream_inv expected s' /\ (stream_measure s' < stream_measure s)%nat.
Proof.
  destruct a; [apply stream_inv_produce | apply stream_inv_consume|].
  discriminate.
Qed.

Lemma stream_inv_start (msgs : list (list frames.Frame))
    (expected : list Data) :
  Forall2 msg_ok msgs expected ->
  stream_inv expected (stream_start (concat msgs) (length msgs)).
Proof.
  intros HF. exists msgs, expected, []. unfold stream_start. stream_simpl.
  split; [exact HF|]. split; [reflexivity|]. split; [constructor|].
  split; [exact (Forall2_length _ _ _ HF)|].
  split; [|split; reflexivity].
  apply phase_start; [unfold latch; cbn; tauto|reflexivity|reflexivity|exact HF].
Qed.

Lemma stream_inv_run expected sched : forall s s',
  stream_inv expected s -> stream_run sched s = Some s' ->
  stream_inv expected s'
  /\ (length sched + stream_measure s' <= stream_measure s)%nat.
Proof.
  induction sched as [|a sched IH]; intros s s' Hinv; cbn [stream_run length].
  - intros [= <-]. split; [assumption|lia].
  - destruct (stream_exec a s) as [s1|] eqn:Hex; [|discriminate]. intros Hrun.
    destruct (stream_inv_exec _ _ _ _ Hinv Hex) as [Hinv1 Hm].
    destruct (IH _ _ Hinv1 Hrun) as [Hinv' Hm']. split; [assumption|lia].
Qed.

(** What the invariant says about the results and the threads. *)
Lemma stream_inv_results expected s :
  stream_inv expected s ->
  stream_raised s = false
  /\ exists k, Forall2 chunks_of (take k expected) (s_results s).
Proof.
  destruct s as [a p c n rs].
  intros (R & E & done & HF & Hexp & Hres & Hneed & Hph & Hc). stream_simpl.
  split.
  - unfold stream_raised. cbn [s_prod s_cons].
    destruct Hph; destruct c; cbn in Hc; try reflexivity; destruct Hc.
  - exists (length done). rewrite <- Hexp, take_app_length. exact Hres.
Qed.

(** When nothing can run any more, every message has been streamed to
    its end and every call has returned. *)
Lemma stream_inv_stuck expected s :
  stream_inv expected s -> stream_stuck s ->
  Forall2 chunks_of expected (s_results s)
  /\ s_prod s = PIdle [] /\ s_cons s = SIdle.
Proof.
  destruct s as [a p c n rs].
  intros (R & E & done & HF & Hexp & Hres & Hneed & Hph & Hc) Hstuck.
  pose proof (Hstuck Produce) as HP. pose proof (Hstuck Consume) as HC.
  stream_simpl.
  destruct (unstream_fields (yielded_by c) a)
    as (Umc & Umf & Ugip & Upip & Udec & Ucl).
  pose proof (phase_latch _ _ _ _ Hph) as [Hcl _]. rewrite Ucl in Hcl.
  inversion Hph as [Hl Hb | pre post R0 E0 Hl Hpost Hb | m R0 d E0 Hl Hj
                   | R0 E0 Hl Hch | R0 E0 Hl Hch]; subst;
    destruct Hl as (Hmc & Hmf & Hpip & _); rewrite ?Umc, ?Umf, ?Upip in *.
  - (* the producer is done *)
    inversion HF; subst. cbn [length] in *.
    destruct c as [|ys|ys|e]; cbn [streamer_ok] in Hc.
    + rewrite ?app_nil_r in *. subst. auto.
    + destruct Hc as (_ & _ & Hn & _). lia.
    + destruct Hc as (_ & _ & Hn & _). lia.
    + destruct Hc.
  - (* the producer can put a frame *)
    destruct post as [|f post]; [congruence|]. cbn [app produce] in HP.
    destruct (Assembler.put_begin f a) as [a' r]. discriminate.
  - (* the producer waits for the consumer, who can go on *)
    inversion HF; subst. cbn [length] in *.
    destruct c as [|ys|ys|e]; cbn [streamer_ok] in Hc.
    + destruct (Assembler.get_iter_begin a) as [a' r]. discriminate.
    + destruct Hc as (_ & _ & _ & q & Hq & Hok).
      unfold queue_ok in Hok. rewrite Hmc in Hok.
      unfold Assembler.queue_get in HC. rewrite Hq in HC.
      destruct q as [|item q]; [|discriminate].
      destruct (map Some (omap id (@nil (option Data)))); discriminate.
    + destruct (Assembler.get_iter_end a) as [a' [[]|e']]; discriminate.
    + destruct Hc.
  - cbn [produce] in HP. rewrite Hmf in HP. discriminate.
  - cbn [produce] in HP.
    destruct (Assembler.put_end a) as [a' r]. discriminate.
Qed.

(** Every run can be continued until nothing can run any more. *)
Lemma stream_run_to_stuck expected s :
  stream_inv expected s ->
  exists sched s', stream_run sched s = Some s' /\ stream_stuck s'.
Proof.
  remember (stream_measure s) as n eqn:Hn. revert s Hn.
  induction (lt_wf n) as [n _ IH]. intros s -> Hinv.
  assert (Hnext : forall a s1, stream_exec a s = Some s1 ->
            exists sched s', stream_run sched s = Some s' /\ stream_stuck s').
  { intros a s1 Hex. destruct (stream_inv_exec _ _ _ _ Hinv Hex) as [Hinv1 Hm].
    destruct (IH _ Hm s1 eq_refl Hinv1) as (sched & s' & Hrun & Hst).
    exists (a :: sched), s'. cbn [stream_run]. rewrite Hex. auto. }
  destruct (stream_exec Produce s) as [s1|] eqn:HP; [exact (Hnext _ _ HP)|].
  destruct (stream_exec Consume s) as [s1|] eqn:HC; [exact (Hnext _ _ HC)|].
  exists [], s. split; [reflexivity|]. intros []; [assumption|assumption|].
  reflexivity.
Qed.

(** X23. Frames of complete messages go through [put] one at a time
    while the consumer iterates over [get_iter()] once per message.
    However the two threads are interleaved, and wherever in a message
    the assembler switches from buffering to streaming: no call raises;
    the messages streamed so far are the first messages, in order, each
    as chunks that join to the message (the payloads for a binary
    message, their decoding for a text message); the run ends after a
    bounded number of steps; and when nothing can run any more every
    [put] has returned and every message has been streamed to its end. *)
Theorem get_iter_streams_messages
    (msgs : list (list frames.Frame)) (expected : list Data) :
  Forall2 (fun m d => complete_message m = true /\ message_data m = Ok d)
          msgs expected ->
  let init := stream_start (concat msgs) (length msgs) in
  forall sched s, stream_run sched init = Some s ->
    (length sched <= stream_measure init)%nat
    /\ stream_raised s = false
    /\ (exists k, Forall2 chunks_of (take k expected) (s_results s))
    /\ (stream_stuck s ->
        Forall2 chunks_of expected (s_results s)
        /\ s_prod s = PIdle [] /\ s_cons s = SIdle)
    /\ (exists sched' s', stream_run sched' s = Some s' /\ stream_stuck s').
Proof.
  intros HF init sched s Hrun.
  destruct (stream_inv_run expected sched init s (stream_inv_start _ _ HF) Hrun)
    as [Hinv Hlen].
  destruct (stream_inv_results _ _ Hinv) as (Hr & Hk).
  split; [lia|]. split; [exact Hr|]. split; [exact Hk|]. split.
  - exact (stream_inv_stuck _ _ Hinv).
  - exact (stream_run_to_stuck _ _ Hinv).
Qed.

Lemma get_iter_streams_messages_witness :
  let msgs := [fragmented_binary; fragmented_text] in
  let expected := [Bytes [x01; x02; x03; x04; x05]; Str [104; 233; 108]] in
  let init := stream_start (concat msgs) (length msgs) in
  let s := two_messages_streamed in
  stream_run two_messages_stream init = Some s
  /\ (length two_messages_stream <= stream_measure init)%nat
  /\ stream_raised s = false
  /\ (exists k, Forall2 chunks_of (take k expected) (s_results s))
  /\ (stream_stuck s ->
      Forall2 chunks_of expected (s_results s)
      /\ s_prod s = PIdle [] /\ s_cons s = SIdle)
  /\ (exists sched' s', stream_run sched' s = Some s' /\ stream_stuck s').
Proof.
  cbv zeta. split; [reflexivity|].
  apply (get_iter_streams_messages
           [fragmented_binary; fragmented_text]
           [Bytes [x01; x02; x03; x04; x05]; Str [104; 233; 108]]);
    [repeat constructor | reflexivity].
Defined.
